(** * generate_publications.py: BibTeX to HTML publication pages

    A shallow embedding of [src/generate_publications.py] and the
    properties of its extractor, cleaner, formatters and index renderer.

    Conventions of the embedding.
    - Python [str] values are lists of characters ([list ascii]).  The 256
      characters are read as the code points 0..255 (Latin-1), and the
      character classes below are the ones Python 3 assigns to those code
      points; text with code points above 255 is outside the model.
    - A record ([dict] with string keys and string values) is a
      [gmap str str].
    - A Python exception is a value [Raise e] of the [result] type.
      File input and output is modelled by passing file contents in and out;
      an error of the operating system when a file is opened, read or
      written (a file name that is too long, for instance) is not modelled.
    - The interpreter's configurable bound on the number of digits accepted
      by [int()] (CPython 3.11 and later) is not modelled. *)

From Stdlib Require Import Ascii String List ZArith Lia Bool Arith Permutation Sorted.
From stdpp Require Import gmap strings list fin_maps.

Open Scope nat_scope.
Open Scope list_scope.

(* ===================================================================== *)
(** ** Strings *)
(* ===================================================================== *)

Abbreviation str := (list ascii).

(** A string literal as a [str]. *)
Definition lit (s : string) : str := list_ascii_of_string s.

Definition nl : ascii := ascii_of_nat 10.
Definition dq : ascii := ascii_of_nat 34.
Definition lbrace : ascii := ascii_of_nat 123.
Definition rbrace : ascii := ascii_of_nat 125.

(** [quoted s] is [s] between two double-quote characters. *)
Definition quoted (s : string) : str := dq :: lit s ++ [dq].

Definition ascii_eqb (a b : ascii) : bool := Ascii.eqb a b.

Definition str_eqb (a b : str) : bool := bool_decide (a = b).

Definition in_range (lo hi n : nat) : bool := (lo <=? n) && (n <=? hi).

(** [str.isspace], the class [\s] of [re] and the characters removed by
    [str.strip()] and [str.split()]. *)
Definition is_space (c : ascii) : bool :=
  let n := nat_of_ascii c in
  in_range 9 13 n || in_range 28 32 n || (n =? 133) || (n =? 160).

(** The class [\w] of [re] on [str] patterns: alphanumeric or underscore. *)
Definition is_word (c : ascii) : bool :=
  let n := nat_of_ascii c in
  in_range 48 57 n || in_range 65 90 n || (n =? 95) || in_range 97 122 n
  || (n =? 170) || (n =? 178) || (n =? 179) || (n =? 181) || (n =? 185)
  || (n =? 186) || in_range 188 190 n
  || in_range 192 214 n || in_range 216 246 n || in_range 248 255 n.

(** One character of [str.isdigit]. *)
Definition is_digit_char (c : ascii) : bool :=
  let n := nat_of_ascii c in
  in_range 48 57 n || (n =? 178) || (n =? 179) || (n =? 185).

(** A decimal digit accepted by [int()]. *)
Definition is_decimal (c : ascii) : bool := in_range 48 57 (nat_of_ascii c).

(** White space skipped by [int()] around the number. *)
Definition is_int_space (c : ascii) : bool :=
  let n := nat_of_ascii c in
  in_range 9 13 n || (n =? 32) || (n =? 133) || (n =? 160).

(** [str.lower] on one character. *)
Definition lower_char (c : ascii) : ascii :=
  let n := nat_of_ascii c in
  if in_range 65 90 n || in_range 192 214 n || in_range 216 222 n
  then ascii_of_nat (n + 32) else c.

Definition lower (s : str) : str := map lower_char s.

(** [s.isdigit()]: non-empty and every character a digit. *)
Definition isdigit (s : str) : bool :=
  match s with
  | [] => false
  | _ => forallb is_digit_char s
  end.

(** [s.lstrip()], [s.rstrip()] and [s.strip()]. *)
Fixpoint lstrip (s : str) : str :=
  match s with
  | c :: s' => if is_space c then lstrip s' else s
  | [] => []
  end.

Definition rstrip (s : str) : str := rev (lstrip (rev s)).

Definition strip (s : str) : str := rstrip (lstrip s).

(** [s.startswith(c)] and [s.endswith(c)] for a one-character [c]. *)
Definition startswith_char (c : ascii) (s : str) : bool :=
  match s with
  | x :: _ => ascii_eqb x c
  | [] => false
  end.

Definition endswith_char (c : ascii) (s : str) : bool :=
  startswith_char c (rev s).

(** [s[1:-1]]. *)
Definition slice_1_m1 (s : str) : str := drop 1 (take (length s - 1) s).

(** [s[i:j]] for [0 <= i], [0 <= j]. *)
Definition slice (s : str) (i j : nat) : str := drop i (take j s).

(** [c in s] for a one-character [c]. *)
Definition contains_char (c : ascii) (s : str) : bool := existsb (ascii_eqb c) s.

(** [s.startswith(p)]. *)
Fixpoint startswith (p s : str) : bool :=
  match p, s with
  | [], _ => true
  | a :: p', b :: s' => ascii_eqb a b && startswith p' s'
  | _ :: _, [] => false
  end.

(** [s.find(p)]: the lowest index at which [p] occurs in [s], [None] for
    Python's [-1]. *)
Fixpoint str_find (p s : str) : option nat :=
  if startswith p s then Some 0
  else match s with
       | [] => None
       | _ :: s' => S <$> str_find p s'
       end.

(** [s.find(p, start)]. *)
Definition str_find_from (p s : str) (start : nat) : option nat :=
  (fun i => start + i) <$> str_find p (drop start s).

(** [sep.join(l)]. *)
Fixpoint str_join (sep : str) (l : list str) : str :=
  match l with
  | [] => []
  | [x] => x
  | x :: l' => x ++ sep ++ str_join sep l'
  end.

(** [s.split(sep)] for a non-empty separator: the pieces between the
    occurrences of [sep] found from left to right.  [skip] counts the
    characters of a separator still to be passed over, [cur] is the piece
    being collected, in reverse. *)
Fixpoint split_go (sep : str) (s : str) (skip : nat) (cur : str) : list str :=
  match s with
  | [] => [rev cur]
  | c :: s' =>
      match skip with
      | S k => split_go sep s' k cur
      | 0 =>
          if startswith sep s
          then rev cur :: split_go sep s' (length sep - 1) []
          else split_go sep s' 0 (c :: cur)
      end
  end.

Definition str_split (sep : str) (s : str) : list str := split_go sep s 0 [].

(** [s.split()]: the maximal runs of characters that are not white space. *)
Fixpoint split_ws_go (s : str) (cur : str) : list str :=
  match s with
  | [] => match cur with [] => [] | _ => [rev cur] end
  | c :: s' =>
      if is_space c
      then match cur with
           | [] => split_ws_go s' []
           | _ => rev cur :: split_ws_go s' []
           end
      else split_ws_go s' (c :: cur)
  end.

Definition split_ws (s : str) : list str := split_ws_go s [].

(** The format specification [:0>2]: right-aligned in width two, filled
    with the character 0. *)
Definition pad2 (s : str) : str :=
  repeat (ascii_of_nat 48) (2 - length s) ++ s.

(** [l[:-1]] and [l[-1]] on a non-empty list of strings. *)
Definition all_but_last (l : list str) : list str := take (length l - 1) l.
Definition last_str (l : list str) : str := List.last l [].

(** [span f s]: the longest prefix of [s] whose characters satisfy [f],
    and what follows it: a greedy character-class repetition. *)
Fixpoint span (f : ascii -> bool) (s : str) : str * str :=
  match s with
  | c :: s' =>
      if f c then let '(run, rest) := span f s' in (c :: run, rest)
      else ([], s)
  | [] => ([], [])
  end.

(* ===================================================================== *)
(** ** Exceptions and [int()] *)
(* ===================================================================== *)

Inductive exn : Type :=
  | ValueError.

Inductive result (A : Type) : Type :=
  | Ok (a : A)
  | Raise (e : exn).

Arguments Ok {A} a.
Arguments Raise {A} e.

Definition bind {A B : Type} (r : result A) (k : A -> result B) : result B :=
  match r with
  | Ok a => k a
  | Raise e => Raise e
  end.

Notation "'do' x <- r ; k" := (bind r (fun x => k))
  (at level 10, x name, r at level 100, k at level 200).

(** [[f(x) for x in l]] where [f] may raise: the first exception wins. *)
Fixpoint map_result {A B : Type} (f : A -> result B) (l : list A) : result (list B) :=
  match l with
  | [] => Ok []
  | x :: l' => do y <- f x; do ys <- map_result f l'; Ok (y :: ys)
  end.

Fixpoint lstrip_by (f : ascii -> bool) (s : str) : str :=
  match s with
  | c :: s' => if f c then lstrip_by f s' else s
  | [] => []
  end.

Definition strip_by (f : ascii -> bool) (s : str) : str :=
  rev (lstrip_by f (rev (lstrip_by f s))).

Definition digit_value (c : ascii) : Z := Z.of_nat (nat_of_ascii c - 48).

(** The digits of a decimal literal, with single underscores allowed
    between digits.  [prev_digit] tells whether the previous character was
    a digit. *)
Fixpoint int_digits (acc : Z) (prev_digit : bool) (s : str) : option Z :=
  match s with
  | [] => if prev_digit then Some acc else None
  | c :: s' =>
      if is_decimal c then int_digits (10 * acc + digit_value c) true s'
      else if ascii_eqb c (ascii_of_nat 95)
           then if prev_digit then int_digits acc false s' else None
           else None
  end.

(** [int(s)] for a string [s]: surrounding white space, an optional sign,
    decimal digits.  Anything else raises [ValueError]. *)
Definition py_int (s : str) : result Z :=
  let body := strip_by is_int_space s in
  let '(negative, ds) :=
    match body with
    | c :: r =>
        if ascii_eqb c (ascii_of_nat 45) then (true, r)
        else if ascii_eqb c (ascii_of_nat 43) then (false, r)
        else (false, body)
    | [] => (false, body)
    end in
  match int_digits 0 false ds with
  | Some n => Ok (if negative then (- n)%Z else n)
  | None => Raise ValueError
  end.

(* ===================================================================== *)
(** ** [parse_field_value] and [clean_latex] *)
(* ===================================================================== *)

Definition parse_field_value (field_str : str) : str :=
  let field_str := strip field_str in
  if startswith_char dq field_str && endswith_char dq field_str
  then slice_1_m1 field_str
  else if startswith_char lbrace field_str && endswith_char rbrace field_str
       then slice_1_m1 field_str
       else field_str.

(** [re.sub(r'^[{](.+)[}]$', r'\1', text)].  Without flags [^] matches at
    the start only, [.] matches every character but the newline, and [$]
    matches at the end or just before a newline that ends the text.  So
    there is a match exactly when [text], less one final newline if it has
    one, is an opening brace, one or more characters none of which is a
    newline, and a closing brace; the match is replaced by what is between
    the two braces. *)
Definition sub_outer (text : str) : str :=
  let '(body, tail) :=
    if endswith_char nl text
    then (take (length text - 1) text, [nl])
    else (text, []) in
  if startswith_char lbrace body && endswith_char rbrace body
     && (3 <=? length body) && negb (contains_char nl (slice_1_m1 body))
  then slice_1_m1 body ++ tail
  else text.

Definition not_brace (c : ascii) : bool :=
  negb (ascii_eqb c lbrace) && negb (ascii_eqb c rbrace).

(** [re.sub(r'\{([^{}]+)\}', r'\1', text)]: from left to right, every
    opening brace followed by one or more characters that are not braces
    and then a closing brace is replaced by those characters.  [skip]
    counts the characters of a match still to be passed over. *)
Fixpoint sub_inner_go (s : str) (skip : nat) : str :=
  match s with
  | [] => []
  | c :: s' =>
      match skip with
      | S k => sub_inner_go s' k
      | 0 =>
          if ascii_eqb c lbrace then
            match span not_brace s' with
            | ((_ :: _) as run, r :: _) =>
                if ascii_eqb r rbrace
                then run ++ sub_inner_go s' (length run + 1)
                else c :: sub_inner_go s' 0
            | _ => c :: sub_inner_go s' 0
            end
          else c :: sub_inner_go s' 0
      end
  end.

Definition sub_inner (text : str) : str := sub_inner_go text 0.

(** The [while '{' in text] loop of [clean_latex].  Every pass that changes
    the text shortens it, so [length text] passes are enough
    ([clean_loop_exit] below). *)
Fixpoint clean_loop (fuel : nat) (text : str) : str :=
  match fuel with
  | 0 => text
  | S fuel' =>
      if contains_char lbrace text then
        let old_text := text in
        let text := sub_outer text in
        let text := sub_inner text in
        if str_eqb text old_text then text else clean_loop fuel' text
      else text
  end.

(** [re.sub(r'\s+', ' ', text)]. *)
Fixpoint collapse_ws_go (s : str) (in_run : bool) : str :=
  match s with
  | [] => []
  | c :: s' =>
      if is_space c
      then if in_run then collapse_ws_go s' true
           else ascii_of_nat 32 :: collapse_ws_go s' true
      else c :: collapse_ws_go s' false
  end.

Definition collapse_ws (text : str) : str := collapse_ws_go text false.

Definition clean_latex (text : str) : str :=
  match text with
  | [] => text
  | _ => strip (collapse_ws (clean_loop (length text) text))
  end.

(* ===================================================================== *)
(** ** [parse_bibtex]: entries, fields, sorting *)
(* ===================================================================== *)

Definition at_sign : ascii := ascii_of_nat 64.
Definition comma : ascii := ascii_of_nat 44.
Definition equals_sign : ascii := ascii_of_nat 61.

Definition not_comma (c : ascii) : bool := negb (ascii_eqb c comma).

(** One match of [@(\w+)\{([^,]+),(.+?)\n\}] (with [re.DOTALL]) at the
    start of [s]: the three groups and the length of the match.  The two
    greedy classes can only end where the class ends, because the
    character required next is outside the class; the lazy [.+?] is the
    shortest non-empty text that is followed by a newline and a closing
    brace. *)
Definition match_entry (s : str) : option (str * str * str * nat) :=
  match s with
  | c :: s1 =>
      if ascii_eqb c at_sign then
        match span is_word s1 with
        | ((_ :: _) as entry_type, b :: s3) =>
            if ascii_eqb b lbrace then
              match span not_comma s3 with
              | ((_ :: _) as key, _ :: s5) =>
                  match str_find_from [nl; rbrace] s5 1 with
                  | Some i =>
                      Some (entry_type, key, take i s5,
                            1 + length entry_type + 1 + length key + 1 + i + 2)
                  | None => None
                  end
              | _ => None
              end
            else None
        | _ => None
        end
      else None
  | [] => None
  end.

(** [re.findall(..., content, re.DOTALL)]: the matches that do not
    overlap, from left to right.  [skip] counts the characters of a match
    still to be passed over. *)
Fixpoint findall_entries (content : str) (skip : nat) : list (str * str * str) :=
  match content with
  | [] => []
  | _ :: rest =>
      match skip with
      | S k => findall_entries rest k
      | 0 =>
          match match_entry content with
          | Some (entry_type, key, fields, n) =>
              (entry_type, key, fields) :: findall_entries rest (n - 1)
          | None => findall_entries rest 0
          end
      end
  end.

(** One match of [(\w+)\s*=\s*] at the start of [s]: group 1 and the
    length of the match. *)
Definition match_assign (s : str) : option (str * nat) :=
  match span is_word s with
  | ((_ :: _) as name, r1) =>
      let '(ws1, r2) := span is_space r1 in
      match r2 with
      | e :: r3 =>
          if ascii_eqb e equals_sign then
            let '(ws2, _) := span is_space r3 in
            Some (name, length name + length ws1 + 1 + length ws2)
          else None
      | [] => None
      end
  | _ => None
  end.

(** [re.search(r'(\w+)\s*=\s*', s)]: the leftmost match; group 1 and
    [match.end()]. *)
Fixpoint search_assign (s : str) : option (str * nat) :=
  match match_assign s with
  | Some r => Some r
  | None =>
      match s with
      | [] => None
      | _ :: s' => (fun '(name, e) => (name, S e)) <$> search_assign s'
      end
  end.

(** The [for i in range(value_start, len(fields))] loop that looks for the
    closing brace; [s] is [fields[i:]].  [Some (i + 1)] when the counter
    comes back to zero at [i], [None] when the loop runs to the end. *)
Fixpoint brace_loop (s : str) (i : nat) (brace_count : Z) : option nat :=
  match s with
  | [] => None
  | c :: s' =>
      if ascii_eqb c lbrace then brace_loop s' (S i) (brace_count + 1)%Z
      else if ascii_eqb c rbrace then
             let brace_count := (brace_count - 1)%Z in
             if (brace_count =? 0)%Z then Some (i + 1)
             else brace_loop s' (S i) brace_count
           else brace_loop s' (S i) brace_count
  end.

(** The value of [value_end] after the extraction of the value.  A
    closing quote that is not found makes [find] return -1, and
    [value_end] zero. *)
Definition find_value_end (fields : str) (value_start : nat) : nat :=
  match fields !! value_start with
  | Some c =>
      if ascii_eqb c lbrace then
        match brace_loop (drop value_start fields) value_start 0 with
        | Some value_end => value_end
        | None => value_start
        end
      else if ascii_eqb c dq then
             match str_find_from [dq] fields (value_start + 1) with
             | Some i => i + 1
             | None => 0
             end
           else value_start
  | None => value_start
  end.

(** What one iteration of the [while current_pos < len(fields)] loop
    does: leave the loop ([break]), store a field and continue after its
    value, or move one character on. *)
Inductive step : Type :=
  | Stop
  | Store (field_name field_value : str) (value_end : nat)
  | Skip.

Definition scan_step (fields : str) (current_pos : nat) : step :=
  match search_assign (drop current_pos fields) with
  | None => Stop
  | Some (name, match_end) =>
      let field_name := lower name in
      let value_start := current_pos + match_end in
      let value_end := find_value_end fields value_start in
      if value_start <? value_end then
        let raw_value := slice fields value_start value_end in
        let field_value := parse_field_value raw_value in
        let field_value := clean_latex (strip field_value) in
        Store field_name field_value value_end
      else Skip
  end.

(** The loop, with a bound on the number of iterations; at zero the
    entry built so far is returned. *)
Fixpoint scan_loop (fuel : nat) (fields : str) (current_pos : nat)
    (entry : gmap str str) : gmap str str :=
  match fuel with
  | 0 => entry
  | S fuel' =>
      if current_pos <? length fields then
        match scan_step fields current_pos with
        | Stop => entry
        | Store field_name field_value value_end =>
            scan_loop fuel' fields value_end (<[field_name := field_value]> entry)
        | Skip => scan_loop fuel' fields (current_pos + 1) entry
        end
      else entry
  end.

(** The executions of the loop that come to an end: from the scan
    position and the entry before the loop test to the entry after the
    loop. *)
Inductive scan_run (fields : str) : nat -> gmap str str -> gmap str str -> Prop :=
  | scan_run_end current_pos entry :
      length fields <= current_pos ->
      scan_run fields current_pos entry entry
  | scan_run_break current_pos entry :
      current_pos < length fields ->
      scan_step fields current_pos = Stop ->
      scan_run fields current_pos entry entry
  | scan_run_store current_pos entry field_name field_value value_end entry' :
      current_pos < length fields ->
      scan_step fields current_pos = Store field_name field_value value_end ->
      scan_run fields value_end (<[field_name := field_value]> entry) entry' ->
      scan_run fields current_pos entry entry'
  | scan_run_skip current_pos entry entry' :
      current_pos < length fields ->
      scan_step fields current_pos = Skip ->
      scan_run fields (current_pos + 1) entry entry' ->
      scan_run fields current_pos entry entry'.

(** The body of [for entry_type, key, fields in entries]. *)
Definition parse_entry (e : str * str * str) : gmap str str :=
  let '(entry_type, key, fields) := e in
  let entry : gmap str str :=
    <[lit "key" := key]> (<[lit "type" := entry_type]> ∅) in
  scan_loop (length fields) fields 0 entry.

(** [pub.get(k, default)]. *)
Definition get (pub : gmap str str) (k : string) (default : str) : str :=
  match pub !! lit k with
  | Some v => v
  | None => default
  end.

(** A stable sort by decreasing key: what [list.sort(key=..., reverse=True)]
    returns.  [insert_desc] puts an element after the elements with a
    greater key and before the others, so that elements with equal keys
    keep their order. *)
Fixpoint insert_desc {A : Type} (x : Z * A) (l : list (Z * A)) : list (Z * A) :=
  match l with
  | [] => [x]
  | y :: l' =>
      if (fst x <? fst y)%Z then y :: insert_desc x l' else x :: y :: l'
  end.

Definition sort_desc {A : Type} (l : list (Z * A)) : list (Z * A) :=
  foldr insert_desc [] l.

(** [l.sort(key=key, reverse=True)] where [key] may raise: the keys are
    computed first, for every element. *)
Definition sort_by_key_desc {A : Type} (key : A -> result Z) (l : list A) : result (list A) :=
  do keyed <- map_result (fun x => do k <- key x; Ok (k, x)) l;
  Ok (map snd (sort_desc keyed)).

Definition year_key (x : gmap str str) : result Z := py_int (get x "year" (lit "0")).

(** [parse_bibtex], from the text of the file. *)
Definition parse_bibtex (content : str) : result (list (gmap str str)) :=
  let entries := findall_entries content 0 in
  let publications := map parse_entry entries in
  sort_by_key_desc year_key publications.

(* ===================================================================== *)
(** ** Formatting: authors, date, title, slug *)
(* ===================================================================== *)

Definition format_authors (authors_str : str) : str :=
  match authors_str with
  | [] => []
  | _ =>
      let authors := map strip (str_split (lit " and ") authors_str) in
      if length authors =? 1 then nth 0 authors []
      else if length authors =? 2
           then nth 0 authors [] ++ lit " and " ++ nth 1 authors []
           else str_join (lit ", ") (all_but_last authors)
                ++ lit ", and " ++ last_str authors
  end.

(** The dictionary [months] of [get_date_for_filename]. *)
Definition months : gmap str str :=
  list_to_map
    [ (lit "jan", lit "01"); (lit "january", lit "01");
      (lit "feb", lit "02"); (lit "february", lit "02");
      (lit "mar", lit "03"); (lit "march", lit "03");
      (lit "apr", lit "04"); (lit "april", lit "04");
      (lit "may", lit "05");
      (lit "jun", lit "06"); (lit "june", lit "06");
      (lit "jul", lit "07"); (lit "july", lit "07");
      (lit "aug", lit "08"); (lit "august", lit "08");
      (lit "sep", lit "09"); (lit "september", lit "09");
      (lit "oct", lit "10"); (lit "october", lit "10");
      (lit "nov", lit "11"); (lit "november", lit "11");
      (lit "dec", lit "12"); (lit "december", lit "12") ].

Definition get_date_for_filename (pub : gmap str str) : str :=
  let year := get pub "year" (lit "2020") in
  let month := get pub "month" (lit "01") in
  let month :=
    match months !! lower month with
    | Some m => m
    | None => if negb (isdigit month) then lit "01" else month
    end in
  year ++ lit "-" ++ pad2 month.

Definition get_publication_title (pub : gmap str str) : str :=
  let title := get pub "title" (lit "Untitled") in
  let title := clean_latex title in
  strip title.

(** The characters that [re.sub(r'[^a-z0-9\s]', '', title)] keeps. *)
Definition slug_char (c : ascii) : bool :=
  let n := nat_of_ascii c in
  in_range 97 122 n || in_range 48 57 n || is_space c.

Definition generate_publication_slug (pub : gmap str str) : str :=
  let title := lower (get pub "title" (lit "untitled")) in
  let slug := List.filter slug_char title in
  str_join (lit "-") (take 5 (split_ws slug)).

(* ===================================================================== *)
(** ** [generate_html] *)
(* ===================================================================== *)

(** The detail page is one format string: fixed text around the values
    below.  A page is represented by the values that are substituted into
    it, under the names they have in [generate_html]. *)
Record page : Type := {
  page_title : str;
  page_year : str;
  page_date_str : str;
  page_pub_key : str;
  page_authors : str;
  page_journal : str;
  page_volume_html : str;
  page_pages_html : str;
  page_doi_html : str;
  page_citation : str;
  page_links_footer : str
}.

(** Python's truth value of a string. *)
Definition nonempty (s : str) : bool :=
  match s with
  | [] => false
  | _ => true
  end.

Definition generate_html (pub : gmap str str) : page * str * str :=
  let title := get_publication_title pub in
  let date_str := get_date_for_filename pub in
  let slug := generate_publication_slug pub in
  let pub_key := slug in
  let authors := format_authors (get pub "author" (lit "Unknown Author")) in
  let year := get pub "year" (lit "n.d.") in
  let journal := get pub "journal" (get pub "booktitle" (lit "Unknown")) in
  let url := get pub "url" [] in
  let doi := get pub "doi" [] in
  let pages := get pub "pages" [] in
  let volume := get pub "volume" [] in
  let number := get pub "number" [] in
  let citation_parts :=
    [authors; lit "(" ++ year ++ lit ")."]
    ++ [[dq] ++ title ++ lit "." ++ [dq]]
    ++ (if nonempty journal then [lit "<i>" ++ journal ++ lit "</i>,"] else [])
    ++ (if nonempty volume then [volume] else [])
    ++ (if nonempty number then [lit "(" ++ number ++ lit ")"] else [])
    ++ (if nonempty pages then [lit "pp. " ++ pages] else []) in
  let citation := str_join (lit " ") citation_parts in
  let links :=
    (if nonempty url
     then [lit "<a href=" ++ [dq] ++ url ++ [dq] ++ lit ">View Publication</a>"]
     else [])
    ++ (if nonempty doi
        then [lit "<a href=" ++ [dq] ++ lit "https://doi.org/" ++ doi ++ [dq]
              ++ lit ">DOI</a>"]
        else []) in
  let links_html :=
    match links with
    | [] => []
    | _ => str_join (lit " | ") links
    end in
  let volume_html :=
    if nonempty volume
    then lit "<li><strong>Volume:</strong> " ++ volume ++ lit "</li>" else [] in
  let pages_html :=
    if nonempty pages
    then lit "<li><strong>Pages:</strong> " ++ pages ++ lit "</li>" else [] in
  let doi_html :=
    if nonempty doi
    then lit "<li><strong>DOI:</strong> <a href=" ++ [dq] ++ lit "https://doi.org/"
         ++ doi ++ [dq] ++ lit ">" ++ doi ++ lit "</a></li>"
    else [] in
  let links_footer :=
    if nonempty links_html then lit "<br/>" ++ links_html else [] in
  let html :=
    {| page_title := title; page_year := year; page_date_str := date_str;
       page_pub_key := pub_key; page_authors := authors;
       page_journal := journal; page_volume_html := volume_html;
       page_pages_html := pages_html; page_doi_html := doi_html;
       page_citation := citation; page_links_footer := links_footer |} in
  (html, date_str, pub_key).

(* ===================================================================== *)
(** ** [generate_publications_index] *)
(* ===================================================================== *)

(** The dictionaries that [main] appends to [pub_links]: always the same
    six keys. *)
Record link : Type := {
  link_filename : str;
  link_title : str;
  link_journal : str;
  link_year : str;
  link_type : str;
  link_authors : str
}.

#[global] Instance link_eq_dec : EqDecision link.
Proof. solve_decision. Defined.

(** [p['type'] in [...]]. *)
Definition type_in (types : list string) (p : link) : bool :=
  existsb (fun t => str_eqb (link_type p) (lit t)) types.

Definition archive_marker : str :=
  lit "<div class=" ++ quoted "archive" ++ lit ">".

Definition footer_marker : str :=
  lit "  </div>" ++ [nl] ++ lit "</div>" ++ [nl; nl; nl]
  ++ lit "    <div class=" ++ quoted "page__footer" ++ lit ">".

Definition build_pub_entry (pub : link) : str :=
  let filename := link_filename pub in
  let title := link_title pub in
  let journal := link_journal pub in
  let year := link_year pub in
  let link_path := take (length filename - 5) filename in
  let link := lit "/albertocarraro/publication/" ++ link_path in
  [nl]
  ++ lit "<div class=" ++ quoted "list__item" ++ lit ">" ++ [nl]
  ++ lit "  <article class=" ++ quoted "archive__item" ++ lit " itemscope itemtype="
  ++ quoted "http://schema.org/CreativeWork" ++ lit ">" ++ [nl]
  ++ lit "    <h2 class=" ++ quoted "archive__item-title" ++ lit " itemprop="
  ++ quoted "headline" ++ lit ">" ++ [nl]
  ++ lit "      <a href=" ++ [dq] ++ link ++ [dq] ++ lit " rel=" ++ quoted "permalink"
  ++ lit ">" ++ title ++ lit "</a>" ++ [nl]
  ++ lit "    </h2>" ++ [nl]
  ++ lit "    " ++ [nl]
  ++ lit "    <p>Published in <i>" ++ journal ++ lit "</i>, " ++ year ++ lit "</p>" ++ [nl]
  ++ lit "    " ++ [nl]
  ++ lit "    <p class=" ++ quoted "archive__item-excerpt" ++ lit " itemprop="
  ++ quoted "description" ++ lit ">" ++ link_authors pub ++ lit "</p>" ++ [nl]
  ++ lit "  </article>" ++ [nl]
  ++ lit "</div>" ++ [nl].

(** The lists computed under [# Group by type], in that order. *)
Record groups : Type := {
  articles : list link;
  books : list link;
  inproceedings : list link;
  incollections : list link;
  others : list link;
  thesis : list link;
  misc : list link
}.

Definition group_by_type (pub_links : list link) : groups :=
  {| articles := List.filter (type_in ["article"]) pub_links;
     books := List.filter (type_in ["book"]) pub_links;
     inproceedings := List.filter (type_in ["inproceedings"; "conference"]) pub_links;
     incollections := List.filter (type_in ["incollection"]) pub_links;
     others :=
       List.filter
         (fun p => negb (type_in ["article"; "book"; "inproceedings"; "conference";
                                  "incollection"; "phdthesis"; "misc"] p))
         pub_links;
     thesis := List.filter (type_in ["phdthesis"]) pub_links;
     misc := List.filter (type_in ["misc"]) pub_links |}.

(** The headings and lists that the [if] blocks under
    [# Build content sections] go through, in that order. *)
Definition rendered_groups (g : groups) : list (string * list link) :=
  [ ("Journal Articles", articles g);
    ("Book Chapters", incollections g);
    ("Conference Papers", inproceedings g);
    ("Theses", thesis g);
    ("Other Publications", misc g ++ others g) ].

(** One [if pubs: content += heading; for pub in pubs: content += ...]. *)
Definition render_group (gr : string * list link) : str :=
  let '(heading, pubs) := gr in
  match pubs with
  | [] => []
  | _ =>
      ([nl] ++ lit "    <h2>" ++ lit heading ++ lit "</h2><hr />" ++ [nl])
      ++ concat (map build_pub_entry pubs)
  end.

Definition content_head : str :=
  archive_marker ++ [nl] ++ lit "    <h1 class=" ++ quoted "page__title"
  ++ lit ">Publications</h1>" ++ [nl]
  ++ lit "  <div class=" ++ quoted "wordwrap"
  ++ lit ">You can also find my articles on <a href="
  ++ quoted "https://scholar.google.com/citations?user=PS_CX0AAAAAJ"
  ++ lit ">my Google Scholar profile</a>.</div>" ++ [nl; nl].

Definition content_tail : str :=
  [nl] ++ lit "  </div>" ++ [nl] ++ lit "</div>" ++ [nl].

Definition index_content (sorted_links : list link) : str :=
  content_head
  ++ concat (map render_group (rendered_groups (group_by_type sorted_links)))
  ++ content_tail.

Definition index_header (original : str) : str :=
  match str_find archive_marker original with
  | Some header_end => take header_end original
  | None => original
  end.

Definition index_footer (original : str) : str :=
  match str_find footer_marker original with
  | Some footer_start => drop footer_start original
  | None => []
  end.

(** [generate_publications_index]: [original] is the text read from
    [output_file], the result is the text written back to it. *)
Definition generate_publications_index (original : str) (pub_links : list link)
    : result str :=
  do pub_links <- sort_by_key_desc (fun x => py_int (link_year x)) pub_links;
  let header := index_header original in
  let footer := index_footer original in
  let content := index_content pub_links in
  let new_html := header ++ content ++ footer in
  Ok new_html.

(* ===================================================================== *)
(** ** [main] *)
(* ===================================================================== *)

(** The dictionary appended to [pub_links] for one publication. *)
Definition make_link (pub : gmap str str) : link :=
  let '(html, date_str, slug) := generate_html pub in
  let filename := date_str ++ lit "-" ++ slug ++ lit ".html" in
  {| link_filename := filename;
     link_title := get_publication_title pub;
     link_journal := get pub "journal" (get pub "booktitle" (lit "Unknown"));
     link_year := get pub "year" (lit "n.d.");
     link_type := get pub "type" (lit "article");
     link_authors := format_authors (get pub "author" (lit "Unknown Author")) |}.

(** The file written for one publication: its name and its page. *)
Definition detail_file (pub : gmap str str) : str * page :=
  let '(html, date_str, slug) := generate_html pub in
  (date_str ++ lit "-" ++ slug ++ lit ".html", html).

(** [main] on the text of the bibliography and the text of the index
    file: the detail files and the new text of the index file. *)
Definition main (bib index : str) : result (list (str * page) * str) :=
  do publications <- parse_bibtex bib;
  let files := map detail_file publications in
  let pub_links := map make_link publications in
  do new_index <- generate_publications_index index pub_links;
  Ok (files, new_index).

(* ===================================================================== *)
(** ** Vocabulary of the properties *)
(* ===================================================================== *)

(** Decreasing order of keyed elements. *)
Definition desc {A : Type} (x y : Z * A) : Prop := (fst y <= fst x)%Z.

(** The key of an element, zero when it cannot be computed. *)
Definition key_or_0 {A : Type} (key : A -> result Z) (a : A) : Z :=
  match key a with
  | Ok k => k
  | Raise _ => 0%Z
  end.

(** The year a record is sorted by, when its conversion succeeds. *)
Definition year_of (e : gmap str str) : Z := key_or_0 year_key e.

(** The records of a bibliography in the order of the file, before they
    are sorted. *)
Definition parsed_entries (content : str) : list (gmap str str) :=
  map parse_entry (findall_entries content 0).

Definition same_year (y : Z) (e : gmap str str) : bool := (year_of e =? y)%Z.

(** Braces that match: no closing brace without an opening one before it,
    and none left open. *)
Fixpoint balanced_go (s : str) (depth : nat) : bool :=
  match s with
  | [] => depth =? 0
  | c :: s' =>
      if ascii_eqb c lbrace then balanced_go s' (S depth)
      else if ascii_eqb c rbrace then
             match depth with
             | 0 => false
             | S d => balanced_go s' d
             end
           else balanced_go s' depth
  end.

Definition balanced (s : str) : bool := balanced_go s 0.

Definition has_brace (s : str) : bool :=
  contains_char lbrace s || contains_char rbrace s.

(** The two-digit months. *)
Definition month_numbers : list str :=
  map lit ["01"; "02"; "03"; "04"; "05"; "06"; "07"; "08"; "09"; "10"; "11"; "12"].

(** An author name that the separator of [format_authors] cannot be
    found in: the name does not contain [" and "] and does not end with
    [" and"]. *)
Definition plain_name (name : str) : Prop :=
  str_find (lit " and ") (name ++ lit " ") = None.

(** The scan position after one iteration of the field loop, [None] when
    the iteration leaves the loop. *)
Definition next_pos (fields : str) (current_pos : nat) : option nat :=
  match scan_step fields current_pos with
  | Stop => None
  | Store _ _ value_end => Some value_end
  | Skip => Some (current_pos + 1)
  end.

(** The assignments [entry[field_name] = field_value] that the field loop
    performs, in order. *)
Fixpoint scan_trace (fuel : nat) (fields : str) (current_pos : nat) : list (str * str) :=
  match fuel with
  | 0 => []
  | S fuel' =>
      if current_pos <? length fields then
        match scan_step fields current_pos with
        | Stop => []
        | Store field_name field_value value_end =>
            (field_name, field_value) :: scan_trace fuel' fields value_end
        | Skip => scan_trace fuel' fields (current_pos + 1)
        end
      else []
  end.

Definition field_assignments (fields : str) : list (str * str) :=
  scan_trace (length fields) fields 0.

(** The value of the last assignment to [name], if there is one. *)
Fixpoint last_assigned (name : str) (l : list (str * str)) : option str :=
  match l with
  | [] => None
  | (n, v) :: l' =>
      match last_assigned name l' with
      | Some v' => Some v'
      | None => if str_eqb n name then Some v else None
      end
  end.

(** The heading under which the index shows a link, if it shows it. *)
Definition heading_of (pub_links : list link) (p : link) : list string :=
  map fst
    (List.filter (fun gr => existsb (fun q => bool_decide (q = p)) (snd gr))
       (rendered_groups (group_by_type pub_links))).

(** The index file has the archive marker, and its footer marker, if it
    has one, is not before it. *)
Definition markers_in_order (original : str) : Prop :=
  match str_find archive_marker original, str_find footer_marker original with
  | Some header_end, Some footer_start => header_end <= footer_start
  | Some _, None => True
  | None, _ => False
  end.

(** The footer marker of the index file, if it has one, is not before
    its archive marker: a file with a footer marker has an archive marker
    that starts at or before it. *)
Definition footer_not_before_archive (original : str) : Prop :=
  match str_find footer_marker original with
  | None => True
  | Some footer_start =>
      match str_find archive_marker original with
      | Some header_end => header_end <= footer_start
      | None => False
      end
  end.

(** The content region has no footer marker of its own: in the content
    followed by a footer marker, the first marker is the one that
    follows. *)
Definition content_without_footer_marker (content : str) : Prop :=
  str_find footer_marker (content ++ footer_marker) = Some (length content).

(** The space character. *)
Definition space : ascii := ascii_of_nat 32.

(** No two white-space characters next to each other. *)
Fixpoint no_space_run (s : str) : bool :=
  match s with
  | a :: ((b :: _) as s') => negb (is_space a && is_space b) && no_space_run s'
  | _ => true
  end.

(** White space is single spaces between other characters. *)
Definition single_spaced (s : str) : Prop :=
  (forall c, c ∈ s -> is_space c = true -> c = space)
  /\ no_space_run s = true
  /\ (forall c, head s = Some c -> is_space c = false)
  /\ (forall c, last s = Some c -> is_space c = false).

(** A text without a newline. *)
Definition no_newline (s : str) : Prop := nl ∉ s.

(** A link whose texts shown in the index have no newline. *)
Definition link_no_newline (p : link) : Prop :=
  no_newline (link_filename p) /\ no_newline (link_title p)
  /\ no_newline (link_journal p) /\ no_newline (link_year p)
  /\ no_newline (link_authors p).

(** The text made of lines, each followed by a newline. *)
Definition lines_text (ls : list str) : str :=
  concat (map (fun l => l ++ [nl]) ls).

(** The lines of the entry of a link, after the empty line it starts
    with. *)
Definition entry_lines (pub : link) : list str :=
  [ lit "<div class=" ++ quoted "list__item" ++ lit ">";
    lit "  <article class=" ++ quoted "archive__item" ++ lit " itemscope itemtype="
    ++ quoted "http://schema.org/CreativeWork" ++ lit ">";
    lit "    <h2 class=" ++ quoted "archive__item-title" ++ lit " itemprop="
    ++ quoted "headline" ++ lit ">";
    lit "      <a href=" ++ [dq]
    ++ (lit "/albertocarraro/publication/"
        ++ take (length (link_filename pub) - 5) (link_filename pub))
    ++ [dq] ++ lit " rel=" ++ quoted "permalink"
    ++ lit ">" ++ link_title pub ++ lit "</a>";
    lit "    </h2>";
    lit "    ";
    lit "    <p>Published in <i>" ++ link_journal pub ++ lit "</i>, "
    ++ link_year pub ++ lit "</p>";
    lit "    ";
    lit "    <p class=" ++ quoted "archive__item-excerpt" ++ lit " itemprop="
    ++ quoted "description" ++ lit ">" ++ link_authors pub ++ lit "</p>";
    lit "  </article>";
    lit "</div>" ].

(** The lines of a group of the index. *)
Definition group_lines (gr : string * list link) : list str :=
  match snd gr with
  | [] => []
  | pubs =>
      [] :: (lit "    <h2>" ++ lit (fst gr) ++ lit "</h2><hr />")
      :: flat_map (fun p => [] :: entry_lines p) pubs
  end.

Definition head_lines : list str :=
  [ archive_marker;
    lit "    <h1 class=" ++ quoted "page__title" ++ lit ">Publications</h1>";
    lit "  <div class=" ++ quoted "wordwrap"
    ++ lit ">You can also find my articles on <a href="
    ++ quoted "https://scholar.google.com/citations?user=PS_CX0AAAAAJ"
    ++ lit ">my Google Scholar profile</a>.</div>";
    [] ].

Definition tail_lines : list str := [ []; lit "  </div>"; lit "</div>" ].

(** The lines of the content region. *)
Definition content_lines (sorted_links : list link) : list str :=
  head_lines
  ++ flat_map group_lines (rendered_groups (group_by_type sorted_links))
  ++ tail_lines.

(** The lines of the footer marker that end with a newline, and its last
    line. *)
Definition footer_marker_lines : list str := [ lit "  </div>"; lit "</div>"; []; [] ].

Definition footer_marker_last : str :=
  lit "    <div class=" ++ quoted "page__footer" ++ lit ">".

(** A scan of lines for the line [</div>] followed by two empty lines:
    the state counts the lines of the three seen last, 3 once they have
    been seen. *)
Definition triple_step (state : nat) (line : str) : nat :=
  match state with
  | 3 => 3
  | _ =>
      if str_eqb line (lit "</div>") then 1
      else if str_eqb line [] then
             match state with
             | 1 => 2
             | 2 => 3
             | _ => 0
             end
           else 0
  end.

Definition triple_run (state : nat) (ls : list str) : nat :=
  foldl triple_step state ls.

(** Every value of a record but its citation key is without a newline. *)
Definition clean_values (e : gmap str str) : Prop :=
  forall name v, e !! name = Some v -> name <> lit "key" -> no_newline v.

(** The content region that [generate_publications_index] builds from a
    list of links. *)
Definition index_content_of (pub_links : list link) : result str :=
  do sorted <- sort_by_key_desc (fun x => py_int (link_year x)) pub_links;
  Ok (index_content sorted).

(** The heading that goes with an entry type other than [book]. *)
Definition expected_heading (entry_type : str) : string :=
  if str_eqb entry_type (lit "article") then "Journal Articles"
  else if str_eqb entry_type (lit "incollection") then "Book Chapters"
  else if str_eqb entry_type (lit "inproceedings") then "Conference Papers"
  else if str_eqb entry_type (lit "conference") then "Conference Papers"
  else if str_eqb entry_type (lit "phdthesis") then "Theses"
  else "Other Publications".

(** What is looked at in a detail file: its name, the title and the
    author line of the page. *)
Definition file_summary (f : str * page) : str * str * str :=
  (fst f, page_title (snd f), page_authors (snd f)).

Definition is_ok {A : Type} (r : result A) : bool :=
  match r with
  | Ok _ => true
  | Raise _ => false
  end.

(* ===================================================================== *)
(** ** Inputs of the examples *)
(* ===================================================================== *)

(** Three records: 1999, no year, 2005. *)
Definition bib_three : str :=
  lit "@article{a, title = {First}, year = {1999}" ++ [nl] ++ lit "}" ++ [nl]
  ++ lit "@misc{b, title = {Second}" ++ [nl] ++ lit "}" ++ [nl]
  ++ lit "@article{c, title = {Third}, year = {2005}" ++ [nl] ++ lit "}" ++ [nl].

(** A record whose year is not a number. *)
Definition bib_in_press : str :=
  lit "@article{k, title = {T}, year = {in press}" ++ [nl] ++ lit "}".

(** A record whose title has two groups, at its start and at its end. *)
Definition bib_two_groups : str :=
  lit "@article{k, title = {{A} and {B}}, year = {2020}" ++ [nl] ++ lit "}".

(** A record without a year. *)
Definition bib_no_year : str :=
  lit "@article{k, title = {T}" ++ [nl] ++ lit "}".

(** A record of type [article] with a field named [type]. *)
Definition bib_type_field : str :=
  lit "@article{k, title = {T}, type = {phdthesis}, year = {2020}" ++ [nl] ++ lit "}".

(** The record of the example of the specification, on one line. *)
Definition carraro_one_line : str :=
  lit "@article{carraro2023, title = {A Study of {GF}(2) Codes}, author = {A. Carraro and B. Smith}, year = {2023}, journal = {J. Coding}}".

(** The same record with its last closing brace on a line of its own. *)
Definition carraro_record : str :=
  lit "@article{carraro2023, title = {A Study of {GF}(2) Codes}, author = {A. Carraro and B. Smith}, year = {2023}, journal = {J. Coding}"
  ++ [nl] ++ lit "}".

Definition pub_month_13 : gmap str str :=
  <[lit "year" := lit "2023"]> (<[lit "month" := lit "13"]> ∅).

Definition book_link : link :=
  {| link_filename := lit "2001-01-a-book.html"; link_title := lit "A Book";
     link_journal := lit "Unknown"; link_year := lit "2001";
     link_type := lit "book"; link_authors := lit "X" |}.

Definition article_link : link :=
  {| link_filename := lit "2003-01-a-paper.html"; link_title := lit "A Paper";
     link_journal := lit "J"; link_year := lit "2003";
     link_type := lit "article"; link_authors := lit "Y" |}.

(** An index file with a header, an old content region and a footer. *)
Definition index_template : str :=
  lit "<html>" ++ [nl] ++ archive_marker ++ lit "old" ++ [nl]
  ++ footer_marker ++ lit "</div></html>" ++ [nl].

(** An index file that has the footer marker and no archive marker. *)
Definition index_footer_only : str :=
  lit "<html>" ++ [nl] ++ footer_marker ++ lit "</div></html>" ++ [nl].

(** An index file without any marker. *)
Definition index_no_marker : str := lit "<html>" ++ [nl] ++ lit "</html>" ++ [nl].

(** An index file whose footer marker is before its archive marker. *)
Definition index_footer_first : str :=
  lit "<html>" ++ [nl] ++ footer_marker ++ lit "</div>" ++ [nl]
  ++ archive_marker ++ lit "old" ++ [nl] ++ lit "</html>" ++ [nl].

(** A link whose title holds the footer marker. *)
Definition marker_title_link : link :=
  {| link_filename := lit "2003-01-a-paper.html";
     link_title := lit "A" ++ [nl] ++ footer_marker;
     link_journal := lit "J"; link_year := lit "2003";
     link_type := lit "article"; link_authors := lit "Y" |}.

(** A record whose field named [type] has a value that is not between
    braces or double quotes. *)
Definition bib_bare_type : str :=
  lit "@article{k, title = {T}, type = phdthesis, year = {2020}" ++ [nl] ++ lit "}".

(** Links of several years and types, not in the order of the years. *)
Definition mixed_links : list link :=
  [ book_link; article_link;
    {| link_filename := lit "1999-01-early.html"; link_title := lit "Early";
       link_journal := lit "J"; link_year := lit "1999";
       link_type := lit "article"; link_authors := lit "Y" |};
    {| link_filename := lit "2003-01-a-note.html"; link_title := lit "A Note";
       link_journal := lit "Unknown"; link_year := lit "2003";
       link_type := lit "misc"; link_authors := lit "Z" |};
    {| link_filename := lit "2010-01-a-talk.html"; link_title := lit "A Talk";
       link_journal := lit "Unknown"; link_year := lit "2010";
       link_type := lit "talk"; link_authors := lit "Z" |};
    {| link_filename := lit "2003-01-b-paper.html"; link_title := lit "B Paper";
       link_journal := lit "K"; link_year := lit " 2003 ";
       link_type := lit "article"; link_authors := lit "W" |} ].

(* ===================================================================== *)
(** ** Vocabulary of the further properties *)
(* ===================================================================== *)

(** A character that is neither white space nor a brace. *)
Definition plain_char (c : ascii) : bool := negb (is_space c) && not_brace c.

(** A lowercase letter of a to z or a digit. *)
Definition slug_alnum (c : ascii) : bool :=
  let n := nat_of_ascii c in
  in_range 97 122 n || in_range 48 57 n.

Definition hyphen : ascii := ascii_of_nat 45.

(** The two ways a value is written: between braces or between double
    quotes. *)
Inductive delimiter : Type :=
  | Braces
  | Quotes.

Definition opening (d : delimiter) : ascii :=
  match d with
  | Braces => lbrace
  | Quotes => dq
  end.

Definition closing (d : delimiter) : ascii :=
  match d with
  | Braces => rbrace
  | Quotes => dq
  end.

(** A value that its delimiters enclose: matching braces between braces,
    no double quote between double quotes. *)
Definition enclosed (d : delimiter) (value : str) : Prop :=
  match d with
  | Braces => balanced value = true
  | Quotes => dq ∉ value
  end.

(** A value between its delimiters. *)
Definition delimited (d : delimiter) (value : str) : str :=
  [opening d] ++ value ++ [closing d].

(** A field of a record body as it is written: what is before the name,
    the name, the white space around the equals sign, and the value
    between its delimiters. *)
Record field_src : Type := {
  fs_sep : str;
  fs_name : str;
  fs_before_eq : str;
  fs_after_eq : str;
  fs_delimiter : delimiter;
  fs_value : str
}.

Definition field_text (f : field_src) : str :=
  fs_sep f ++ fs_name f ++ fs_before_eq f ++ [equals_sign] ++ fs_after_eq f
  ++ delimited (fs_delimiter f) (fs_value f).

(** The field is well formed: no word character before the name, a name
    of one or more word characters, white space around the equals sign
    and a value that its delimiters enclose. *)
Definition field_ok (f : field_src) : Prop :=
  Forall (fun c => is_word c = false) (fs_sep f)
  /\ fs_name f <> [] /\ Forall (fun c => is_word c = true) (fs_name f)
  /\ Forall (fun c => is_space c = true) (fs_before_eq f)
  /\ Forall (fun c => is_space c = true) (fs_after_eq f)
  /\ enclosed (fs_delimiter f) (fs_value f).

(** What the field loop stores for a field. *)
Definition field_stored (f : field_src) : str * str :=
  (lower (fs_name f), clean_latex (strip (fs_value f))).

(** A record as it is written: the entry type, the citation key, the body
    and the closing brace on a line of its own. *)
Definition entry_text (e : str * str * str) : str :=
  let '(entry_type, key, body) := e in
  [at_sign] ++ entry_type ++ [lbrace] ++ key ++ [comma] ++ body ++ [nl; rbrace].

(** The record is well formed: an entry type of one or more word
    characters, a key of one or more characters without a comma, and a
    body of one or more characters in which the first newline followed by
    a closing brace, after the first character, is the end of the
    record. *)
Definition entry_ok (e : str * str * str) : Prop :=
  let '(entry_type, key, body) := e in
  entry_type <> [] /\ Forall (fun c => is_word c = true) entry_type
  /\ key <> [] /\ Forall (fun c => not_comma c = true) key
  /\ str_find_from [nl; rbrace] (body ++ [nl; rbrace]) 1 = Some (length body).

(** The year of every record is there and can be converted. *)
Definition years_convert (entries : list (gmap str str)) : Prop :=
  Forall (fun e => exists y n, e !! lit "year" = Some y /\ py_int y = Ok n) entries.

(** Decreasing order of the years of links. *)
Definition link_year_of (p : link) : Z := key_or_0 (fun x => py_int (link_year x)) p.

Definition by_year_desc (l : list link) : Prop :=
  StronglySorted (fun a b => (link_year_of b <= link_year_of a)%Z) l.


(** The fields of a record body as they are written, one after the
    other. *)
Definition fields_text (fs : list field_src) : str := concat (map field_text fs).

(** The assignments [entry[field_name] = field_value], performed in
    order. *)
Definition assign_all (entry : gmap str str) (l : list (str * str)) : gmap str str :=
  foldl (fun e nv => <[nv.1 := nv.2]> e) entry l.

(** A field name as the field loop stores it: the lower-case form of one
    or more word characters. *)
Definition stored_name (name : str) : Prop :=
  exists raw : str,
    raw <> [] /\ Forall (fun c => is_word c = true) raw /\ name = lower raw.

(** A bibliography as it is written: records, each after a text without
    an at sign, and a text without an at sign at the end. *)
Definition bib_text (items : list (str * (str * str * str))) (tail : str) : str :=
  concat (map (fun item => fst item ++ entry_text (snd item)) items) ++ tail.

Definition bib_ok (items : list (str * (str * str * str))) (tail : str) : Prop :=
  Forall (fun item => (at_sign ∉ fst item) /\ entry_ok (snd item)) items
  /\ (at_sign ∉ tail).

(** The line of an index entry that holds the link to the detail page. *)
Definition permalink_line (address title : str) : str :=
  lit "      <a href=" ++ [dq] ++ address ++ [dq] ++ lit " rel=" ++ quoted "permalink"
  ++ lit ">" ++ title ++ lit "</a>".

(** A value that the field loop cannot extract: nothing at all, a text
    that starts with neither a brace nor a double quote, a double quote
    that is not closed, or a brace with no closing brace after it. *)
Definition unreadable (value : str) : Prop :=
  match value with
  | [] => True
  | c :: rest =>
      if ascii_eqb c lbrace then rbrace ∉ rest
      else if ascii_eqb c dq then dq ∉ rest
           else is_space c = false
  end.

(** A field of a record body whose value is bare, as a number or the name
    of a macro is: what is before the name, the name, the white space
    around the equals sign, and a value of word characters. *)
Record bare_src : Type := {
  bs_sep : str;
  bs_name : str;
  bs_before_eq : str;
  bs_after_eq : str;
  bs_value : str
}.

(** What follows the name of a bare field. *)
Definition bare_rest (b : bare_src) : str :=
  bs_before_eq b ++ [equals_sign] ++ bs_after_eq b ++ bs_value b.

Definition bare_text (b : bare_src) : str := bs_sep b ++ bs_name b ++ bare_rest b.

Definition bare_ok (b : bare_src) : Prop :=
  Forall (fun c => is_word c = false) (bs_sep b)
  /\ bs_name b <> [] /\ Forall (fun c => is_word c = true) (bs_name b)
  /\ Forall (fun c => is_space c = true) (bs_before_eq b)
  /\ Forall (fun c => is_space c = true) (bs_after_eq b)
  /\ bs_value b <> [] /\ Forall (fun c => is_word c = true) (bs_value b).

(** The fields of a body: with a value between delimiters, or with a bare
    value. *)
Inductive item : Type :=
  | Delimited (f : field_src)
  | Bare (b : bare_src).

Definition item_text (it : item) : str :=
  match it with
  | Delimited f => field_text f
  | Bare b => bare_text b
  end.

Definition items_text (items : list item) : str := concat (map item_text items).

(** What the field loop stores for a field: nothing when the value is
    bare. *)
Definition item_stored (it : item) : list (str * str) :=
  match it with
  | Delimited f => [field_stored f]
  | Bare _ => []
  end.

(** The text after a bare value ends the value: it is empty, or starts
    with a character that is neither a word character, white space nor
    an equals sign (a comma, for instance). *)
Definition ends_bare_value (rest : str) : Prop :=
  match rest with
  | [] => True
  | c :: _ => is_word c = false /\ is_space c = false /\ c <> equals_sign
  end.

(** A body made of well-formed fields, followed by a text without a word
    character. *)
Fixpoint items_ok (items : list item) (tail : str) : Prop :=
  match items with
  | [] => Forall (fun c => is_word c = false) tail
  | Delimited f :: items' => field_ok f /\ items_ok items' tail
  | Bare b :: items' =>
      bare_ok b /\ ends_bare_value (items_text items' ++ tail) /\ items_ok items' tail
  end.

(** The field is stored under [name]: it has a value between delimiters
    and its name in lower case is [name]. *)
Definition stored_under (name : str) (it : item) : Prop :=
  match it with
  | Delimited f => lower (fs_name f) = name
  | Bare _ => False
  end.

(** No match of the assignment pattern starts in [j] when [rest]
    follows. *)
Definition passes (j rest : str) : Prop :=
  forall k, k < length j -> match_assign (drop k j ++ rest) = None.

(* ===================================================================== *)
(** * Properties *)
(* ===================================================================== *)

(** ** Sorting *)

Section Sorting.
Context {A : Type}.
Implicit Types (x : Z * A) (l : list (Z * A)).

Lemma insert_desc_perm x l : Permutation (insert_desc x l) (x :: l).
Proof.
  induction l as [|y l IH]; simpl; [reflexivity|].
  destruct (fst x <? fst y)%Z; [|reflexivity].
  rewrite IH. apply perm_swap.
Qed.

Lemma insert_desc_Forall (P : Z * A -> Prop) x l :
  P x -> Forall P l -> Forall P (insert_desc x l).
Proof.
  intros Hx Hl. induction Hl as [|y l Hy Hl IH]; simpl.
  - by constructor.
  - destruct (fst x <? fst y)%Z; repeat constructor; auto.
Qed.

Lemma insert_desc_sorted x l :
  StronglySorted desc l -> StronglySorted desc (insert_desc x l).
Proof.
  induction 1 as [|y l Hl IH Hy]; simpl.
  - repeat constructor.
  - destruct (Z.ltb_spec (fst x) (fst y)) as [Hlt|Hge].
    + constructor; [exact IH|].
      apply insert_desc_Forall; [unfold desc; lia | exact Hy].
    + constructor; [by constructor|].
      constructor; [exact Hge|].
      eapply Forall_impl; [exact Hy|].
      intros z Hz. unfold desc in *. lia.
Qed.

Lemma sort_desc_sorted l : StronglySorted desc (sort_desc l).
Proof.
  induction l as [|x l IH]; simpl; [constructor|].
  by apply insert_desc_sorted.
Qed.

Lemma sort_desc_perm l : Permutation (sort_desc l) l.
Proof.
  induction l as [|x l IH]; simpl; [reflexivity|].
  rewrite insert_desc_perm. by constructor.
Qed.

(** Stability: the elements with a given key are in the order they had. *)
Lemma insert_desc_filter (k : Z) x l :
  List.filter (fun y => (fst y =? k)%Z) (insert_desc x l)
  = List.filter (fun y => (fst y =? k)%Z) (x :: l).
Proof.
  induction l as [|y l IH]; [reflexivity|].
  cbn [insert_desc].
  destruct (Z.ltb_spec (fst x) (fst y)) as [Hlt|Hge]; [|reflexivity].
  cbn [List.filter] in *. rewrite IH.
  destruct (Z.eqb_spec (fst x) k), (Z.eqb_spec (fst y) k); try reflexivity.
  lia.
Qed.

Lemma sort_desc_filter (k : Z) l :
  List.filter (fun y => (fst y =? k)%Z) (sort_desc l)
  = List.filter (fun y => (fst y =? k)%Z) l.
Proof.
  induction l as [|x l IH]; [reflexivity|].
  cbn [sort_desc foldr]. fold (sort_desc l).
  rewrite insert_desc_filter. cbn [List.filter]. by rewrite IH.
Qed.

Variable key : A -> result Z.

Lemma map_result_keys (items : list A) :
  Forall (fun a => exists k, key a = Ok k) items ->
  map_result (fun a => do k <- key a; Ok (k, a)) items
  = Ok (map (fun a => (key_or_0 key a, a)) items).
Proof.
  induction 1 as [|a items [k Hk] _ IH]; [reflexivity|].
  cbn [map_result map]. rewrite IH, Hk. cbn [bind].
  unfold key_or_0. by rewrite Hk.
Qed.

Lemma map_result_raise (items : list A) (a : A) (e : exn) :
  In a items -> key a = Raise e ->
  exists e', map_result (fun a => do k <- key a; Ok (k, a)) items = Raise e'.
Proof.
  intros Hin Ha. induction items as [|b items IH]; [destruct Hin|].
  cbn [map_result]. destruct (key b) as [k|e'] eqn:Hb; cbn [bind].
  - destruct Hin as [->|Hin]; [congruence|].
    destruct (IH Hin) as [e' ->]. by exists e'.
  - by exists e'.
Qed.

Lemma filter_map_snd (f : A -> bool) l :
  List.filter f (map snd l) = map snd (List.filter (fun y => f (snd y)) l).
Proof.
  induction l as [|y l IH]; [reflexivity|].
  cbn [map List.filter]. destruct (f (snd y)); cbn [map]; by rewrite IH.
Qed.

(** When every key can be computed, the sort returns the elements in
    decreasing order of their keys, the ones with equal keys in the
    order they had. *)
Lemma sort_by_key_desc_ok (items : list A) :
  Forall (fun a => exists k, key a = Ok k) items ->
  exists sorted,
    sort_by_key_desc key items = Ok sorted
    /\ StronglySorted (fun a b => (key_or_0 key b <= key_or_0 key a)%Z) sorted
    /\ Permutation sorted items
    /\ forall k, List.filter (fun a => (key_or_0 key a =? k)%Z) sorted
                 = List.filter (fun a => (key_or_0 key a =? k)%Z) items.
Proof.
  intros Hkeys. unfold sort_by_key_desc.
  rewrite (map_result_keys _ Hkeys). cbn [bind].
  set (keyed := map (fun a => (key_or_0 key a, a)) items).
  assert (Hfst : Forall (fun y => fst y = key_or_0 key (snd y)) (sort_desc keyed)).
  { eapply Permutation_Forall; [symmetry; apply sort_desc_perm|].
    subst keyed. apply Forall_map. by apply Forall_true. }
  exists (map snd (sort_desc keyed)). split; [reflexivity|]. split; [|split].
  - pose proof (sort_desc_sorted keyed) as Hs.
    induction Hs as [|y l Hl IH Hy]; [constructor|].
    inversion Hfst as [|?? Hy1 Hfl]; subst.
    cbn [map]. constructor; [by apply IH|].
    apply Forall_map. rewrite Forall_forall in Hy, Hfl |- *.
    intros z Hz. specialize (Hy z Hz). specialize (Hfl z Hz).
    unfold desc in Hy. cbn. lia.
  - rewrite (sort_desc_perm keyed). subst keyed.
    rewrite map_map. cbn. by rewrite map_id.
  - intros k. rewrite filter_map_snd.
    transitivity (map snd (List.filter (fun y => (fst y =? k)%Z) (sort_desc keyed))).
    + f_equal. clear -Hfst. induction Hfst as [|y l Hy _ IH]; [reflexivity|].
      cbn [List.filter]. rewrite Hy, IH. reflexivity.
    + rewrite sort_desc_filter. subst keyed. clear.
      induction items as [|a items IH]; [reflexivity|].
      cbn [map List.filter fst]. destruct (key_or_0 key a =? k)%Z; cbn [map snd]; by rewrite IH.
Qed.

Lemma sort_by_key_desc_raise (items : list A) (a : A) (e : exn) :
  In a items -> key a = Raise e ->
  exists e', sort_by_key_desc key items = Raise e'.
Proof.
  intros Hin Ha. unfold sort_by_key_desc.
  destruct (map_result_raise items a e Hin Ha) as [e' ->]. by exists e'.
Qed.
End Sorting.

(** ** C1: the order of the records *)

Lemma year_key_missing (e : gmap str str) :
  e !! lit "year" = None -> year_key e = Ok 0%Z.
Proof. intros H. unfold year_key, get. rewrite H. reflexivity. Qed.

Lemma Forall_is_ok {A B : Type} (f : A -> result B) (l : list A) :
  forallb (fun a => is_ok (f a)) l = true ->
  Forall (fun a => exists b, f a = Ok b) l.
Proof.
  induction l as [|a l IH]; cbn [forallb]; intros H; constructor.
  - apply andb_prop in H as [H _]. destruct (f a) as [b|]; [by exists b | discriminate].
  - apply IH. by apply andb_prop in H as [_ H].
Qed.

(** A record whose year cannot be converted makes [parse_bibtex] raise. *)
Lemma parse_bibtex_raises (content : str) (e : gmap str str) (x : exn) :
  In e (parsed_entries content) -> year_key e = Raise x ->
  parse_bibtex content = Raise ValueError.
Proof.
  intros Hin He. unfold parse_bibtex.
  destruct (sort_by_key_desc_raise year_key _ e x Hin He) as [[] H]. exact H.
Qed.

(** C1 (amended): when the year of every record, where it has one, is
    text that [int()] converts, [parse_bibtex] returns the records by
    decreasing year, a record without a year counting as year 0, and
    records of the same year in the order of the file. *)
Theorem parse_bibtex_sorted_by_year (content : str) :
  Forall (fun e => exists y, year_key e = Ok y) (parsed_entries content) ->
  exists publications,
    parse_bibtex content = Ok publications
    /\ StronglySorted (fun a b => (year_of b <= year_of a)%Z) publications
    /\ Permutation publications (parsed_entries content)
    /\ (forall y, List.filter (same_year y) publications
                  = List.filter (same_year y) (parsed_entries content))
    /\ (forall e, e !! lit "year" = None -> year_of e = 0%Z).
Proof.
  intros Hyears.
  destruct (sort_by_key_desc_ok year_key _ Hyears) as (pubs & Hp & Hs & Hperm & Hst).
  exists pubs. repeat split; try assumption.
  intros e He. unfold year_of, key_or_0. by rewrite (year_key_missing e He).
Qed.

Lemma parse_bibtex_sorted_by_year_witness :
  exists publications,
    parse_bibtex bib_three = Ok publications
    /\ StronglySorted (fun a b => (year_of b <= year_of a)%Z) publications
    /\ Permutation publications (parsed_entries bib_three)
    /\ (forall y, List.filter (same_year y) publications
                  = List.filter (same_year y) (parsed_entries bib_three))
    /\ (forall e, e !! lit "year" = None -> year_of e = 0%Z).
Proof.
  apply (parse_bibtex_sorted_by_year bib_three).
  apply Forall_is_ok. vm_compute. reflexivity.
Defined.

(** The order on the three records: 2005, 1999, and the one without a
    year last. *)
Example parse_bibtex_three :
  match parse_bibtex bib_three with
  | Ok publications => map (fun e => get e "title" []) publications
  | Raise _ => []
  end = [lit "Third"; lit "First"; lit "Second"].
Proof. vm_compute. reflexivity. Qed.

(** C1, as stated, fails: a year that is not a number makes the
    extractor raise. *)
Lemma parse_bibtex_text_year_raises :
  map (fun e => get e "year" []) (parsed_entries bib_in_press) = [lit "in press"]
  /\ parse_bibtex bib_in_press = Raise ValueError.
Proof. split; vm_compute; reflexivity. Qed.

(** ** C2: braces left by [clean_latex] *)

(** C2: on the balanced text [{a}{b}] the cleaner returns [a}{b]; a title
    written [{{A} and {B}}] is stored as [A} and {B]. *)
Theorem clean_latex_leaves_braces :
  balanced (lit "{a}{b}") = true
  /\ clean_latex (lit "{a}{b}") = lit "a}{b"
  /\ has_brace (clean_latex (lit "{a}{b}")) = true
  /\ map (fun e => get e "title" []) (parsed_entries bib_two_groups)
     = [lit "A} and {B"].
Proof. repeat split; vm_compute; reflexivity. Qed.

(** An empty group is left as it is. *)
Example clean_latex_empty_group :
  balanced (lit "a{}b") = true /\ clean_latex (lit "a{}b") = lit "a{}b".
Proof. split; vm_compute; reflexivity. Qed.

(** Nested groups that do not meet at the ends are removed. *)
Example clean_latex_nested :
  clean_latex (lit "A  Study of {{GF}(2)} Codes ") = lit "A Study of GF(2) Codes".
Proof. vm_compute. reflexivity. Qed.

(** ** C3: the groups of the index *)

Lemma existsb_filter_eq (f : link -> bool) (p : link) (l : list link) :
  existsb (fun q => bool_decide (q = p)) (List.filter f l)
  = f p && existsb (fun q => bool_decide (q = p)) l.
Proof.
  induction l as [|q l IH]; cbn [List.filter existsb].
  - by rewrite andb_false_r.
  - destruct (f q) eqn:Hq; cbn [existsb]; rewrite IH.
    + case_bool_decide as Heq; cbn [orb]; [subst; by rewrite Hq | reflexivity].
    + case_bool_decide as Heq; cbn [orb]; [subst; by rewrite Hq | reflexivity].
Qed.

Lemma existsb_In_link (p : link) (l : list link) :
  In p l -> existsb (fun q => bool_decide (q = p)) l = true.
Proof.
  intros H. apply existsb_exists. exists p. split; [exact H|].
  by apply bool_decide_eq_true.
Qed.

Lemma heading_of_unfold (pub_links : list link) (p : link) :
  In p pub_links ->
  heading_of pub_links p
  = (if type_in ["article"] p then ["Journal Articles"%string] else [])
    ++ (if type_in ["incollection"] p then ["Book Chapters"%string] else [])
    ++ (if type_in ["inproceedings"; "conference"] p
        then ["Conference Papers"%string] else [])
    ++ (if type_in ["phdthesis"] p then ["Theses"%string] else [])
    ++ (if type_in ["misc"] p
           || negb (type_in ["article"; "book"; "inproceedings"; "conference";
                             "incollection"; "phdthesis"; "misc"] p)
        then ["Other Publications"%string] else []).
Proof.
  intros Hin. pose proof (existsb_In_link p pub_links Hin) as Hp.
  unfold heading_of, rendered_groups, group_by_type.
  cbn [List.filter snd fst articles incollections inproceedings thesis misc others].
  rewrite existsb_app, !existsb_filter_eq, !Hp, !andb_true_r.
  repeat match goal with
         | |- context [if ?b then _ else _] => destruct b
         end; reflexivity.
Qed.

(** An entry of type [book] is under no heading. *)
Lemma book_not_rendered (pub_links : list link) (p : link) :
  In p pub_links -> link_type p = lit "book" -> heading_of pub_links p = [].
Proof.
  intros Hin Hty. rewrite (heading_of_unfold _ _ Hin).
  unfold type_in. rewrite Hty. vm_compute. reflexivity.
Qed.

(** An entry of any other type is under exactly one heading, the one of
    its type. *)
Lemma other_types_rendered_once (pub_links : list link) (p : link) :
  In p pub_links -> link_type p <> lit "book" ->
  heading_of pub_links p = [expected_heading (link_type p)].
Proof.
  intros Hin Hty. rewrite (heading_of_unfold _ _ Hin).
  unfold type_in, expected_heading, str_eqb. cbn [existsb].
  rewrite (bool_decide_eq_false_2 _ Hty).
  repeat case_bool_decide; try reflexivity;
    repeat match goal with
           | H : link_type p = _ |- _ => rewrite H in *; clear H
           end; discriminate.
Qed.

(** C3: an entry of type [book] is in none of the lists that the index
    shows, and the index of a list that holds only such an entry is the
    index of the empty list. *)
Theorem book_entry_dropped :
  heading_of [book_link] book_link = []
  /\ generate_publications_index index_template [book_link]
     = generate_publications_index index_template []
  /\ heading_of [book_link; article_link] article_link = ["Journal Articles"%string].
Proof. repeat split; vm_compute; reflexivity. Qed.

(** ** C4: records with missing fields *)

(** X21: the placeholders of the detail page: a record without a title,
    an author, a year, or a journal and a book title is shown with
    [Untitled], [Unknown Author], [n.d.] and [Unknown]. *)
Lemma generate_html_placeholders (pub : gmap str str) :
  (pub !! lit "title" = None -> page_title (generate_html pub).1.1 = lit "Untitled")
  /\ (pub !! lit "author" = None ->
      page_authors (generate_html pub).1.1 = lit "Unknown Author")
  /\ (pub !! lit "year" = None -> page_year (generate_html pub).1.1 = lit "n.d.")
  /\ (pub !! lit "journal" = None -> pub !! lit "booktitle" = None ->
      page_journal (generate_html pub).1.1 = lit "Unknown").
Proof.
  unfold generate_html. cbn [fst page_title page_authors page_year page_journal].
  repeat split.
  - intros H. unfold get_publication_title, get. rewrite H. vm_compute. reflexivity.
  - intros H. unfold get. rewrite H. vm_compute. reflexivity.
  - intros H. unfold get. rewrite H. reflexivity.
  - intros H1 H2. unfold get. rewrite H1, H2. reflexivity.
Qed.

(** The index cannot be generated from a list that holds the link of a
    record without a year. *)
Lemma index_raises_without_year (index : str) (pub : gmap str str)
    (before after : list link) :
  pub !! lit "year" = None ->
  generate_publications_index index (before ++ make_link pub :: after)
  = Raise ValueError.
Proof.
  intros Hy. unfold generate_publications_index.
  destruct (sort_by_key_desc_raise (fun x => py_int (link_year x))
              (before ++ make_link pub :: after) (make_link pub) ValueError)
    as [[] ->]; [| |reflexivity].
  - apply in_or_app. right. by left.
  - unfold make_link. destruct (generate_html pub) as [[? ?] ?].
    cbn [link_year]. unfold get. rewrite Hy. vm_compute. reflexivity.
Qed.

(** C4: for a record without a year the detail page is generated, with
    the year [n.d.], and the generation of the index raises. *)
Theorem missing_year_breaks_index :
  (exists pub,
      parse_bibtex bib_no_year = Ok [pub]
      /\ pub !! lit "year" = None
      /\ page_year (generate_html pub).1.1 = lit "n.d."
      /\ link_year (make_link pub) = lit "n.d.")
  /\ py_int (lit "n.d.") = Raise ValueError
  /\ forall index, main bib_no_year index = Raise ValueError.
Proof.
  split; [|split].
  - eexists. split; [vm_compute; reflexivity|].
    repeat split; vm_compute; reflexivity.
  - vm_compute. reflexivity.
  - intros index. vm_compute. reflexivity.
Qed.

(** ** C5: the date of the file name *)

Lemma lower_char_digit (c : ascii) : is_digit_char c = true -> lower_char c = c.
Proof. destruct c as [[] [] [] [] [] [] [] []]; vm_compute; congruence. Qed.

Lemma isdigit_lower (s : str) : isdigit s = true -> lower s = s.
Proof.
  intros H. assert (Hall : forallb is_digit_char s = true) by (by destruct s).
  clear H. induction s as [|c s IH]; [reflexivity|].
  cbn [forallb] in Hall. apply andb_prop in Hall as [Hc Hs].
  cbn [lower map]. rewrite (lower_char_digit c Hc). f_equal. by apply IH.
Qed.

Lemma months_lookup (k m : str) :
  months !! k = Some m -> isdigit k = false /\ In m month_numbers.
Proof.
  intros H. apply elem_of_list_to_map_2 in H.
  repeat (apply elem_of_cons in H as [H|H];
          [injection H as -> ->; split; vm_compute; tauto|]).
  by apply elem_of_nil in H.
Qed.

Lemma pad2_two (s : str) : length s = 2 -> pad2 s = s.
Proof. intros H. unfold pad2. by rewrite H. Qed.

(** C5 (amended): the prefix is the year field as it is (or [2020]), a
    hyphen, and the month: the number of the month table for a month
    name, [01] for a month that is neither a name of the table nor all
    digits, and, for a month that is all digits, those digits, filled on
    the left with zeros to two characters, whatever number they are. *)
Theorem get_date_for_filename_form (pub : gmap str str) :
  let year := get pub "year" (lit "2020") in
  let month := get pub "month" (lit "01") in
  exists mm,
    get_date_for_filename pub = year ++ lit "-" ++ mm
    /\ (isdigit month = false -> In mm month_numbers)
    /\ (forall m, months !! lower month = Some m -> mm = m)
    /\ (months !! lower month = None -> isdigit month = false -> mm = lit "01")
    /\ (isdigit month = true -> mm = pad2 month).
Proof.
  intros year month. unfold get_date_for_filename. fold year month.
  destruct (months !! lower month) as [m|] eqn:Hm.
  - destruct (months_lookup _ _ Hm) as [Hk Hin].
    assert (Hnd : isdigit month = false).
    { destruct (isdigit month) eqn:Hd; [|reflexivity].
      rewrite (isdigit_lower _ Hd) in Hk. congruence. }
    assert (Hp : pad2 m = m).
    { apply pad2_two. vm_compute in Hin.
      repeat (destruct Hin as [<-|Hin]; [reflexivity|]). destruct Hin. }
    exists m. rewrite Hp. repeat split; try congruence; auto.
  - destruct (isdigit month) eqn:Hd; cbn [negb].
    + exists (pad2 month). repeat split; congruence.
    + exists (lit "01"). repeat split; try congruence; intros _; by left.
Qed.

(** A month name in any case, and no month. *)
Example get_date_for_filename_names :
  get_date_for_filename (<[lit "year" := lit "1999"]> (<[lit "month" := lit "SEP"]> ∅))
  = lit "1999-09"
  /\ get_date_for_filename (<[lit "month" := lit "5"]> ∅) = lit "2020-05"
  /\ get_date_for_filename ∅ = lit "2020-01".
Proof. repeat split; vm_compute; reflexivity. Qed.

(** C5, as stated, fails: the month [13] is all digits and is used as it
    is. *)
Lemma get_date_for_filename_month_13 :
  get_date_for_filename pub_month_13 = lit "2023-13"
  /\ ~ (exists mm, In mm month_numbers
                   /\ get_date_for_filename pub_month_13
                      = get pub_month_13 "year" (lit "2020") ++ lit "-" ++ mm).
Proof.
  split; [vm_compute; reflexivity|].
  intros (mm & Hin & Heq).
  assert (Hd : get_date_for_filename pub_month_13 = lit "2023-" ++ lit "13")
    by (vm_compute; reflexivity).
  assert (Hy : get pub_month_13 "year" (lit "2020") ++ lit "-" ++ mm = lit "2023-" ++ mm)
    by (vm_compute; reflexivity).
  rewrite Hd, Hy in Heq. apply app_inv_head in Heq. subst mm.
  vm_compute in Hin. repeat (destruct Hin as [Hin|Hin]; [discriminate|]). exact Hin.
Qed.

(** ** C6: the record of the example *)

(** C6 (amended): with its last closing brace on a line of its own, the
    record of the example gives one detail file, named
    [2023-01-a-study-of-gf2-codes.html], with the title
    [A Study of GF(2) Codes] and the author line
    [A. Carraro and B. Smith]. *)
Theorem carraro_record_page :
  length (parsed_entries carraro_record) = 1
  /\ match main carraro_record index_template with
     | Ok (files, _) =>
         map file_summary files
         = [(lit "2023-01-a-study-of-gf2-codes.html",
             lit "A Study of GF(2) Codes",
             lit "A. Carraro and B. Smith")]
     | Raise _ => False
     end.
Proof. split; vm_compute; reflexivity. Qed.

(** C6, as stated, fails: written on one line, the record has no newline
    before its last closing brace, and no record is found. *)
Lemma carraro_one_line_no_record :
  findall_entries carraro_one_line 0 = []
  /\ parse_bibtex carraro_one_line = Ok []
  /\ match main carraro_one_line index_template with
     | Ok (files, _) => files = []
     | Raise _ => False
     end.
Proof. repeat split; vm_compute; reflexivity. Qed.

(** ** C7: the author line *)

Lemma startswith_prefix (p s : str) :
  startswith p s = true <-> exists r, s = p ++ r.
Proof.
  revert s. induction p as [|a p IH]; intros s; cbn [startswith].
  - split; [intros _; by exists s | reflexivity].
  - destruct s as [|b s].
    + split; [discriminate | intros [r Hr]; discriminate].
    + unfold ascii_eqb. destruct (Ascii.eqb_spec a b) as [->|Hne]; cbn [andb].
      * rewrite IH. split; intros [r Hr]; exists r; [by rewrite Hr | by injection Hr].
      * split; [discriminate | intros [r Hr]; injection Hr; congruence].
Qed.

Lemma startswith_app (p s t : str) :
  startswith p s = true -> startswith p (s ++ t) = true.
Proof.
  rewrite !startswith_prefix. intros [r ->]. exists (r ++ t). by rewrite app_assoc.
Qed.

Lemma str_find_None_cons (p : str) (c : ascii) (s : str) :
  str_find p (c :: s) = None ->
  startswith p (c :: s) = false /\ str_find p s = None.
Proof.
  cbn [str_find]. destruct (startswith p (c :: s)); [discriminate|].
  destruct (str_find p s); [discriminate | done].
Qed.

Lemma plain_name_tail (c : ascii) (name : str) :
  plain_name (c :: name) -> plain_name name.
Proof. intros H. by apply str_find_None_cons in H as [_ H]. Qed.

(** Inside a plain name, and across its end into the separator that
    follows it, no separator starts. *)
Lemma plain_name_no_match (c : ascii) (name rest : str) :
  plain_name (c :: name) ->
  startswith (lit " and ") ((c :: name) ++ lit " and " ++ rest) = false.
Proof.
  intros H. apply str_find_None_cons in H as [H _].
  apply not_true_is_false. intros [r Hr]%startswith_prefix.
  apply not_true_iff_false in H. apply H. apply startswith_prefix.
  destruct name as [|c2 [|c3 [|c4 [|c5 name]]]]; cbn in Hr |- *;
    try (exfalso; congruence).
  - injection Hr as -> -> -> -> _. by exists [].
  - injection Hr as -> -> -> -> -> _. by exists (name ++ lit " ").
Qed.

Lemma split_go_separator (rest cur : str) :
  split_go (lit " and ") (lit " and " ++ rest) 0 cur
  = rev cur :: split_go (lit " and ") rest 0 [].
Proof.
  change (lit " and " ++ rest)
    with (ascii_of_nat 32 :: (lit "and " ++ rest)).
  cbn [split_go].
  assert (Hs : startswith (lit " and ") (ascii_of_nat 32 :: lit "and " ++ rest) = true).
  { apply startswith_prefix. by exists rest. }
  rewrite Hs. reflexivity.
Qed.

Lemma split_go_name (name rest cur : str) :
  plain_name name ->
  split_go (lit " and ") (name ++ lit " and " ++ rest) 0 cur
  = (rev cur ++ name) :: split_go (lit " and ") rest 0 [].
Proof.
  revert cur. induction name as [|c name IH]; intros cur Hp.
  - rewrite app_nil_r. apply split_go_separator.
  - pose proof (plain_name_no_match c name rest Hp) as Hn.
    change ((c :: name) ++ lit " and " ++ rest)
      with (c :: (name ++ lit " and " ++ rest)) in Hn |- *.
    cbn [split_go]. rewrite Hn.
    rewrite (IH (c :: cur) (plain_name_tail _ _ Hp)).
    cbn [rev]. by rewrite <- app_assoc.
Qed.

Lemma split_go_last (name cur : str) :
  plain_name name ->
  split_go (lit " and ") name 0 cur = [rev cur ++ name].
Proof.
  revert cur. induction name as [|c name IH]; intros cur Hp.
  - by rewrite app_nil_r.
  - cbn [split_go].
    assert (Hn : startswith (lit " and ") (c :: name) = false).
    { apply str_find_None_cons in Hp as [Hp _].
      destruct (startswith (lit " and ") (c :: name)) eqn:Hs; [|reflexivity].
      apply (startswith_app _ _ (lit " ")) in Hs.
      exfalso. exact (eq_true_false_abs _ Hs Hp). }
    rewrite Hn, (IH (c :: cur) (plain_name_tail _ _ Hp)).
    cbn [rev]. by rewrite <- app_assoc.
Qed.

(** Splitting the joined names gives the names back. *)
Lemma str_split_join (name : str) (names : list str) :
  Forall plain_name (name :: names) ->
  str_split (lit " and ") (str_join (lit " and ") (name :: names)) = name :: names.
Proof.
  revert name. induction names as [|name' names IH]; intros name Hall.
  - inversion Hall; subst. unfold str_split. cbn [str_join].
    by rewrite split_go_last.
  - inversion Hall; subst. unfold str_split.
    change (str_join (lit " and ") (name :: name' :: names))
      with (name ++ lit " and " ++ str_join (lit " and ") (name' :: names)).
    rewrite split_go_name by assumption.
    f_equal. by apply IH.
Qed.

Lemma str_join_nil_inv (name : str) (names : list str) :
  str_join (lit " and ") (name :: names) = [] -> name = [] /\ names = [].
Proof.
  destruct names as [|name' names]; cbn [str_join].
  - done.
  - intros H. apply app_eq_nil in H as [_ H]. discriminate.
Qed.

(** C7 (amended): for authors joined by [" and "], the word with one
    space on each side, the author line is empty for no author, the name
    for one, [A and B] for two and, for three or more, the names but the
    last separated by commas, then [", and "] and the last name; every
    name without the white space around it. *)
Theorem format_authors_joined (names : list str) :
  Forall plain_name names ->
  format_authors (str_join (lit " and ") names)
  = match map strip names with
    | [] => []
    | [a] => a
    | [a; b] => a ++ lit " and " ++ b
    | authors => str_join (lit ", ") (all_but_last authors)
                 ++ lit ", and " ++ last_str authors
    end.
Proof.
  intros Hall. destruct names as [|name names]; [reflexivity|].
  unfold format_authors.
  destruct (str_join (lit " and ") (name :: names)) as [|c joined] eqn:Hj.
  - apply str_join_nil_inv in Hj as [-> ->]. reflexivity.
  - rewrite <- Hj, (str_split_join name names Hall).
    destruct (map strip (name :: names)) as [|a [|b [|d authors]]] eqn:Hm;
      [discriminate|reflexivity..].
Qed.

Lemma format_authors_joined_witness :
  format_authors (str_join (lit " and ") [lit "W. One"; lit " X. Two "; lit "Y"; lit "Z"])
  = lit "W. One, X. Two, Y, and Z".
Proof.
  rewrite (format_authors_joined [lit "W. One"; lit " X. Two "; lit "Y"; lit "Z"]).
  - vm_compute. reflexivity.
  - repeat constructor; vm_compute; reflexivity.
Defined.

(** The four cases of the specification. *)
Example format_authors_cases :
  format_authors [] = []
  /\ format_authors (lit "X") = lit "X"
  /\ format_authors (lit "X and Y") = lit "X and Y"
  /\ format_authors (lit "W and X and Y and Z") = lit "W, X, Y, and Z".
Proof. repeat split; vm_compute; reflexivity. Qed.

(** C7, as stated, fails: white space other than one space around the
    word [and] does not separate authors. *)
Lemma format_authors_tab_separated :
  format_authors (lit "A. One" ++ [ascii_of_nat 9] ++ lit "and" ++ [ascii_of_nat 9]
                  ++ lit "B. Two")
  = lit "A. One" ++ [ascii_of_nat 9] ++ lit "and" ++ [ascii_of_nat 9] ++ lit "B. Two".
Proof. vm_compute. reflexivity. Qed.

(** ** C9: the field loop comes to an end *)

Lemma span_app (f : ascii -> bool) (s run rest : str) :
  span f s = (run, rest) -> s = run ++ rest.
Proof.
  revert run rest. induction s as [|c s IH]; intros run rest; cbn [span].
  - by intros [= <- <-].
  - destruct (f c).
    + destruct (span f s) as [run' rest'] eqn:Hs. intros [= <- <-].
      cbn [app]. f_equal. by apply IH.
    + by intros [= <- <-].
Qed.

Lemma span_length (f : ascii -> bool) (s run rest : str) :
  span f s = (run, rest) -> length s = length run + length rest.
Proof. intros H. apply span_app in H. subst s. by rewrite length_app. Qed.

Lemma match_assign_bounds (s name : str) (n : nat) :
  match_assign s = Some (name, n) -> 2 <= n <= length s.
Proof.
  unfold match_assign.
  destruct (span is_word s) as [[|c w] r1] eqn:H1; [discriminate|].
  destruct (span is_space r1) as [ws1 r2] eqn:H2.
  destruct r2 as [|e r3]; [discriminate|].
  destruct (ascii_eqb e equals_sign); [|discriminate].
  destruct (span is_space r3) as [ws2 r4] eqn:H3.
  intros [= <- <-].
  apply span_length in H1, H2, H3. cbn [length] in *. lia.
Qed.

Lemma search_assign_bounds (s name : str) (n : nat) :
  search_assign s = Some (name, n) -> 2 <= n <= length s.
Proof.
  revert n. induction s as [|c s IH]; intros n; cbn [search_assign].
  - destruct (match_assign []) as [[name' n']|] eqn:Hm; [|discriminate].
    intros [= -> ->]. by apply match_assign_bounds in Hm.
  - destruct (match_assign (c :: s)) as [[name' n']|] eqn:Hm.
    + intros [= -> ->]. by apply match_assign_bounds in Hm.
    + destruct (search_assign s) as [[name' n']|]; [|discriminate].
      cbn. intros [= -> <-]. specialize (IH n' eq_refl). cbn [length]. lia.
Qed.

Lemma brace_loop_bounds (s : str) (i : nat) (brace_count : Z) (value_end : nat) :
  brace_loop s i brace_count = Some value_end ->
  i < value_end <= i + length s.
Proof.
  revert i brace_count. induction s as [|c s IH]; intros i bc; cbn [brace_loop].
  - discriminate.
  - cbn [length].
    destruct (ascii_eqb c lbrace).
    + intros H. apply IH in H. lia.
    + destruct (ascii_eqb c rbrace).
      * destruct (bc - 1 =? 0)%Z.
        -- intros [= <-]. lia.
        -- intros H. apply IH in H. lia.
      * intros H. apply IH in H. lia.
Qed.

Lemma str_find_bounds (p s : str) (i : nat) :
  str_find p s = Some i -> i + length p <= length s.
Proof.
  revert i. induction s as [|c s IH]; intros i; cbn [str_find].
  - destruct (startswith p []) eqn:Hs; [|discriminate].
    intros [= <-]. apply startswith_prefix in Hs as [r Hr].
    symmetry in Hr. apply app_eq_nil in Hr as [-> _]. cbn. lia.
  - destruct (startswith p (c :: s)) eqn:Hs.
    + intros [= <-]. apply startswith_prefix in Hs as [r Hr].
      rewrite Hr, length_app. lia.
    + destruct (str_find p s) as [j|]; [|discriminate].
      cbn. intros [= <-]. specialize (IH j eq_refl). cbn [length]. lia.
Qed.

(** A value end beyond the value start is inside the record body. *)
Lemma find_value_end_bounds (fields : str) (value_start : nat) :
  value_start < find_value_end fields value_start ->
  find_value_end fields value_start <= length fields.
Proof.
  unfold find_value_end.
  destruct (fields !! value_start) as [c|] eqn:Hc; [|lia].
  apply lookup_lt_Some in Hc.
  destruct (ascii_eqb c lbrace).
  - destruct (brace_loop _ _ _) as [e|] eqn:Hb; [|lia].
    apply brace_loop_bounds in Hb. rewrite length_drop in Hb. lia.
  - destruct (ascii_eqb c dq); [|lia].
    unfold str_find_from.
    destruct (str_find [dq] (drop (value_start + 1) fields)) as [i|] eqn:Hf; cbn; [|lia].
    apply str_find_bounds in Hf. rewrite length_drop in Hf. cbn [length] in Hf. lia.
Qed.

Lemma scan_step_store (fields : str) (current_pos : nat) (n v : str) (value_end : nat) :
  scan_step fields current_pos = Store n v value_end ->
  current_pos + 2 <= value_end <= length fields.
Proof.
  unfold scan_step.
  destruct (search_assign (drop current_pos fields)) as [[name e]|] eqn:Hs; [|discriminate].
  apply search_assign_bounds in Hs as [He _].
  destruct (Nat.ltb_spec (current_pos + e) (find_value_end fields (current_pos + e)))
    as [Hlt|]; [|discriminate].
  intros [= _ _ <-]. pose proof (find_value_end_bounds _ _ Hlt). lia.
Qed.

(** With as many iterations allowed as there are characters left, the
    loop ends by its test or by [break]. *)
Lemma scan_loop_run (fuel : nat) (fields : str) (current_pos : nat)
    (entry : gmap str str) :
  length fields - current_pos <= fuel ->
  scan_run fields current_pos entry (scan_loop fuel fields current_pos entry).
Proof.
  revert current_pos entry.
  induction fuel as [|fuel IH]; intros pos entry Hfuel; cbn [scan_loop].
  - apply scan_run_end. lia.
  - destruct (Nat.ltb_spec pos (length fields)) as [Hlt|Hge];
      [|by apply scan_run_end].
    destruct (scan_step fields pos) as [|n v e|] eqn:Hstep.
    + by apply scan_run_break.
    + pose proof (scan_step_store _ _ _ _ _ Hstep).
      eapply scan_run_store; [done..|]. apply IH. lia.
    + eapply scan_run_skip; [done..|]. apply IH. lia.
Qed.

(** C9: an iteration of the field loop that does not leave the loop moves
    the scan position forward, to the end of the value it stored, which
    is at most the end of the record body, or by one character when no
    value could be extracted; and the loop comes to an end on every
    record body. *)
Theorem field_scan_terminates (fields : str) (entry : gmap str str) :
  (forall current_pos next,
      next_pos fields current_pos = Some next ->
      current_pos < next
      /\ (scan_step fields current_pos = Skip -> next = current_pos + 1)
      /\ (forall n v value_end,
             scan_step fields current_pos = Store n v value_end ->
             next = value_end /\ value_end <= length fields))
  /\ scan_run fields 0 entry (scan_loop (length fields) fields 0 entry).
Proof.
  split.
  - intros pos next. unfold next_pos.
    destruct (scan_step fields pos) as [|n v e|] eqn:Hstep; [discriminate|..];
      intros [= <-].
    + pose proof (scan_step_store _ _ _ _ _ Hstep).
      split; [lia|]. split; [discriminate|].
      intros n' v' e' [= _ _ <-]. split; [reflexivity | lia].
    + split; [lia|]. split; [reflexivity | discriminate].
  - apply scan_loop_run. lia.
Qed.

(** The three kinds of iteration on a body with a value that cannot be
    extracted: [x = 3] is passed one character at a time. *)
Example scan_step_kinds :
  let fields := lit " x = 3, y = {a}" in
  scan_step fields 0 = Skip
  /\ next_pos fields 0 = Some 1
  /\ scan_step fields 2 = Store (lit "y") (lit "a") 15
  /\ scan_step fields 15 = Stop
  /\ field_assignments fields = [(lit "y", lit "a")].
Proof. repeat split; vm_compute; reflexivity. Qed.

(** ** C10: fields named [type] and [key] *)

Lemma scan_loop_trace (fuel : nat) (fields : str) (current_pos : nat)
    (entry : gmap str str) :
  scan_loop fuel fields current_pos entry
  = foldl (fun e nv => <[nv.1 := nv.2]> e) entry (scan_trace fuel fields current_pos).
Proof.
  revert current_pos entry.
  induction fuel as [|fuel IH]; intros pos entry; cbn [scan_loop scan_trace]; [reflexivity|].
  destruct (pos <? length fields); [|reflexivity].
  destruct (scan_step fields pos) as [|n v e|]; [reflexivity|..].
  - cbn [foldl]. apply IH.
  - apply IH.
Qed.

Lemma foldl_insert_lookup (l : list (str * str)) (entry : gmap str str) (name : str) :
  foldl (fun e nv => <[nv.1 := nv.2]> e) entry l !! name
  = match last_assigned name l with
    | Some v => Some v
    | None => entry !! name
    end.
Proof.
  revert entry. induction l as [|[n v] l IH]; intros entry; [reflexivity|].
  cbn [foldl last_assigned fst snd]. rewrite IH.
  destruct (last_assigned name l); [reflexivity|].
  unfold str_eqb. case_bool_decide as Hn.
  - subst. apply lookup_insert_eq.
  - by apply lookup_insert_ne.
Qed.

(** An [article] record with the field [type = {phdthesis}] is shown
    under Theses. *)
Example type_field_changes_group :
  field_assignments (lit " title = {T}, type = {phdthesis}, year = {2020}")
  = [(lit "title", lit "T"); (lit "type", lit "phdthesis"); (lit "year", lit "2020")]
  /\ map (fun e => get e "type" []) (parsed_entries bib_type_field) = [lit "phdthesis"]
  /\ (let pub_links := map make_link (parsed_entries bib_type_field) in
      map (heading_of pub_links) pub_links = [["Theses"%string]]).
Proof. repeat split; vm_compute; reflexivity. Qed.

(** ** The loop of [clean_latex] *)

Lemma endswith_char_nonempty (c : ascii) (s : str) :
  endswith_char c s = true -> 0 < length s.
Proof.
  unfold endswith_char. destruct s as [|a s]; [discriminate|]. cbn [length]. lia.
Qed.

Lemma slice_1_m1_length (s : str) : length (slice_1_m1 s) = length s - 2.
Proof. unfold slice_1_m1. rewrite length_drop, length_take. lia. Qed.

(** A pass of either substitution leaves the text as it is or makes it
    shorter. *)
Lemma sub_outer_length (text : str) :
  sub_outer text = text \/ length (sub_outer text) < length text.
Proof.
  unfold sub_outer.
  destruct (endswith_char nl text) eqn:Hnl.
  - apply endswith_char_nonempty in Hnl.
    destruct (_ && _) eqn:Hm; [|by left]. right.
    apply andb_prop in Hm as [Hm _]. apply andb_prop in Hm as [_ Hm].
    apply Nat.leb_le in Hm. rewrite length_take in Hm.
    rewrite length_app, slice_1_m1_length, length_take. cbn [length]. lia.
  - destruct (_ && _) eqn:Hm; [|by left]. right.
    rewrite length_app, slice_1_m1_length. cbn [length].
    apply andb_prop in Hm as [Hm _]. apply andb_prop in Hm as [_ Hm].
    apply Nat.leb_le in Hm. lia.
Qed.

Lemma sub_inner_go_length (s : str) (skip : nat) :
  length (sub_inner_go s skip) <= length s - skip
  /\ (skip = 0 ->
      sub_inner_go s 0 = s \/ length (sub_inner_go s 0) < length s).
Proof.
  revert skip. induction s as [|c s IH]; intros skip.
  - cbn. split; [lia | by left].
  - destruct skip as [|k]; cbn [sub_inner_go length].
    + assert (Hkeep : length (c :: sub_inner_go s 0) <= S (length s) - 0
                      /\ (0 = 0 -> c :: sub_inner_go s 0 = c :: s
                                   \/ length (c :: sub_inner_go s 0) < S (length s))).
      { destruct (IH 0) as [Hle Heq]. cbn [length]. split; [lia|].
        intros _. destruct (Heq eq_refl) as [->|Hlt]; [by left | right; lia]. }
      destruct (ascii_eqb c lbrace); [|exact Hkeep].
      destruct (span not_brace s) as [[|a run] [|r rest]] eqn:Hspan; try exact Hkeep.
      destruct (ascii_eqb r rbrace); [|exact Hkeep].
      apply span_length in Hspan. cbn [length] in Hspan.
      destruct (IH (length (a :: run) + 1)) as [Hle _].
      rewrite length_app. cbn [length] in *. split; [lia | intros _; right; lia].
    + destruct (IH k) as [Hle _]. split; [lia | discriminate].
Qed.

Lemma sub_inner_length (text : str) :
  sub_inner text = text \/ length (sub_inner text) < length text.
Proof. by apply (sub_inner_go_length text 0). Qed.

(** The bound on the passes of [clean_loop] is never what ends the loop:
    the text it returns has no opening brace, or a pass does not change
    it. *)
Lemma clean_loop_exit (fuel : nat) (text : str) :
  length text <= fuel ->
  contains_char lbrace (clean_loop fuel text) = false
  \/ sub_inner (sub_outer (clean_loop fuel text)) = clean_loop fuel text.
Proof.
  revert text. induction fuel as [|fuel IH]; intros text Hlen.
  - destruct text; [by left | cbn in Hlen; lia].
  - cbn [clean_loop].
    destruct (contains_char lbrace text) eqn:Hb; [|by left].
    unfold str_eqb. case_bool_decide as Heq.
    + right. by rewrite !Heq.
    + apply IH.
      destruct (sub_outer_length text) as [Ho|Ho],
               (sub_inner_length (sub_outer text)) as [Hi|Hi].
      * rewrite Hi, Ho in Heq. done.
      * rewrite Ho in Hi |- *. lia.
      * rewrite Hi. lia.
      * lia.
Qed.

(** ** The white space of a cleaned text *)

Lemma elem_of_rev (c : ascii) (s : str) : c ∈ rev s <-> c ∈ s.
Proof. rewrite !list_elem_of_In. symmetry. apply in_rev. Qed.

Lemma lstrip_elem (c : ascii) (s : str) : c ∈ lstrip s -> c ∈ s.
Proof.
  induction s as [|a s IH]; cbn [lstrip]; [done|].
  destruct (is_space a); [|done]. intros H. right. by apply IH.
Qed.

Lemma strip_elem (c : ascii) (s : str) : c ∈ strip s -> c ∈ s.
Proof.
  unfold strip, rstrip. intros H.
  apply elem_of_rev, lstrip_elem, elem_of_rev, lstrip_elem in H. exact H.
Qed.

Lemma no_space_run_cons (a b : ascii) (r : str) :
  no_space_run (a :: b :: r)
  = negb (is_space a && is_space b) && no_space_run (b :: r).
Proof. reflexivity. Qed.

Lemma no_space_run_tail (c : ascii) (s : str) :
  no_space_run (c :: s) = true -> no_space_run s = true.
Proof.
  destruct s as [|b s]; [done|]. rewrite no_space_run_cons. by intros [_ H]%andb_prop.
Qed.

Lemma no_space_run_drop (k : nat) (s : str) :
  no_space_run s = true -> no_space_run (drop k s) = true.
Proof.
  revert s. induction k as [|k IH]; intros s Hs; [by rewrite drop_0|].
  destruct s as [|c s]; [done|]. cbn [drop]. apply IH. by eapply no_space_run_tail.
Qed.

Lemma no_space_run_take (k : nat) (s : str) :
  no_space_run s = true -> no_space_run (take k s) = true.
Proof.
  revert s. induction k as [|k IH]; intros s Hs; [done|].
  destruct s as [|a s]; [done|]. cbn [take].
  pose proof (IH s (no_space_run_tail _ _ Hs)) as Ht.
  destruct s as [|b s]; [by destruct k|].
  destruct k as [|k]; [done|].
  cbn [take] in *. rewrite no_space_run_cons in Hs |- *.
  apply andb_prop in Hs as [Hab _]. by rewrite Hab, Ht.
Qed.

Lemma lstrip_drop (s : str) : exists k, lstrip s = drop k s.
Proof.
  induction s as [|c s [k IH]]; [by exists 0|]. cbn [lstrip].
  destruct (is_space c); [by exists (S k) | by exists 0].
Qed.

Lemma rstrip_take (s : str) : exists k, rstrip s = take k s.
Proof.
  unfold rstrip. destruct (lstrip_drop (rev s)) as [k ->].
  exists (length s - k). by rewrite skipn_rev, rev_involutive.
Qed.

Lemma lstrip_head (s : str) (c : ascii) :
  head (lstrip s) = Some c -> is_space c = false.
Proof.
  induction s as [|a s IH]; [done|]. cbn [lstrip].
  destruct (is_space a) eqn:Ha; [exact IH|]. by intros [= <-].
Qed.

Lemma last_rev_head (s : str) : last (rev s) = head s.
Proof. destruct s as [|c s]; [done|]. cbn [rev head]. apply last_snoc. Qed.

Lemma strip_single_spaced (s : str) :
  (forall c, c ∈ s -> is_space c = true -> c = space) ->
  no_space_run s = true ->
  single_spaced (strip s).
Proof.
  intros Hsp Hrun. repeat split.
  - intros c Hc. apply Hsp. by apply strip_elem.
  - unfold strip. destruct (rstrip_take (lstrip s)) as [k ->].
    destruct (lstrip_drop s) as [k' ->].
    by apply no_space_run_take, no_space_run_drop.
  - unfold strip. destruct (rstrip_take (lstrip s)) as [k ->].
    intros c Hc. apply (lstrip_head s).
    destruct k as [|k]; [done|]. by destruct (lstrip s).
  - unfold strip, rstrip. intros c Hc. rewrite last_rev_head in Hc.
    by eapply lstrip_head.
Qed.

Lemma collapse_ws_go_spaced (s : str) (in_run : bool) :
  (forall c, c ∈ collapse_ws_go s in_run -> is_space c = true -> c = space)
  /\ no_space_run (collapse_ws_go s in_run) = true
  /\ (in_run = true ->
      forall c, head (collapse_ws_go s in_run) = Some c -> is_space c = false).
Proof.
  revert in_run. induction s as [|a s IH]; intros in_run; cbn [collapse_ws_go].
  - repeat split; [by intros c H%elem_of_nil | done].
  - destruct (is_space a) eqn:Ha.
    + destruct in_run; [apply IH|].
      destruct (IH true) as (H1 & H2 & H3). repeat split; [| |done].
      * intros c [->|Hc]%elem_of_cons; [done | by apply H1].
      * destruct (collapse_ws_go s true) as [|b r] eqn:Hr; [done|].
        rewrite no_space_run_cons, H2, (H3 eq_refl b eq_refl). by rewrite andb_false_r.
    + destruct (IH false) as (H1 & H2 & _). repeat split.
      * intros c [->|Hc]%elem_of_cons; [congruence | by apply H1].
      * destruct (collapse_ws_go s false) as [|b r] eqn:Hr; [done|].
        by rewrite no_space_run_cons, Ha, H2.
      * intros _ c [= <-]. exact Ha.
Qed.

(** The white space of a cleaned text: only single spaces, none at its
    start and none at its end. *)
Lemma clean_latex_single_spaced (text : str) : single_spaced (clean_latex text).
Proof.
  destruct text as [|c text]; [by repeat split; [intros ? H%elem_of_nil|..]|].
  unfold clean_latex, collapse_ws.
  destruct (collapse_ws_go_spaced (clean_loop (length (c :: text)) (c :: text)) false)
    as (H1 & H2 & _).
  by apply strip_single_spaced.
Qed.

(** ** C8: generating the index again *)

Section Find.
Implicit Types (p s x y : str).

Lemma startswith_app_long p s y :
  length p <= length s -> startswith p (s ++ y) = startswith p s.
Proof.
  revert s. induction p as [|a p IH]; intros s Hlen; [reflexivity|].
  destruct s as [|b s]; cbn [length] in Hlen; [lia|].
  cbn [app startswith]. rewrite IH by lia. reflexivity.
Qed.

(** Whether [p] occurs at [j] depends on the characters from [j] to
    [j + length p] only. *)
Lemma startswith_drop_app p x y j :
  j + length p <= length x ->
  startswith p (drop j (x ++ y)) = startswith p (drop j x).
Proof.
  intros Hlen. rewrite drop_app_le by lia.
  apply startswith_app_long. rewrite length_drop. lia.
Qed.

Lemma str_find_None p s :
  str_find p s = None <-> forall j, startswith p (drop j s) = false.
Proof.
  induction s as [|c s IH]; cbn [str_find].
  - destruct (startswith p []) eqn:Hs.
    + split; [discriminate|]. intros H. specialize (H 0). cbn in H. congruence.
    + split; [|reflexivity]. intros _ j. by rewrite drop_nil.
  - destruct (startswith p (c :: s)) eqn:Hs.
    + split; [discriminate|]. intros H. specialize (H 0). cbn in H. congruence.
    + destruct (str_find p s) as [i|] eqn:Hf; cbn.
      * split; [discriminate|]. intros H.
        assert (Hnone : Some i = None); [|discriminate].
        apply IH. intros j. apply (H (S j)).
      * split; [|reflexivity]. intros _ [|j]; [exact Hs|].
        cbn [drop]. by apply IH.
Qed.

Lemma str_find_Some p s i :
  str_find p s = Some i
  <-> startswith p (drop i s) = true /\ i <= length s
      /\ forall j, j < i -> startswith p (drop j s) = false.
Proof.
  revert i. induction s as [|c s IH]; intros i; cbn [str_find].
  - destruct (startswith p []) eqn:Hs.
    + split.
      * intros [= <-]. repeat split; [exact Hs | lia | lia].
      * intros (_ & Hi & _). cbn in Hi. f_equal. lia.
    + split; [discriminate|]. intros (H & _ & _).
      rewrite drop_nil in H. congruence.
  - destruct (startswith p (c :: s)) eqn:Hs.
    + split.
      * intros [= <-]. repeat split; [exact Hs | lia | lia].
      * intros (_ & _ & Hj). destruct i as [|i]; [reflexivity|].
        specialize (Hj 0 ltac:(lia)). cbn in Hj. congruence.
    + destruct (str_find p s) as [i'|] eqn:Hf; cbn.
      * split.
        -- intros [= <-]. destruct (proj1 (IH i') eq_refl) as (H1 & H2 & H3).
           repeat split; [exact H1 | cbn [length]; lia |].
           intros [|j] Hj; [exact Hs|]. cbn [drop]. apply H3. lia.
        -- intros (H1 & H2 & H3). destruct i as [|i]; [cbn in H1; congruence|].
           f_equal. f_equal. cbn [drop length] in *.
           assert (Hi : Some i' = Some i); [|congruence].
           apply IH. repeat split; [exact H1 | lia |].
           intros j Hj. apply (H3 (S j)). lia.
      * split; [discriminate|]. intros (H1 & H2 & H3).
        destruct i as [|i]; [cbn in H1; congruence|].
        cbn [drop] in H1. pose proof (proj1 (str_find_None p s) Hf i). congruence.
Qed.

(** Text that begins like [s], up to and including the first [p] of [s],
    has its first [p] at the same place. *)
Lemma str_find_same_prefix p s y i :
  str_find p s = Some i ->
  str_find p (take i s ++ p ++ y) = Some i.
Proof.
  intros (H1 & H2 & H3)%str_find_Some.
  apply startswith_prefix in H1 as [r Hr].
  assert (Hs : s = (take i s ++ p) ++ r).
  { rewrite <- app_assoc, <- Hr. by rewrite take_drop. }
  assert (Hlen : length (take i s) = i) by (rewrite length_take; lia).
  apply str_find_Some. repeat split.
  - rewrite drop_app_length' by done. apply startswith_prefix. by exists y.
  - rewrite length_app. lia.
  - intros j Hj. rewrite app_assoc.
    rewrite startswith_drop_app by (rewrite length_app; lia).
    pose proof (startswith_drop_app p (take i s ++ p) r j) as E.
    rewrite <- Hs in E. rewrite <- E by (rewrite length_app; lia).
    by apply H3.
Qed.

(** An occurrence of [p] that covers a part [m] of the text shows [m]
    inside [p]. *)
Lemma occurrence_covers p x m y r :
  x ++ m ++ y = p ++ r -> length x + length m <= length p ->
  startswith m (drop (length x) p) = true.
Proof.
  intros Heq Hlen.
  assert (Hp : take (length p) (x ++ m ++ y) = p)
    by (rewrite Heq; apply take_app_length).
  rewrite take_app_ge in Hp by lia. rewrite take_app_ge in Hp by lia.
  rewrite <- Hp. rewrite drop_app_length.
  apply startswith_prefix. by eexists.
Qed.
End Find.

Lemma archive_marker_not_in_footer_marker :
  str_find archive_marker footer_marker = None.
Proof. vm_compute. reflexivity. Qed.

Lemma index_content_starts (sorted_links : list link) :
  exists rest, index_content sorted_links = archive_marker ++ rest.
Proof.
  unfold index_content, content_head. eexists.
  rewrite <- !app_assoc. reflexivity.
Qed.

Lemma startswith_length (p s : str) :
  startswith p s = true -> length p <= length s.
Proof. intros [r ->]%startswith_prefix. rewrite length_app. lia. Qed.

Section Regenerate.
Variables (original : str) (header_end : nat).
Hypothesis Harchive : str_find archive_marker original = Some header_end.
(** No footer marker starts before the archive marker. *)
Hypothesis Hbefore :
  forall j, j < header_end -> startswith footer_marker (drop j original) = false.

Lemma header_length : length (take header_end original) = header_end.
Proof.
  apply str_find_Some in Harchive as (_ & Hle & _).
  rewrite length_take. lia.
Qed.

(** In the new file no footer marker starts inside the header. *)
Lemma no_footer_marker_in_header (rest : str) (j : nat) :
  j < header_end ->
  startswith footer_marker
    (drop j (take header_end original ++ archive_marker ++ rest)) = false.
Proof.
  intros Hj. pose proof header_length as Hlen.
  pose proof Harchive as (Hat & Hle & _)%str_find_Some.
  apply startswith_prefix in Hat as [r0 Hr0].
  assert (Ho : original = (take header_end original ++ archive_marker) ++ r0).
  { rewrite <- app_assoc, <- Hr0. by rewrite take_drop. }
  destruct (decide (j + length footer_marker
                    <= header_end + length archive_marker)) as [Hshort|Hlong].
  - rewrite app_assoc.
    rewrite startswith_drop_app by (rewrite length_app; lia).
    pose proof (startswith_drop_app footer_marker
                  (take header_end original ++ archive_marker) r0 j) as E.
    rewrite <- Ho in E. rewrite <- E by (rewrite length_app; lia).
    by apply Hbefore.
  - apply not_true_is_false. intros Hs.
    rewrite drop_app_le in Hs by lia.
    apply startswith_prefix in Hs as [r Hr].
    apply occurrence_covers in Hr;
      [|rewrite length_drop; lia].
    pose proof (proj1 (str_find_None _ _) archive_marker_not_in_footer_marker
                  (length (drop j (take header_end original)))) as Hn.
    congruence.
Qed.

Variable content : str.
Hypothesis Hcontent : content_without_footer_marker content.
Hypothesis Hstarts : exists rest, content = archive_marker ++ rest.

Lemma new_header (footer : str) :
  index_header (take header_end original ++ content ++ footer)
  = take header_end original.
Proof.
  destruct Hstarts as [rest ->]. unfold index_header.
  rewrite <- app_assoc.
  rewrite (str_find_same_prefix _ _ _ _ Harchive).
  apply take_app_length'. by rewrite header_length.
Qed.

Lemma no_footer_marker_in_content (j : nat) :
  j < length content ->
  startswith footer_marker (drop j (content ++ footer_marker)) = false.
Proof.
  intros Hj. unfold content_without_footer_marker in Hcontent.
  apply str_find_Some in Hcontent as (_ & _ & H). by apply H.
Qed.

(** The footer found in the new file is the footer that was kept. *)
Lemma new_footer_found (footer_rest : str) :
  str_find footer_marker
    (take header_end original ++ content ++ footer_marker ++ footer_rest)
  = Some (header_end + length content).
Proof.
  pose proof header_length as Hlen.
  apply str_find_Some. repeat split.
  - rewrite app_assoc, drop_app_length' by (rewrite length_app; lia).
    apply startswith_prefix. by exists footer_rest.
  - rewrite !length_app. lia.
  - intros j Hj. destruct (decide (j < header_end)) as [Hh|Hc].
    + destruct Hstarts as [rest ->]. rewrite <- app_assoc.
      by apply no_footer_marker_in_header.
    + rewrite drop_app_ge by lia. rewrite Hlen.
      rewrite app_assoc.
      rewrite startswith_drop_app by (rewrite length_app; lia).
      apply no_footer_marker_in_content. lia.
Qed.

(** Without a footer in the original file, none is found in the new
    file. *)
Lemma new_footer_not_found :
  str_find footer_marker (take header_end original ++ content) = None.
Proof.
  pose proof header_length as Hlen.
  apply str_find_None. intros j.
  destruct (decide (j < header_end)) as [Hh|Hc].
  - destruct Hstarts as [rest ->]. by apply no_footer_marker_in_header.
  - rewrite drop_app_ge by lia. rewrite Hlen.
    destruct (startswith footer_marker (drop (j - header_end) content)) eqn:Hs;
      [|reflexivity].
    pose proof (startswith_length _ _ Hs) as Hl. rewrite length_drop in Hl.
    assert (Hpos : 0 < length footer_marker) by (vm_compute; lia).
    rewrite <- (startswith_drop_app _ content footer_marker) in Hs by lia.
    rewrite no_footer_marker_in_content in Hs by lia. discriminate.
Qed.
End Regenerate.

Lemma generate_publications_index_content (original : str) (pub_links : list link)
    (content : str) :
  index_content_of pub_links = Ok content ->
  generate_publications_index original pub_links
  = Ok (index_header original ++ content ++ index_footer original)
  /\ exists rest, content = archive_marker ++ rest.
Proof.
  unfold index_content_of, generate_publications_index.
  destruct (sort_by_key_desc _ pub_links) as [sorted|e]; cbn [bind]; [|discriminate].
  intros [= <-]. split; [reflexivity | apply index_content_starts].
Qed.

(** When the index file has the archive marker, with its footer marker,
    if any, not before it, and the content region has no footer marker of
    its own, the new index file is the header of the old one, the content
    region and the footer of the old one, and generating the index again
    from that file and the same links gives the same file. *)
Lemma regenerate_same_file (original : str) (pub_links : list link)
    (content : str) :
  index_content_of pub_links = Ok content ->
  markers_in_order original ->
  content_without_footer_marker content ->
  let new_html := index_header original ++ content ++ index_footer original in
  generate_publications_index original pub_links = Ok new_html
  /\ index_header new_html = index_header original
  /\ index_footer new_html = index_footer original
  /\ generate_publications_index new_html pub_links = Ok new_html.
Proof.
  intros Hc Horder Hclean new_html.
  destruct (generate_publications_index_content original _ _ Hc) as [Hgen Hstarts].
  assert (Hh : index_header new_html = index_header original
               /\ index_footer new_html = index_footer original).
  { subst new_html. unfold markers_in_order in Horder.
    destruct (str_find archive_marker original) as [a|] eqn:Ha; [|done].
    assert (Eh : index_header original = take a original)
      by (unfold index_header; by rewrite Ha).
    destruct (str_find footer_marker original) as [b|] eqn:Hb.
    - pose proof Hb as (Hat & Hle & Hfirst)%str_find_Some.
      assert (Hbefore : forall j, j < a ->
                 startswith footer_marker (drop j original) = false)
        by (intros j Hj; apply Hfirst; lia).
      apply startswith_prefix in Hat as [r Hr].
      assert (Ef : index_footer original = footer_marker ++ r)
        by (unfold index_footer; by rewrite Hb).
      rewrite Eh, Ef. split.
      + by apply new_header.
      + unfold index_footer.
        rewrite (new_footer_found original a Ha Hbefore content Hclean Hstarts r).
        rewrite app_assoc. apply drop_app_length'.
        rewrite length_app, (header_length original a Ha). lia.
    - pose proof (proj1 (str_find_None _ _) Hb) as Hnone.
      assert (Hbefore : forall j, j < a ->
                 startswith footer_marker (drop j original) = false)
        by (intros j _; apply Hnone).
      assert (Ef : index_footer original = [])
        by (unfold index_footer; by rewrite Hb).
      rewrite Eh, Ef. split.
      + by apply new_header.
      + unfold index_footer. rewrite app_nil_r.
        by rewrite (new_footer_not_found original a Ha Hbefore content Hclean Hstarts). }
  destruct Hh as [Hheader Hfooter].
  repeat split; try assumption.
  destruct (generate_publications_index_content new_html _ _ Hc) as [Hgen' _].
  rewrite Hgen', Hheader, Hfooter. reflexivity.
Qed.

(** *** The lines of the content region *)

Lemma lines_text_app (ls1 ls2 : list str) :
  lines_text (ls1 ++ ls2) = lines_text ls1 ++ lines_text ls2.
Proof. unfold lines_text. by rewrite map_app, concat_app. Qed.

Lemma lines_text_cons (l : str) (ls : list str) :
  lines_text (l :: ls) = l ++ nl :: lines_text ls.
Proof. unfold lines_text. cbn [map concat]. by rewrite <- app_assoc. Qed.

Lemma build_pub_entry_lines (pub : link) :
  build_pub_entry pub = lines_text ([] :: entry_lines pub).
Proof.
  unfold build_pub_entry, entry_lines, lines_text. cbn [map concat].
  rewrite <- !app_assoc. reflexivity.
Qed.

Lemma entries_lines (pubs : list link) :
  concat (map build_pub_entry pubs)
  = lines_text (flat_map (fun p => [] :: entry_lines p) pubs).
Proof.
  induction pubs as [|p pubs IH]; [reflexivity|].
  cbn [map concat flat_map]. rewrite IH, build_pub_entry_lines.
  change ([] :: entry_lines p ++ flat_map (fun p => [] :: entry_lines p) pubs)
    with (([] :: entry_lines p) ++ flat_map (fun p => [] :: entry_lines p) pubs).
  by rewrite lines_text_app.
Qed.

Lemma render_group_lines (gr : string * list link) :
  render_group gr = lines_text (group_lines gr).
Proof.
  destruct gr as [heading [|p pubs]]; [reflexivity|].
  unfold render_group, group_lines. cbn [fst snd].
  rewrite entries_lines, !lines_text_cons.
  rewrite <- !app_assoc. reflexivity.
Qed.

Lemma content_head_lines : content_head = lines_text head_lines.
Proof. vm_compute. reflexivity. Qed.

Lemma content_tail_lines : content_tail = lines_text tail_lines.
Proof. vm_compute. reflexivity. Qed.

Lemma groups_lines (grs : list (string * list link)) :
  concat (map render_group grs) = lines_text (flat_map group_lines grs).
Proof.
  induction grs as [|gr grs IH]; [reflexivity|].
  cbn [map concat flat_map]. by rewrite lines_text_app, IH, render_group_lines.
Qed.

Lemma index_content_lines (sorted_links : list link) :
  index_content sorted_links = lines_text (content_lines sorted_links).
Proof.
  unfold index_content, content_lines.
  by rewrite !lines_text_app, content_head_lines, content_tail_lines, groups_lines.
Qed.

Lemma footer_marker_lines_text :
  footer_marker = lines_text footer_marker_lines ++ footer_marker_last.
Proof. vm_compute. reflexivity. Qed.

(** *** Where a text with newlines can occur in lines *)

Lemma no_newline_app (a b : str) :
  no_newline (a ++ b) <-> no_newline a /\ no_newline b.
Proof. unfold no_newline. rewrite elem_of_app. tauto. Qed.

Lemma no_newline_cons (c : ascii) (s : str) :
  no_newline (c :: s) <-> c <> nl /\ no_newline s.
Proof. unfold no_newline. rewrite elem_of_cons. intuition congruence. Qed.

(** Two texts that agree up to their first newline. *)
Lemma first_newline_inj (a b x y : str) :
  no_newline a -> no_newline b ->
  a ++ nl :: x = b ++ nl :: y -> a = b /\ x = y.
Proof.
  revert b. induction a as [|c a IH]; intros [|d b] Ha Hb Heq; cbn in Heq.
  - by injection Heq.
  - injection Heq as <- _. apply no_newline_cons in Hb as [Hb _]. done.
  - injection Heq as -> _. apply no_newline_cons in Ha as [Ha _]. done.
  - injection Heq as -> Heq.
    apply no_newline_cons in Ha as [_ Ha]. apply no_newline_cons in Hb as [_ Hb].
    destruct (IH b Ha Hb Heq) as [-> ->]. done.
Qed.

Lemma newline_not_in_drop (t p q r : str) (j : nat) :
  no_newline t -> drop j t = (p ++ nl :: q) ++ r -> False.
Proof.
  intros Ht Heq. apply Ht.
  apply (subseteq_drop j t). rewrite Heq.
  apply elem_of_app. left. apply elem_of_app. right. by left.
Qed.

(** A text that starts with a line and a newline, at the start of lines. *)
Lemma line_at_start (ls : list str) (t q0 q r : str) :
  Forall no_newline ls -> no_newline t -> no_newline q0 ->
  lines_text ls ++ t = (q0 ++ nl :: q) ++ r ->
  exists ls', ls = q0 :: ls' /\ lines_text ls' ++ t = q ++ r.
Proof.
  intros Hls Ht Hq Heq. destruct ls as [|l ls].
  - exfalso. apply (newline_not_in_drop t q0 q r 0 Ht). exact Heq.
  - inversion Hls as [|?? Hl Hls']; subst.
    rewrite lines_text_cons in Heq. rewrite <- !app_assoc in Heq. cbn [app] in Heq.
    destruct (first_newline_inj _ _ _ _ Hl Hq Heq) as [-> Hrest].
    by exists ls.
Qed.

(** A text that starts with the end of a line and a newline, somewhere in
    lines. *)
Lemma line_occurrence (ls : list str) (t p0 q r : str) (j : nat) :
  Forall no_newline ls -> no_newline t -> no_newline p0 ->
  drop j (lines_text ls ++ t) = (p0 ++ nl :: q) ++ r ->
  exists before l after,
    ls = before ++ l :: after
    /\ j + length p0 = length (lines_text before) + length l
    /\ lines_text after ++ t = q ++ r.
Proof.
  intros Hls Ht Hp. revert j. induction Hls as [|l ls Hl Hls IH]; intros j Heq.
  - exfalso. by apply (newline_not_in_drop t p0 q r j Ht).
  - rewrite lines_text_cons in Heq. rewrite <- app_assoc in Heq. cbn [app] in Heq.
    destruct (decide (j <= length l)) as [Hj|Hj].
    + rewrite drop_app_le in Heq by done.
      rewrite <- app_assoc in Heq. cbn [app] in Heq.
      assert (Hd : no_newline (drop j l)).
      { intros Hin. apply Hl. by apply (subseteq_drop j l). }
      destruct (first_newline_inj _ _ _ _ Hd Hp Heq) as [Hp0 Hrest].
      exists [], l, ls. repeat split; [|exact Hrest].
      rewrite <- Hp0, length_drop. cbn. lia.
    + rewrite drop_app_ge in Heq by lia.
      replace (j - length l) with (S (j - length l - 1)) in Heq by lia.
      cbn [drop] in Heq.
      destruct (IH _ Heq) as (before & l' & after & -> & Hlen & Hrest).
      exists (l :: before), l', after. repeat split; [|exact Hrest].
      rewrite lines_text_cons, length_app. cbn [length]. lia.
Qed.

(** *** The line [</div>] followed by two empty lines *)

Lemma triple_run_found (ls : list str) : triple_run 3 ls = 3.
Proof. induction ls as [|l ls IH]; [reflexivity | exact IH]. Qed.

Lemma triple_run_app (state : nat) (ls1 ls2 : list str) :
  triple_run state (ls1 ++ ls2) = triple_run (triple_run state ls1) ls2.
Proof. apply foldl_app. Qed.

Lemma triple_run_occurs (state : nat) (before after : list str) :
  triple_run state (before ++ lit "</div>" :: [] :: [] :: after) = 3.
Proof.
  rewrite triple_run_app. generalize (triple_run state before). intros s.
  change (triple_run (triple_step (triple_step (triple_step s (lit "</div>")) []) []) after = 3).
  assert (H : triple_step (triple_step (triple_step s (lit "</div>")) []) [] = 3).
  { destruct s as [|[|[|[|s]]]]; reflexivity. }
  rewrite H. apply triple_run_found.
Qed.

Lemma triple_step_other (state : nat) (c : ascii) (l : str) :
  state <> 3 -> c <> ascii_of_nat 60 -> triple_step state (c :: l) = 0.
Proof.
  intros Hs Hc. unfold triple_step, str_eqb.
  rewrite (bool_decide_eq_false_2 (c :: l = lit "</div>"))
    by (intros [= -> _]; by apply Hc).
  rewrite (bool_decide_eq_false_2 (c :: l = [])) by discriminate.
  destruct state as [|[|[|[|s]]]]; done.
Qed.

(** After the lines of an entry the scan has seen [</div>] only. *)
Lemma triple_run_entry (state : nat) (pub : link) :
  state <= 1 -> triple_run state ([] :: entry_lines pub) = 1.
Proof.
  intros Hs. unfold entry_lines, triple_run. cbn [foldl].
  assert (H0 : triple_step state [] = 0 \/ triple_step state [] = 2)
    by (destruct state as [|[|s]]; [by left | by right | lia]).
  set (s0 := triple_step state []) in *.
  assert (H1 : triple_step s0 (lit "<div class=" ++ quoted "list__item" ++ lit ">") = 0)
    by (destruct H0 as [-> | ->]; reflexivity).
  rewrite H1.
  repeat (first [ rewrite (triple_step_other 0 (ascii_of_nat 32)) by done
                | progress cbn [app lit list_ascii_of_string] ]).
  reflexivity.
Qed.

Lemma triple_run_entries (state : nat) (pubs : list link) :
  state <= 1 ->
  triple_run state (flat_map (fun p => [] :: entry_lines p) pubs) <= 1.
Proof.
  revert state. induction pubs as [|p pubs IH]; intros state Hs; [exact Hs|].
  cbn [flat_map].
  change ([] :: entry_lines p ++ flat_map (fun p => [] :: entry_lines p) pubs)
    with (([] :: entry_lines p) ++ flat_map (fun p => [] :: entry_lines p) pubs).
  rewrite triple_run_app, (triple_run_entry state p Hs). by apply IH.
Qed.

Lemma triple_run_group (state : nat) (gr : string * list link) :
  state <= 1 -> triple_run state (group_lines gr) <= 1.
Proof.
  intros Hs. destruct gr as [heading [|p pubs]]; [exact Hs|].
  unfold group_lines, triple_run. cbn [fst snd foldl].
  assert (H0 : triple_step state [] <> 3)
    by (destruct state as [|[|s]]; [done | done | lia]).
  cbn [app lit list_ascii_of_string].
  rewrite (triple_step_other _ (ascii_of_nat 32)) by done.
  apply triple_run_entries. lia.
Qed.

Lemma triple_run_groups (state : nat) (grs : list (string * list link)) :
  state <= 1 -> triple_run state (flat_map group_lines grs) <= 1.
Proof.
  revert state. induction grs as [|gr grs IH]; intros state Hs; [exact Hs|].
  cbn [flat_map]. rewrite triple_run_app. apply IH. by apply triple_run_group.
Qed.

(** In the lines of the content region followed by the first three lines
    of a footer marker, [</div>] is nowhere followed by two empty
    lines. *)
Lemma triple_run_content (sorted_links : list link) :
  triple_run 0 (content_lines sorted_links ++ [lit "  </div>"; lit "</div>"; []]) = 2.
Proof.
  unfold content_lines. rewrite <- !app_assoc, !triple_run_app.
  change (triple_run 0 head_lines) with 0.
  pose proof (triple_run_groups 0 (rendered_groups (group_by_type sorted_links))
                ltac:(lia)) as Hg.
  destruct (triple_run 0 _) as [|[|s]]; [reflexivity | reflexivity | lia].
Qed.

(** *** The lines have no newline *)

Lemma no_newline_lit_check (s : str) :
  contains_char nl s = false -> no_newline s.
Proof.
  unfold no_newline, contains_char. intros H Hin.
  apply not_true_iff_false in H. apply H.
  apply existsb_exists. exists nl. split; [by apply list_elem_of_In | reflexivity].
Qed.

Lemma no_newline_take (n : nat) (s : str) : no_newline s -> no_newline (take n s).
Proof. intros H Hin. apply H. by apply (subseteq_take n s). Qed.

Lemma entry_lines_no_newline (pub : link) :
  link_no_newline pub -> Forall no_newline ([] :: entry_lines pub).
Proof.
  intros (Hf & Ht & Hj & Hy & Ha). unfold entry_lines.
  repeat constructor; rewrite ?no_newline_app;
    repeat split;
    first [ assumption | by apply no_newline_take
          | apply no_newline_lit_check; vm_compute; reflexivity ].
Qed.

Lemma group_lines_no_newline (gr : string * list link) :
  no_newline (lit (fst gr)) -> Forall link_no_newline (snd gr) ->
  Forall no_newline (group_lines gr).
Proof.
  destruct gr as [heading [|p pubs]]; intros Hh Hall; [constructor|].
  unfold group_lines. cbn [fst snd] in *.
  constructor; [apply no_newline_lit_check; reflexivity|].
  constructor.
  - rewrite !no_newline_app. repeat split; try assumption;
      apply no_newline_lit_check; vm_compute; reflexivity.
  - clear Hh. induction Hall as [|q qs Hq _ IH]; [constructor|].
    cbn [flat_map]. apply Forall_app. split; [|exact IH].
    change ([] :: entry_lines q) with ([] :: entry_lines q).
    by apply entry_lines_no_newline.
Qed.

Lemma Forall_list_filter {A : Type} (P : A -> Prop) (f : A -> bool) (l : list A) :
  Forall P l -> Forall P (List.filter f l).
Proof.
  intros H. induction H as [|x l Hx _ IH]; [constructor|].
  cbn [List.filter]. destruct (f x); [by constructor | exact IH].
Qed.

Lemma content_lines_no_newline (sorted_links : list link) :
  Forall link_no_newline sorted_links ->
  Forall no_newline (content_lines sorted_links).
Proof.
  intros Hall. unfold content_lines.
  apply Forall_app. split; [|apply Forall_app; split].
  - repeat constructor; apply no_newline_lit_check; vm_compute; reflexivity.
  - unfold rendered_groups, group_by_type.
    cbn [flat_map articles incollections inproceedings thesis misc others].
    rewrite app_nil_r.
    repeat (apply Forall_app; split);
      (apply group_lines_no_newline; cbn [fst snd];
       [apply no_newline_lit_check; vm_compute; reflexivity|]);
      try (apply Forall_app; split); by apply Forall_list_filter.
  - repeat constructor; apply no_newline_lit_check; vm_compute; reflexivity.
Qed.

(** The content region built from links without a newline has no footer
    marker of its own. *)
Lemma content_no_footer_marker (sorted_links : list link) :
  Forall link_no_newline sorted_links ->
  content_without_footer_marker (index_content sorted_links).
Proof.
  intros Hall. unfold content_without_footer_marker.
  apply str_find_Some. repeat split.
  - rewrite drop_app_length. apply startswith_prefix. exists []. by rewrite app_nil_r.
  - rewrite length_app. lia.
  - intros j Hj. apply not_true_is_false. intros [r Hr]%startswith_prefix.
    rewrite index_content_lines in Hj, Hr.
    rewrite footer_marker_lines_text in Hr at 1.
    rewrite app_assoc, <- lines_text_app in Hr.
    assert (Hfm : footer_marker
                  = lit "  </div>" ++ nl
                    :: (lit "</div>" ++ nl :: ([] ++ nl :: ([] ++ nl :: footer_marker_last))))
      by (vm_compute; reflexivity).
    rewrite Hfm in Hr.
    assert (Hlast : no_newline footer_marker_last)
      by (apply no_newline_lit_check; vm_compute; reflexivity).
    assert (Hlines : Forall no_newline (content_lines sorted_links ++ footer_marker_lines)).
    { apply Forall_app. split; [by apply content_lines_no_newline|].
      repeat constructor; apply no_newline_lit_check; vm_compute; reflexivity. }
    assert (Hnil : no_newline []) by (intros H; by apply elem_of_nil in H).
    assert (Hdiv : no_newline (lit "</div>"))
      by (apply no_newline_lit_check; vm_compute; reflexivity).
    assert (Hp0 : no_newline (lit "  </div>"))
      by (apply no_newline_lit_check; vm_compute; reflexivity).
    destruct (line_occurrence _ _ _ _ _ _ Hlines Hlast Hp0 Hr)
      as (before & l & after & Hsplit & Hlen & Hrest).
    assert (Hafter : Forall no_newline after).
    { rewrite Hsplit in Hlines. apply Forall_app in Hlines as [_ Hlines].
      by inversion Hlines. }
    destruct (line_at_start _ _ _ _ _ Hafter Hlast Hdiv Hrest) as (a1 & -> & Hrest1).
    inversion Hafter as [|?? _ Ha1]; subst.
    destruct (line_at_start _ _ _ _ _ Ha1 Hlast Hnil Hrest1) as (a2 & -> & Hrest2).
    inversion Ha1 as [|?? _ Ha2]; subst.
    destruct (line_at_start _ _ _ _ _ Ha2 Hlast Hnil Hrest2) as (a3 & -> & _).
    destruct a3 as [|z a3 _] using rev_ind.
    + change (content_lines sorted_links ++ footer_marker_lines)
        with (content_lines sorted_links ++ [lit "  </div>"; lit "</div>"; []; []])
        in Hsplit.
      change (before ++ [l; lit "</div>"; []; []])
        with (before ++ [l] ++ [lit "</div>"; []; []]) in Hsplit.
      change [lit "  </div>"; lit "</div>"; []; []]
        with ([lit "  </div>"] ++ [lit "</div>"; []; []]) in Hsplit.
      rewrite !app_assoc in Hsplit.
      apply app_inj_2 in Hsplit as [Hsplit _]; [|reflexivity].
      apply app_inj_2 in Hsplit as [<- [= <-]]; [|reflexivity].
      change (length (lit "  </div>")) with 8 in Hlen. cbn [length] in Hlen. lia.
    + pose proof (triple_run_content sorted_links) as Hrun.
      change (content_lines sorted_links ++ footer_marker_lines)
        with (content_lines sorted_links ++ [lit "  </div>"; lit "</div>"; []] ++ [[]])
        in Hsplit.
      change (before ++ l :: lit "</div>" :: [] :: [] :: a3 ++ [z])
        with (before ++ (l :: lit "</div>" :: [] :: [] :: a3) ++ [z]) in Hsplit.
      rewrite !app_assoc in Hsplit.
      apply app_inj_2 in Hsplit as [Hsplit _]; [|reflexivity].
      rewrite Hsplit in Hrun.
      change (before ++ l :: lit "</div>" :: [] :: [] :: a3)
        with (before ++ [l] ++ lit "</div>" :: [] :: [] :: a3) in Hrun.
      rewrite app_assoc, triple_run_occurs in Hrun. discriminate.
Qed.

(** *** The links that [main] builds have no newline *)

Lemma map_result_snd {A : Type} (key : A -> result Z) (items : list A)
    (keyed : list (Z * A)) :
  map_result (fun a => do k <- key a; Ok (k, a)) items = Ok keyed ->
  map snd keyed = items.
Proof.
  revert keyed. induction items as [|a items IH]; intros keyed; cbn [map_result].
  - by intros [= <-].
  - destruct (key a) as [k|]; cbn [bind]; [|discriminate].
    destruct (map_result _ items) as [ks|]; cbn [bind]; [|discriminate].
    intros [= <-]. cbn [map snd]. by rewrite (IH ks eq_refl).
Qed.

Lemma sort_by_key_desc_perm {A : Type} (key : A -> result Z) (items sorted : list A) :
  sort_by_key_desc key items = Ok sorted -> Permutation sorted items.
Proof.
  unfold sort_by_key_desc.
  destruct (map_result _ items) as [keyed|] eqn:Hk; cbn [bind]; [|discriminate].
  intros [= <-]. rewrite <- (map_result_snd key items keyed Hk).
  apply Permutation_map, sort_desc_perm.
Qed.

Lemma no_newline_nil : no_newline [].
Proof. intros H. by apply elem_of_nil in H. Qed.

Lemma no_newline_strip (s : str) : no_newline s -> no_newline (strip s).
Proof. intros H Hin. apply H. by apply strip_elem. Qed.

Lemma collapse_ws_go_no_newline (s : str) (in_run : bool) :
  no_newline (collapse_ws_go s in_run).
Proof.
  revert in_run. induction s as [|c s IH]; intros in_run; cbn [collapse_ws_go].
  - apply no_newline_nil.
  - destruct (is_space c) eqn:Hc.
    + destruct in_run; [apply IH|]. apply no_newline_cons. split; [done | apply IH].
    + apply no_newline_cons. split; [|apply IH]. intros ->. discriminate.
Qed.

Lemma clean_latex_no_newline (text : str) : no_newline (clean_latex text).
Proof.
  destruct text as [|c text]; [apply no_newline_nil|].
  unfold clean_latex. apply no_newline_strip, collapse_ws_go_no_newline.
Qed.

Lemma no_newline_join (sep : str) (l : list str) :
  no_newline sep -> Forall no_newline l -> no_newline (str_join sep l).
Proof.
  intros Hsep Hl. induction Hl as [|x l Hx Hl IH]; [apply no_newline_nil|].
  destruct l as [|y l]; [exact Hx|].
  change (str_join sep (x :: y :: l)) with (x ++ sep ++ str_join sep (y :: l)).
  rewrite !no_newline_app. auto.
Qed.

Lemma split_go_elem (sep s cur piece : str) (skip : nat) (c : ascii) :
  piece ∈ split_go sep s skip cur -> c ∈ piece -> c ∈ s \/ c ∈ cur.
Proof.
  revert skip cur. induction s as [|a s IH]; intros skip cur; cbn [split_go].
  - intros ->%list_elem_of_singleton Hc. right. by apply elem_of_rev.
  - destruct skip as [|k].
    + destruct (startswith sep (a :: s)).
      * intros [->|Hp]%elem_of_cons Hc.
        -- right. by apply elem_of_rev.
        -- destruct (IH _ _ Hp Hc) as [H|H]; [left; by right | by apply elem_of_nil in H].
      * intros Hp Hc. destruct (IH _ _ Hp Hc) as [H|H]; [left; by right|].
        apply elem_of_cons in H as [->|H]; [left; by left | by right].
    + intros Hp Hc. destruct (IH _ _ Hp Hc) as [H|H]; [left; by right | by right].
Qed.

Lemma authors_no_newline (s : str) :
  no_newline s -> Forall no_newline (map strip (str_split (lit " and ") s)).
Proof.
  intros Hs. apply Forall_map, Forall_forall. intros piece Hp.
  apply no_newline_strip. intros Hc.
  destruct (split_go_elem _ _ _ _ _ _ Hp Hc) as [H|H]; [by apply Hs | by apply elem_of_nil in H].
Qed.

Lemma format_authors_no_newline (s : str) :
  no_newline s -> no_newline (format_authors s).
Proof.
  intros Hs. unfold format_authors. destruct s as [|c s]; [apply no_newline_nil|].
  pose proof (authors_no_newline _ Hs) as Ha.
  set (authors := map strip (str_split (lit " and ") (c :: s))) in *.
  assert (Hlit : forall t, contains_char nl (lit t) = false -> no_newline (lit t))
    by (intros t; apply no_newline_lit_check).
  assert (Hnth : forall i, no_newline (nth i authors [])).
  { intros i. destruct (nth_in_or_default i authors []) as [Hin| ->];
      [|apply no_newline_nil].
    rewrite Forall_forall in Ha. apply Ha. by apply list_elem_of_In. }
  destruct (length authors =? 1); [apply Hnth|].
  destruct (length authors =? 2).
  - rewrite !no_newline_app. repeat split; try apply Hnth. by apply Hlit.
  - rewrite !no_newline_app. repeat split.
    + apply no_newline_join; [by apply Hlit | by apply Forall_take].
    + by apply Hlit.
    + unfold last_str. clear Hnth. clearbody authors.
      destruct authors as [|a l' _] using rev_ind; [apply no_newline_nil|].
      rewrite last_last. apply Forall_app in Ha as [_ Ha]. by inversion Ha.
Qed.

Lemma span_Forall (f : ascii -> bool) (s run rest : str) :
  span f s = (run, rest) -> Forall (fun c => f c = true) run.
Proof.
  revert run rest. induction s as [|c s IH]; intros run rest; cbn [span].
  - intros [= <- <-]. constructor.
  - destruct (f c) eqn:Hc.
    + destruct (span f s) as [run' rest'] eqn:Hs. intros [= <- <-].
      constructor; [exact Hc | by eapply IH].
    + intros [= <- <-]. constructor.
Qed.

Lemma match_entry_type (s entry_type key fields : str) (n : nat) :
  match_entry s = Some (entry_type, key, fields, n) -> no_newline entry_type.
Proof.
  unfold match_entry. destruct s as [|c s1]; [discriminate|].
  destruct (ascii_eqb c at_sign); [|discriminate].
  destruct (span is_word s1) as [[|a w] [|b s3]] eqn:Hw; try discriminate.
  destruct (ascii_eqb b lbrace); [|discriminate].
  destruct (span not_comma s3) as [[|a' k] [|b' s5]]; try discriminate.
  destruct (str_find_from _ _ _); [|discriminate].
  intros [= <- _ _ _]. apply span_Forall in Hw.
  intros Hin. rewrite Forall_forall in Hw. by specialize (Hw nl Hin).
Qed.

Lemma findall_entries_type (content : str) (skip : nat) (entry_type key fields : str) :
  (entry_type, key, fields) ∈ findall_entries content skip -> no_newline entry_type.
Proof.
  revert skip. induction content as [|c content IH]; intros skip; cbn [findall_entries].
  - intros H. by apply elem_of_nil in H.
  - destruct skip as [|k]; [|apply IH].
    destruct (match_entry (c :: content)) as [[[[ty k] f] n]|] eqn:Hm; [|apply IH].
    intros [[= -> -> ->]|H]%elem_of_cons; [|by eapply IH].
    by eapply match_entry_type.
Qed.

Lemma scan_step_value (fields : str) (current_pos : nat) (n v : str) (value_end : nat) :
  scan_step fields current_pos = Store n v value_end -> no_newline v.
Proof.
  unfold scan_step.
  destruct (search_assign _) as [[name e]|]; [|discriminate].
  destruct (_ <? _); [|discriminate].
  intros [= _ <- _]. apply clean_latex_no_newline.
Qed.

Lemma scan_trace_values (fuel : nat) (fields : str) (current_pos : nat) :
  Forall (fun nv => no_newline nv.2) (scan_trace fuel fields current_pos).
Proof.
  revert current_pos. induction fuel as [|fuel IH]; intros pos; cbn [scan_trace];
    [constructor|].
  destruct (pos <? length fields); [|constructor].
  destruct (scan_step fields pos) as [|n v e|] eqn:Hs; [constructor| |apply IH].
  constructor; [by eapply scan_step_value | apply IH].
Qed.

Lemma clean_values_foldl (l : list (str * str)) (e : gmap str str) :
  Forall (fun nv => no_newline nv.2) l -> clean_values e ->
  clean_values (foldl (fun e nv => <[nv.1 := nv.2]> e) e l).
Proof.
  intros Hl. revert e. induction Hl as [|[n v] l Hv _ IH]; intros e He; [exact He|].
  cbn [foldl]. apply IH. intros name w Hw Hname. cbn [fst snd] in *.
  destruct (decide (n = name)) as [->|Hne].
  - rewrite lookup_insert_eq in Hw. by injection Hw as <-.
  - rewrite lookup_insert_ne in Hw by done. by eapply He.
Qed.

Lemma parse_entry_clean (entry_type key fields : str) :
  no_newline entry_type -> clean_values (parse_entry (entry_type, key, fields)).
Proof.
  intros Hty. unfold parse_entry. rewrite scan_loop_trace.
  apply clean_values_foldl; [apply scan_trace_values|].
  intros name v Hv Hname. rewrite lookup_insert_ne in Hv by done.
  destruct (decide (lit "type" = name)) as [<-|Hne].
  - rewrite lookup_insert_eq in Hv. by injection Hv as <-.
  - rewrite lookup_insert_ne in Hv by done. by rewrite lookup_empty in Hv.
Qed.

Lemma parsed_entries_clean (content : str) :
  Forall clean_values (parsed_entries content).
Proof.
  unfold parsed_entries. apply Forall_map, Forall_forall.
  intros [[ty key] fields] Hin. apply parse_entry_clean.
  by eapply findall_entries_type.
Qed.

Lemma get_no_newline (e : gmap str str) (k : string) (default : str) :
  clean_values e -> lit k <> lit "key" -> no_newline default ->
  no_newline (get e k default).
Proof.
  intros He Hk Hd. unfold get. destruct (e !! lit k) as [v|] eqn:Hv; [|exact Hd].
  by eapply He.
Qed.

Lemma no_newline_repeat_zero (n : nat) : no_newline (repeat (ascii_of_nat 48) n).
Proof.
  induction n as [|n IH]; [apply no_newline_nil|].
  apply no_newline_cons. split; [discriminate | exact IH].
Qed.

Lemma get_date_for_filename_no_newline (pub : gmap str str) :
  clean_values pub -> no_newline (get_date_for_filename pub).
Proof.
  intros Hp. unfold get_date_for_filename.
  assert (Hy : no_newline (get pub "year" (lit "2020")))
    by (apply get_no_newline; [done | discriminate | apply no_newline_lit_check; reflexivity]).
  assert (Hm : no_newline (get pub "month" (lit "01")))
    by (apply get_no_newline; [done | discriminate | apply no_newline_lit_check; reflexivity]).
  unfold pad2.
  rewrite !no_newline_app. repeat split; [exact Hy | apply no_newline_lit_check; reflexivity | |].
  - apply no_newline_repeat_zero.
  - destruct (months !! _) as [m|] eqn:Hl.
    + apply months_lookup in Hl as [_ Hin]. vm_compute in Hin.
      repeat (destruct Hin as [<-|Hin]; [apply no_newline_lit_check; reflexivity|]).
      destruct Hin.
    + destruct (negb _); [apply no_newline_lit_check; reflexivity | exact Hm].
Qed.

Lemma split_ws_go_no_newline (s cur : str) :
  Forall (fun c => is_space c = false) cur ->
  Forall (Forall (fun c => is_space c = false)) (split_ws_go s cur).
Proof.
  revert cur. induction s as [|c s IH]; intros cur Hcur; cbn [split_ws_go].
  - destruct cur; [constructor|]. constructor; [|constructor].
    apply Forall_forall. intros x Hx. rewrite Forall_forall in Hcur.
    apply Hcur. by apply elem_of_rev.
  - destruct (is_space c) eqn:Hc.
    + destruct cur as [|a cur]; [by apply IH|].
      constructor; [|by apply IH].
      apply Forall_forall. intros x Hx. rewrite Forall_forall in Hcur.
      apply Hcur. by apply elem_of_rev.
    + apply IH. by constructor.
Qed.

Lemma generate_publication_slug_no_newline (pub : gmap str str) :
  no_newline (generate_publication_slug pub).
Proof.
  unfold generate_publication_slug.
  apply no_newline_join; [apply no_newline_lit_check; reflexivity|].
  apply Forall_take.
  eapply Forall_impl; [apply split_ws_go_no_newline; constructor|].
  intros piece Hp Hin. rewrite Forall_forall in Hp. by specialize (Hp nl Hin).
Qed.

Lemma make_link_no_newline (pub : gmap str str) :
  clean_values pub -> link_no_newline (make_link pub).
Proof.
  intros Hp. unfold make_link, generate_html, link_no_newline.
  cbn [link_filename link_title link_journal link_year link_authors].
  repeat split.
  - rewrite !no_newline_app. repeat split;
      first [ by apply get_date_for_filename_no_newline
            | apply generate_publication_slug_no_newline
            | apply no_newline_lit_check; reflexivity ].
  - unfold get_publication_title. apply no_newline_strip, clean_latex_no_newline.
  - apply get_no_newline; [done | discriminate|].
    apply get_no_newline; [done | discriminate|].
    apply no_newline_lit_check; reflexivity.
  - apply get_no_newline; [done | discriminate|].
    apply no_newline_lit_check; reflexivity.
  - apply format_authors_no_newline.
    apply get_no_newline; [done | discriminate|].
    apply no_newline_lit_check; reflexivity.
Qed.

Lemma parse_bibtex_links_no_newline (bib : str) (publications : list (gmap str str)) :
  parse_bibtex bib = Ok publications ->
  Forall link_no_newline (map make_link publications).
Proof.
  intros Hp. apply sort_by_key_desc_perm in Hp.
  apply Forall_map. eapply Forall_impl; [|intros pub; apply make_link_no_newline].
  eapply Permutation_Forall; [symmetry; exact Hp | apply parsed_entries_clean].
Qed.

(** *** An index file without markers *)

(** An occurrence of [p] that starts in [x] and ends in [y]: what is left
    of [p] where [x] ends is at the start of [y]. *)
Lemma startswith_across (p x y : str) (j : nat) :
  j < length x -> length x < j + length p ->
  startswith p (drop j (x ++ y)) = true ->
  startswith (drop (length x - j) p) y = true.
Proof.
  intros Hj Hlong Hs. rewrite drop_app_le in Hs by lia.
  apply startswith_prefix in Hs as [r Hr].
  assert (Hlen : length (drop j x) = length x - j) by (rewrite length_drop; lia).
  apply startswith_prefix.
  assert (Hp : p = take (length x - j) p ++ drop (length x - j) p)
    by (by rewrite take_drop).
  rewrite Hp, <- app_assoc in Hr.
  apply app_inj_1 in Hr as [_ Hr]; [by exists r|].
  rewrite length_take. lia.
Qed.

(** No end of the archive marker is a start of it, and no end of the
    footer marker is a start of the archive marker. *)
Lemma archive_marker_no_overlap (k : nat) :
  0 < k < length archive_marker ->
  startswith (drop k archive_marker) archive_marker = false.
Proof.
  intros Hk.
  assert (Hall : forallb (fun k => negb (startswith (drop k archive_marker)
                                            archive_marker))
                   (seq 1 (length archive_marker - 1)) = true)
    by (vm_compute; reflexivity).
  rewrite forallb_forall in Hall. apply negb_true_iff, Hall, in_seq. lia.
Qed.

Lemma footer_marker_no_overlap (k : nat) :
  0 < k < length footer_marker ->
  startswith (drop k footer_marker) archive_marker = false.
Proof.
  intros Hk.
  assert (Hall : forallb (fun k => negb (startswith (drop k footer_marker)
                                            archive_marker))
                   (seq 1 (length footer_marker - 1)) = true)
    by (vm_compute; reflexivity).
  rewrite forallb_forall in Hall. apply negb_true_iff, Hall, in_seq. lia.
Qed.

Lemma startswith_drop_long (p s : str) (k : nat) :
  length s < length p - k -> startswith (drop k p) s = false.
Proof.
  intros Hl. destruct (startswith (drop k p) s) eqn:Hs; [|reflexivity].
  apply startswith_length in Hs. rewrite length_drop in Hs. lia.
Qed.

(** In a file without an archive marker followed by a content region,
    the first archive marker is the one of the content region. *)
Lemma archive_marker_appended (original rest : str) :
  str_find archive_marker original = None ->
  str_find archive_marker (original ++ archive_marker ++ rest)
  = Some (length original).
Proof.
  intros Hnone. pose proof (proj1 (str_find_None _ _) Hnone) as Hn.
  apply str_find_Some. split; [|split].
  - rewrite drop_app_length. apply startswith_prefix. by exists rest.
  - rewrite length_app. lia.
  - intros j Hj.
    destruct (le_lt_dec (j + length archive_marker) (length original)) as [Hin|Hout].
    + rewrite startswith_drop_app by done. apply Hn.
    + destruct (startswith archive_marker
                  (drop j (original ++ archive_marker ++ rest))) eqn:Hs; [|reflexivity].
      apply startswith_across in Hs; [|lia..].
      rewrite startswith_app_long in Hs by (rewrite length_drop; lia).
      rewrite archive_marker_no_overlap in Hs by lia. discriminate.
Qed.

Lemma no_footer_marker_across (original : str) (j : nat) :
  str_find footer_marker original = None ->
  j < length original ->
  startswith footer_marker (drop j (original ++ archive_marker)) = false.
Proof.
  intros Hnone Hj. pose proof (proj1 (str_find_None _ _) Hnone) as Hn.
  destruct (le_lt_dec (j + length footer_marker) (length original)) as [Hin|Hout].
  - rewrite startswith_drop_app by done. apply Hn.
  - destruct (startswith footer_marker (drop j (original ++ archive_marker))) eqn:Hs;
      [|reflexivity].
    apply startswith_across in Hs; [|lia..].
    rewrite footer_marker_no_overlap in Hs by lia. discriminate.
Qed.

(** From an index file without any marker, the new file is the old one
    followed by the content region, and generating the index again gives
    the same file. *)
Lemma regenerate_without_markers (original : str) (pub_links : list link)
    (content : str) :
  index_content_of pub_links = Ok content ->
  str_find archive_marker original = None ->
  str_find footer_marker original = None ->
  content_without_footer_marker content ->
  let new_html := index_header original ++ content ++ index_footer original in
  generate_publications_index original pub_links = Ok new_html
  /\ index_header new_html = index_header original
  /\ index_footer new_html = index_footer original
  /\ generate_publications_index new_html pub_links = Ok new_html.
Proof.
  intros Hc Ha Hf Hclean new_html.
  destruct (generate_publications_index_content original _ _ Hc) as [Hgen Hstarts].
  assert (Eh : index_header original = original)
    by (unfold index_header; by rewrite Ha).
  assert (Ef : index_footer original = [])
    by (unfold index_footer; by rewrite Hf).
  pose proof (archive_marker_appended original [] Ha) as Harchive.
  rewrite app_nil_r in Harchive.
  assert (Hbefore : forall j, j < length original ->
             startswith footer_marker (drop j (original ++ archive_marker)) = false)
    by (intros j Hj; by apply no_footer_marker_across).
  assert (Htake : take (length original) (original ++ archive_marker) = original)
    by apply take_app_length.
  assert (Hh : index_header new_html = index_header original
               /\ index_footer new_html = index_footer original).
  { subst new_html. rewrite Eh, Ef, app_nil_r. split.
    - pose proof (new_header _ _ Harchive content Hclean Hstarts []) as H.
      by rewrite Htake, app_nil_r in H.
    - pose proof (new_footer_not_found _ _ Harchive Hbefore content Hclean Hstarts) as H.
      rewrite Htake in H. unfold index_footer. by rewrite H. }
  destruct Hh as [Hheader Hfooter].
  repeat split; try assumption.
  destruct (generate_publications_index_content new_html _ _ Hc) as [Hgen' _].
  by rewrite Hgen', Hheader, Hfooter.
Qed.

(** C8 (amended): when the footer marker of the index file, if it has
    one, is not before its archive marker, and the content region built
    from the links has no footer marker of its own, the new index file is
    the header of the old one, the content region and the footer of the
    old one, and generating the index again from that file and the same
    links gives the same file. *)
Theorem index_regeneration_idempotent (original : str) (pub_links : list link)
    (content : str) :
  index_content_of pub_links = Ok content ->
  footer_not_before_archive original ->
  content_without_footer_marker content ->
  let new_html := index_header original ++ content ++ index_footer original in
  generate_publications_index original pub_links = Ok new_html
  /\ index_header new_html = index_header original
  /\ index_footer new_html = index_footer original
  /\ generate_publications_index new_html pub_links = Ok new_html.
Proof.
  intros Hc Horder Hclean.
  destruct (str_find archive_marker original) as [header_end|] eqn:Ha.
  - apply regenerate_same_file; [exact Hc| |exact Hclean].
    unfold footer_not_before_archive, markers_in_order in *. rewrite Ha in *.
    by destruct (str_find footer_marker original).
  - destruct (str_find footer_marker original) as [footer_start|] eqn:Hf.
    + unfold footer_not_before_archive in Horder. by rewrite Hf, Ha in Horder.
    + by apply regenerate_without_markers.
Qed.

Lemma index_regeneration_idempotent_witness :
  exists content new_html,
    index_content_of [article_link; book_link] = Ok content
    /\ generate_publications_index index_template [article_link; book_link] = Ok new_html
    /\ generate_publications_index new_html [article_link; book_link] = Ok new_html.
Proof.
  destruct (index_content_of [article_link; book_link]) as [content|e] eqn:Hc;
    [|vm_compute in Hc; discriminate].
  exists content, (index_header index_template ++ content ++ index_footer index_template).
  assert (Hclean : content_without_footer_marker content).
  { vm_compute in Hc. injection Hc as <-. vm_compute. reflexivity. }
  destruct (index_regeneration_idempotent index_template [article_link; book_link]
              content Hc ltac:(vm_compute; lia) Hclean) as (H1 & _ & _ & H2).
  repeat split; assumption.
Defined.

(** From an index file without any marker the second run gives the file
    of the first. *)
Example index_regeneration_without_markers :
  exists new_html,
    generate_publications_index index_no_marker [article_link; book_link] = Ok new_html
    /\ generate_publications_index new_html [article_link; book_link] = Ok new_html.
Proof. eexists. split; vm_compute; reflexivity. Qed.

(** X20: running [main] again on the same bibliography and on the index
    file that it wrote gives the same detail files and the same index
    file, when the index file it started from has the archive marker and
    its footer marker, if any, is not before it. *)
Corollary main_rerun_idempotent (bib index : str) (files : list (str * page))
    (new_index : str) :
  main bib index = Ok (files, new_index) ->
  markers_in_order index ->
  main bib new_index = Ok (files, new_index).
Proof.
  unfold main. intros Hmain Horder.
  destruct (parse_bibtex bib) as [publications|] eqn:Hp; cbn [bind] in *; [|discriminate].
  destruct (generate_publications_index index _) as [new_html|] eqn:Hg;
    cbn [bind] in Hmain; [|discriminate].
  injection Hmain as <- <-.
  destruct (index_content_of (map make_link publications)) as [content|] eqn:Hc.
  - pose proof (parse_bibtex_links_no_newline bib publications Hp) as Hlinks.
    assert (Hclean : content_without_footer_marker content).
    { unfold index_content_of in Hc.
      destruct (sort_by_key_desc _ (map make_link publications)) as [sorted|] eqn:Hs;
        [|discriminate].
      injection Hc as <-. apply content_no_footer_marker.
      eapply Permutation_Forall; [symmetry; by eapply sort_by_key_desc_perm | exact Hlinks]. }
    destruct (regenerate_same_file index _ content Hc Horder Hclean)
      as (H1 & _ & _ & H2).
    rewrite H1 in Hg. injection Hg as <-. by rewrite H2.
  - unfold index_content_of, generate_publications_index in *.
    destruct (sort_by_key_desc _ (map make_link publications)); discriminate.
Qed.

(** C8, as stated, fails in three cases.  From an index file with the
    footer marker and no archive marker, the new file holds the old file
    and its footer again, and generating the index from the new file
    gives a longer file; so it is from a file whose footer marker is
    before its archive marker, and with a link whose title holds the
    footer marker. *)
Lemma index_regeneration_grows :
  (exists new_html new_html',
      generate_publications_index index_footer_only [] = Ok new_html
      /\ generate_publications_index new_html [] = Ok new_html'
      /\ length new_html < length new_html')
  /\ (exists new_html new_html',
        generate_publications_index index_footer_first [] = Ok new_html
        /\ generate_publications_index new_html [] = Ok new_html'
        /\ length new_html < length new_html')
  /\ (exists new_html new_html',
        generate_publications_index index_template [marker_title_link] = Ok new_html
        /\ generate_publications_index new_html [marker_title_link] = Ok new_html'
        /\ length new_html < length new_html').
Proof.
  split; [|split]; (eexists; eexists;
    split; [vm_compute; reflexivity|];
    split; [vm_compute; reflexivity|];
    vm_compute; lia).
Qed.

(** ** Authors written on several lines *)

(** White space around the word [and] in the file is single spaces by the
    time the authors are formatted. *)
Example authors_across_lines :
  let bib :=
    lit "@article{k, author = {A. One and" ++ [nl] ++ lit "   B. Two"
    ++ [ascii_of_nat 9] ++ lit "and C. Three}, year = {2020}" ++ [nl] ++ lit "}" in
  match main bib index_template with
  | Ok (files, _) => map (fun f => page_authors (snd f)) files
  | Raise _ => []
  end = [lit "A. One, B. Two, and C. Three"].
Proof. vm_compute. reflexivity. Qed.

(* ===================================================================== *)
(** * Further properties *)
(* ===================================================================== *)

(** ** The cleaner *)

(** X1: in the text that [clean_latex] returns, white space is single
    spaces between other characters: no white-space character but the
    space, no two of them next to each other, none at the start and none
    at the end. *)
Theorem clean_latex_whitespace (text : str) : single_spaced (clean_latex text).
Proof. apply clean_latex_single_spaced. Qed.

Lemma collapse_ws_go_id (s : str) (in_run : bool) :
  (forall c, c ∈ s -> is_space c = true -> c = space) ->
  no_space_run s = true ->
  (in_run = true -> forall c, head s = Some c -> is_space c = false) ->
  collapse_ws_go s in_run = s.
Proof.
  revert in_run. induction s as [|a s IH]; intros in_run Hsp Hrun Hhead; [reflexivity|].
  cbn [collapse_ws_go].
  assert (Hsp' : forall c, c ∈ s -> is_space c = true -> c = space)
    by (intros c Hc; apply Hsp; by right).
  pose proof (no_space_run_tail _ _ Hrun) as Hrun'.
  destruct (is_space a) eqn:Ha.
  - destruct in_run.
    + specialize (Hhead eq_refl a eq_refl). congruence.
    + rewrite (Hsp a ltac:(by left) Ha). f_equal. apply IH; [done..|].
      intros _ c Hc. destruct s as [|b s]; [done|]. injection Hc as ->.
      rewrite no_space_run_cons, Ha in Hrun.
      destruct (is_space c); [discriminate | reflexivity].
  - f_equal. apply IH; [done..|discriminate].
Qed.

Lemma lstrip_id (s : str) :
  (forall c, head s = Some c -> is_space c = false) -> lstrip s = s.
Proof.
  destruct s as [|a s]; [reflexivity|]. intros H. cbn [lstrip].
  by rewrite (H a eq_refl).
Qed.

Lemma head_rev_last (s : str) : head (rev s) = last s.
Proof. rewrite <- (rev_involutive s) at 2. symmetry. apply last_rev_head. Qed.

Lemma strip_id (s : str) :
  (forall c, head s = Some c -> is_space c = false) ->
  (forall c, last s = Some c -> is_space c = false) ->
  strip s = s.
Proof.
  intros Hh Hl. unfold strip, rstrip. rewrite (lstrip_id s Hh).
  rewrite lstrip_id; [apply rev_involutive|].
  intros c Hc. apply Hl. by rewrite <- head_rev_last.
Qed.

Lemma clean_loop_no_brace (fuel : nat) (text : str) :
  contains_char lbrace text = false -> clean_loop fuel text = text.
Proof. intros H. destruct fuel; [reflexivity|]. cbn [clean_loop]. by rewrite H. Qed.

Lemma clean_latex_id (text : str) :
  single_spaced text -> contains_char lbrace text = false ->
  clean_latex text = text.
Proof.
  intros (Hsp & Hrun & Hh & Hl) Hb. destruct text as [|c text]; [reflexivity|].
  unfold clean_latex, collapse_ws. rewrite clean_loop_no_brace by done.
  rewrite collapse_ws_go_id by (done || discriminate).
  by apply strip_id.
Qed.

(** X3: when the text that [clean_latex] returns has no opening brace,
    cleaning it again changes nothing, and the title of the page of a
    record that holds it as its title is that text. *)
Theorem clean_latex_fixed_point (text : str) :
  contains_char lbrace (clean_latex text) = false ->
  clean_latex (clean_latex text) = clean_latex text
  /\ forall pub : gmap str str,
       pub !! lit "title" = Some (clean_latex text) ->
       get_publication_title pub = clean_latex text.
Proof.
  intros Hb.
  assert (Hid : clean_latex (clean_latex text) = clean_latex text)
    by (apply clean_latex_id; [apply clean_latex_single_spaced | exact Hb]).
  split; [exact Hid|].
  intros pub Hpub. unfold get_publication_title, get. rewrite Hpub, Hid.
  destruct (clean_latex_single_spaced text) as (_ & _ & Hh & Hl).
  by apply strip_id.
Qed.

Lemma clean_latex_fixed_point_witness :
  clean_latex (clean_latex (lit " A  {GF}(2) code ")) = clean_latex (lit " A  {GF}(2) code ")
  /\ forall pub : gmap str str,
       pub !! lit "title" = Some (clean_latex (lit " A  {GF}(2) code ")) ->
       get_publication_title pub = clean_latex (lit " A  {GF}(2) code ").
Proof.
  apply (clean_latex_fixed_point (lit " A  {GF}(2) code ")).
  vm_compute. reflexivity.
Defined.

Lemma clean_loop_more_fuel (fuel : nat) (text : str) :
  length text <= fuel -> clean_loop (S fuel) text = clean_loop fuel text.
Proof.
  revert text. induction fuel as [|fuel IH]; intros text Hlen.
  - destruct text; [reflexivity | cbn in Hlen; lia].
  - change (clean_loop (S (S fuel)) text)
      with (if contains_char lbrace text then
              if str_eqb (sub_inner (sub_outer text)) text
              then sub_inner (sub_outer text)
              else clean_loop (S fuel) (sub_inner (sub_outer text))
            else text).
    change (clean_loop (S fuel) text)
      with (if contains_char lbrace text then
              if str_eqb (sub_inner (sub_outer text)) text
              then sub_inner (sub_outer text)
              else clean_loop fuel (sub_inner (sub_outer text))
            else text).
    destruct (contains_char lbrace text); [|reflexivity].
    unfold str_eqb. case_bool_decide as Heq; [reflexivity|].
    apply IH.
    destruct (sub_outer_length text) as [Ho|Ho],
             (sub_inner_length (sub_outer text)) as [Hi|Hi].
    + rewrite Hi, Ho in Heq. done.
    + rewrite Ho in Hi |- *. lia.
    + rewrite Hi. lia.
    + lia.
Qed.

(** X4: the loop of [clean_latex] ends by itself: with [length text]
    passes allowed or with more it returns the same text, and that text
    has no opening brace or is one that a further pass does not
    change. *)
Theorem clean_loop_ends (text : str) (fuel : nat) :
  length text <= fuel ->
  clean_loop fuel text = clean_loop (length text) text
  /\ (contains_char lbrace (clean_loop fuel text) = false
      \/ sub_inner (sub_outer (clean_loop fuel text)) = clean_loop fuel text).
Proof.
  intros Hlen. split; [|by apply clean_loop_exit].
  induction Hlen as [|fuel Hlen IH]; [reflexivity|].
  by rewrite clean_loop_more_fuel.
Qed.

Lemma clean_loop_ends_witness :
  clean_loop 100 (lit "{{a} {b}}") = clean_loop (length (lit "{{a} {b}}")) (lit "{{a} {b}}")
  /\ (contains_char lbrace (clean_loop 100 (lit "{{a} {b}}")) = false
      \/ sub_inner (sub_outer (clean_loop 100 (lit "{{a} {b}}")))
         = clean_loop 100 (lit "{{a} {b}}")).
Proof. apply (clean_loop_ends (lit "{{a} {b}}") 100). vm_compute. lia. Defined.

(** What each stage of the cleaner keeps. *)

Lemma plain_char_lbrace : plain_char lbrace = false.
Proof. reflexivity. Qed.

Lemma plain_char_rbrace : plain_char rbrace = false.
Proof. reflexivity. Qed.

Lemma plain_char_space (c : ascii) : is_space c = true -> plain_char c = false.
Proof. intros H. unfold plain_char. by rewrite H. Qed.

Lemma endswith_char_snoc (c : ascii) (s : str) :
  endswith_char c s = true -> s = take (length s - 1) s ++ [c].
Proof.
  unfold endswith_char. destruct s as [|a s _] using rev_ind; [discriminate|].
  rewrite rev_app_distr. cbn. unfold ascii_eqb.
  intros ->%Ascii.eqb_eq. rewrite length_app. cbn [length].
  replace (length s + 1 - 1) with (length s) by lia. by rewrite take_app_length.
Qed.

Lemma wrapped_decompose (c d : ascii) (s : str) :
  startswith_char c s = true -> endswith_char d s = true -> 2 <= length s ->
  s = c :: slice_1_m1 s ++ [d].
Proof.
  intros Hc Hd Hlen. unfold slice_1_m1.
  pose proof (endswith_char_snoc d s Hd) as Hs.
  destruct s as [|a s]; [discriminate|].
  cbn in Hc. unfold ascii_eqb in Hc. apply Ascii.eqb_eq in Hc as ->.
  cbn [length] in *.
  destruct (take (S (length s) - 1) (c :: s)) as [|b t] eqn:Ht.
  - apply (f_equal length) in Ht. rewrite length_take in Ht. cbn [length] in Ht. lia.
  - rewrite Hs. cbn [app] in *. injection Hs as <- Hs. cbn [drop]. reflexivity.
Qed.

Lemma filter_plain_wrapped (c d : ascii) (mid : str) :
  plain_char c = false -> plain_char d = false ->
  List.filter plain_char (c :: mid ++ [d]) = List.filter plain_char mid.
Proof.
  intros Hc Hd. cbn [List.filter]. rewrite Hc, List.filter_app.
  cbn [List.filter]. rewrite Hd. apply app_nil_r.
Qed.

Lemma filter_plain_snoc (d : ascii) (s : str) :
  plain_char d = false ->
  List.filter plain_char (s ++ [d]) = List.filter plain_char s.
Proof.
  intros Hd. rewrite List.filter_app. cbn [List.filter]. rewrite Hd. apply app_nil_r.
Qed.

Lemma filter_plain_slice (body : str) :
  startswith_char lbrace body = true -> endswith_char rbrace body = true ->
  2 <= length body ->
  List.filter plain_char (slice_1_m1 body) = List.filter plain_char body.
Proof.
  intros Hs He Hlen. pose proof (wrapped_decompose _ _ _ Hs He Hlen) as H.
  set (m := slice_1_m1 body) in *. clearbody m. subst body.
  symmetry. by apply filter_plain_wrapped.
Qed.

Lemma filter_plain_sub_outer (text : str) :
  List.filter plain_char (sub_outer text) = List.filter plain_char text.
Proof.
  unfold sub_outer.
  destruct (endswith_char nl text) eqn:Hnl.
  - destruct (_ && _) eqn:Hm; [|reflexivity].
    apply andb_prop in Hm as [Hm _]. apply andb_prop in Hm as [Hm Hlen].
    apply andb_prop in Hm as [Hs He]. apply Nat.leb_le in Hlen.
    pose proof (endswith_char_snoc nl text Hnl) as Ht.
    set (body := take (length text - 1) text) in *. clearbody body. subst text.
    rewrite !(filter_plain_snoc nl) by reflexivity.
    apply filter_plain_slice; [done | done | lia].
  - destruct (_ && _) eqn:Hm; [|reflexivity].
    apply andb_prop in Hm as [Hm _]. apply andb_prop in Hm as [Hm Hlen].
    apply andb_prop in Hm as [Hs He]. apply Nat.leb_le in Hlen.
    rewrite app_nil_r. apply filter_plain_slice; [done | done | lia].
Qed.

Lemma filter_plain_sub_inner_go (s : str) (skip : nat) :
  List.filter plain_char (sub_inner_go s skip) = List.filter plain_char (drop skip s).
Proof.
  revert skip. induction s as [|c s IH]; intros skip.
  - by rewrite drop_nil.
  - destruct skip as [|k]; cbn [sub_inner_go drop]; [|apply IH].
    assert (Hkeep : List.filter plain_char (c :: sub_inner_go s 0)
                    = List.filter plain_char (c :: s)).
    { cbn [List.filter]. rewrite (IH 0), drop_0. reflexivity. }
    destruct (ascii_eqb c lbrace) eqn:Hc; [|exact Hkeep].
    destruct (span not_brace s) as [[|a run] [|r rest]] eqn:Hspan; try exact Hkeep.
    destruct (ascii_eqb r rbrace) eqn:Hr; [|exact Hkeep].
    unfold ascii_eqb in Hc, Hr. apply Ascii.eqb_eq in Hc as ->, Hr as ->.
    apply span_app in Hspan. rewrite List.filter_app, IH.
    cbn [List.filter]. rewrite plain_char_lbrace. rewrite Hspan at 2.
    rewrite List.filter_app. cbn [List.filter]. rewrite plain_char_rbrace.
    f_equal. rewrite Hspan.
    rewrite drop_app_ge by lia.
    replace (length (a :: run) + 1 - length (a :: run)) with 1 by lia.
    reflexivity.
Qed.

Lemma filter_plain_collapse (s : str) (in_run : bool) :
  List.filter plain_char (collapse_ws_go s in_run) = List.filter plain_char s.
Proof.
  revert in_run. induction s as [|c s IH]; intros in_run; [reflexivity|].
  cbn [collapse_ws_go List.filter].
  destruct (is_space c) eqn:Hc.
  - rewrite (plain_char_space c Hc). destruct in_run; [apply IH|].
    cbn [List.filter]. rewrite (plain_char_space (ascii_of_nat 32) eq_refl). apply IH.
  - cbn [List.filter]. by rewrite IH.
Qed.

Lemma filter_plain_lstrip (s : str) :
  List.filter plain_char (lstrip s) = List.filter plain_char s.
Proof.
  induction s as [|c s IH]; [reflexivity|]. cbn [lstrip].
  destruct (is_space c) eqn:Hc; [|reflexivity].
  cbn [List.filter]. by rewrite (plain_char_space c Hc).
Qed.

Lemma filter_plain_strip (s : str) :
  List.filter plain_char (strip s) = List.filter plain_char s.
Proof.
  unfold strip, rstrip.
  rewrite List.filter_rev, filter_plain_lstrip, <- List.filter_rev, rev_involutive.
  apply filter_plain_lstrip.
Qed.

Lemma filter_plain_clean_loop (fuel : nat) (text : str) :
  List.filter plain_char (clean_loop fuel text) = List.filter plain_char text.
Proof.
  revert text. induction fuel as [|fuel IH]; intros text; [reflexivity|].
  cbn [clean_loop]. destruct (contains_char lbrace text); [|reflexivity].
  assert (Hpass : List.filter plain_char (sub_inner (sub_outer text))
                  = List.filter plain_char text).
  { unfold sub_inner. by rewrite filter_plain_sub_inner_go, drop_0, filter_plain_sub_outer. }
  destruct (str_eqb _ _); [exact Hpass | by rewrite IH].
Qed.

(** X2: [clean_latex] removes or changes braces and white space only: the
    other characters of the text are all kept, in their order, and none
    is added. *)
Theorem clean_latex_keeps_plain_characters (text : str) :
  List.filter plain_char (clean_latex text) = List.filter plain_char text.
Proof.
  destruct text as [|c text]; [reflexivity|].
  unfold clean_latex, collapse_ws.
  by rewrite filter_plain_strip, filter_plain_collapse, filter_plain_clean_loop.
Qed.

(** ** Values and fields *)

Lemma lstrip_spaces (ws s : str) :
  Forall (fun c => is_space c = true) ws -> lstrip (ws ++ s) = lstrip s.
Proof. induction 1 as [|c ws Hc _ IH]; [reflexivity|]. cbn [app lstrip]. by rewrite Hc. Qed.

Lemma lstrip_cons_keep (c : ascii) (s : str) :
  is_space c = false -> lstrip (c :: s) = c :: s.
Proof. intros H. cbn [lstrip]. by rewrite H. Qed.

Lemma strip_delimited (ws1 ws2 mid : str) (c d : ascii) :
  Forall (fun c => is_space c = true) ws1 ->
  Forall (fun c => is_space c = true) ws2 ->
  is_space c = false -> is_space d = false ->
  strip (ws1 ++ [c] ++ mid ++ [d] ++ ws2) = c :: mid ++ [d].
Proof.
  intros H1 H2 Hc Hd. unfold strip, rstrip.
  rewrite lstrip_spaces by done. cbn [app]. rewrite lstrip_cons_keep by done.
  change (c :: mid ++ d :: ws2) with ((c :: mid) ++ [d] ++ ws2).
  rewrite !rev_app_distr, <- app_assoc.
  rewrite lstrip_spaces by (by apply Forall_rev).
  cbn [rev app]. rewrite lstrip_cons_keep by done.
  change (d :: rev mid ++ [c]) with ([d] ++ (rev mid ++ [c])).
  rewrite rev_app_distr, rev_app_distr, rev_involutive. reflexivity.
Qed.

Lemma slice_1_m1_wrapped (c d : ascii) (mid : str) :
  slice_1_m1 (c :: mid ++ [d]) = mid.
Proof.
  unfold slice_1_m1. cbn [length]. rewrite length_app. cbn [length].
  replace (S (length mid + 1) - 1) with (S (length mid)) by lia.
  cbn [take drop]. by rewrite take_app_length.
Qed.

Lemma endswith_char_wrapped (c d : ascii) (mid : str) :
  endswith_char d (c :: mid ++ [d]) = true.
Proof.
  unfold endswith_char.
  change (c :: mid ++ [d]) with ((c :: mid) ++ [d]). rewrite rev_app_distr.
  cbn. unfold ascii_eqb. apply Ascii.eqb_refl.
Qed.

Lemma parse_field_value_delimited (d : delimiter) (ws1 ws2 value : str) :
  Forall (fun c => is_space c = true) ws1 ->
  Forall (fun c => is_space c = true) ws2 ->
  parse_field_value (ws1 ++ delimited d value ++ ws2) = value.
Proof.
  intros H1 H2. unfold parse_field_value, delimited.
  rewrite <- !app_assoc.
  rewrite (strip_delimited ws1 ws2 value (opening d) (closing d) H1 H2)
    by (by destruct d).
  destruct d; cbn [opening closing].
  - change (startswith_char dq (lbrace :: value ++ [rbrace])) with false.
    cbn [andb]. rewrite endswith_char_wrapped. cbn [startswith_char andb].
    apply slice_1_m1_wrapped.
  - rewrite endswith_char_wrapped. cbn [startswith_char andb].
    apply slice_1_m1_wrapped.
Qed.

(** X5: [parse_field_value] takes the white space around a value and one
    pair of delimiters away: from a text between braces or between double
    quotes, with white space before and after, it returns the text
    between the delimiters as it is, inner braces and quotes included. *)
Theorem parse_field_value_unwraps (ws1 ws2 value : str) :
  Forall (fun c => is_space c = true) ws1 ->
  Forall (fun c => is_space c = true) ws2 ->
  parse_field_value (ws1 ++ [lbrace] ++ value ++ [rbrace] ++ ws2) = value
  /\ parse_field_value (ws1 ++ [dq] ++ value ++ [dq] ++ ws2) = value.
Proof.
  intros H1 H2. split.
  - pose proof (parse_field_value_delimited Braces ws1 ws2 value H1 H2) as H.
    unfold delimited in H. by rewrite <- !app_assoc in H.
  - pose proof (parse_field_value_delimited Quotes ws1 ws2 value H1 H2) as H.
    unfold delimited in H. by rewrite <- !app_assoc in H.
Qed.

Lemma parse_field_value_unwraps_witness :
  parse_field_value (lit "  " ++ [lbrace] ++ lit "A {B} c" ++ [rbrace] ++ [nl]) = lit "A {B} c"
  /\ parse_field_value (lit "  " ++ [dq] ++ lit "A {B} c" ++ [dq] ++ [nl]) = lit "A {B} c".
Proof.
  apply (parse_field_value_unwraps (lit "  ") [nl] (lit "A {B} c"));
    repeat constructor.
Defined.

(** *** The end of a value *)

Lemma brace_loop_balanced (value rest : str) (i depth : nat) (base : Z) :
  balanced_go value depth = true -> (0 < base)%Z ->
  brace_loop (value ++ rest) i (base + Z.of_nat depth)
  = brace_loop rest (i + length value) base.
Proof.
  revert i depth. induction value as [|c v IH]; intros i depth Hb Hbase.
  - cbn in Hb. apply Nat.eqb_eq in Hb as ->. cbn [app length].
    by rewrite Z.add_0_r, Nat.add_0_r.
  - cbn [app brace_loop balanced_go length] in *.
    destruct (ascii_eqb c lbrace).
    + replace (base + Z.of_nat depth + 1)%Z with (base + Z.of_nat (S depth))%Z by lia.
      rewrite (IH (S i) (S depth) Hb Hbase). f_equal. lia.
    + destruct (ascii_eqb c rbrace).
      * destruct depth as [|d]; [discriminate|].
        replace (base + Z.of_nat (S d) - 1)%Z with (base + Z.of_nat d)%Z by lia.
        destruct (Z.eqb_spec (base + Z.of_nat d) 0) as [H0|_]; [lia|].
        rewrite (IH (S i) d Hb Hbase). f_equal. lia.
      * rewrite (IH (S i) depth Hb Hbase). f_equal. lia.
Qed.

Lemma str_find_char (c : ascii) (value rest : str) :
  c ∉ value -> str_find [c] (value ++ c :: rest) = Some (length value).
Proof.
  induction value as [|a v IH]; intros Hc.
  - cbn. unfold ascii_eqb. by rewrite Ascii.eqb_refl.
  - apply not_elem_of_cons in Hc as [Hne Hc].
    cbn [app str_find startswith]. unfold ascii_eqb.
    destruct (Ascii.eqb_spec c a) as [->|_]; [done|].
    cbn [andb]. by rewrite (IH Hc).
Qed.

Lemma find_value_end_delimited (d : delimiter) (before value after : str) :
  enclosed d value ->
  find_value_end (before ++ delimited d value ++ after) (length before)
  = length before + length value + 2.
Proof.
  intros He. unfold find_value_end, delimited.
  rewrite lookup_app_r, Nat.sub_diag by lia.
  rewrite drop_app_length. rewrite <- !app_assoc.
  destruct d; cbn [opening closing enclosed app] in *.
  - change ((lbrace :: value ++ rbrace :: after) !! 0) with (Some lbrace).
    change (ascii_eqb lbrace lbrace) with true. cbn [brace_loop].
    change (ascii_eqb lbrace lbrace) with true. cbn match.
    pose proof (brace_loop_balanced value (rbrace :: after) (S (length before)) 0 1 He
                  ltac:(lia)) as Hl.
    cbn [Z.of_nat] in Hl. rewrite Z.add_0_r in Hl.
    change (0 + 1)%Z with 1%Z. rewrite Hl.
    cbn [brace_loop]. change (ascii_eqb rbrace lbrace) with false.
    change (ascii_eqb rbrace rbrace) with true.
    change (1 - 1 =? 0)%Z with true. cbn match. lia.
  - change ((dq :: value ++ dq :: after) !! 0) with (Some dq). cbv beta match.
    change (ascii_eqb dq lbrace) with false. change (ascii_eqb dq dq) with true.
    cbv beta match. unfold str_find_from.
    rewrite drop_app_ge by lia.
    replace (length before + 1 - length before) with 1 by lia. cbn [drop].
    change (drop 0 (value ++ dq :: after)) with (value ++ dq :: after).
    rewrite (str_find_char dq value after He). cbn. lia.
Qed.

(** X6: the end of a value is found where its closing delimiter is: for a
    value between braces whose own braces match, and for a value between
    double quotes that has no double quote, [value_end] is the position
    after the closing delimiter, whatever follows. *)
Theorem find_value_end_closing (d : delimiter) (before value after : str) :
  enclosed d value ->
  find_value_end (before ++ [opening d] ++ value ++ [closing d] ++ after)
    (length before)
  = length before + length value + 2.
Proof.
  intros He. pose proof (find_value_end_delimited d before value after He) as H.
  unfold delimited in H. by rewrite <- !app_assoc in H.
Qed.

Lemma find_value_end_closing_witness :
  find_value_end
    (lit "title = " ++ [opening Braces] ++ lit "A {B {C}} d" ++ [closing Braces]
     ++ lit ", year = {2020}") (length (lit "title = "))
  = length (lit "title = ") + length (lit "A {B {C}} d") + 2.
Proof.
  apply (find_value_end_closing Braces (lit "title = ") (lit "A {B {C}} d")
           (lit ", year = {2020}")).
  vm_compute. reflexivity.
Defined.

(** *** One iteration on a well-formed field *)

Lemma is_space_not_word (c : ascii) : is_space c = true -> is_word c = false.
Proof. destruct c as [[] [] [] [] [] [] [] []]; vm_compute; congruence. Qed.

Lemma span_run (f : ascii -> bool) (run rest : str) :
  Forall (fun c => f c = true) run ->
  (forall c, head rest = Some c -> f c = false) ->
  span f (run ++ rest) = (run, rest).
Proof.
  intros Hrun Hrest. induction Hrun as [|c run Hc _ IH].
  - destruct rest as [|c rest]; [reflexivity|]. cbn [app span].
    by rewrite (Hrest c eq_refl).
  - cbn [app span]. by rewrite Hc, IH.
Qed.

Lemma match_assign_name (name ws1 ws2 rest : str) (c : ascii) :
  name <> [] -> Forall (fun c => is_word c = true) name ->
  Forall (fun c => is_space c = true) ws1 ->
  Forall (fun c => is_space c = true) ws2 ->
  is_space c = false ->
  match_assign (name ++ ws1 ++ [equals_sign] ++ ws2 ++ c :: rest)
  = Some (name, length name + length ws1 + 1 + length ws2).
Proof.
  intros Hne Hname H1 H2 Hc. unfold match_assign.
  assert (Hw : span is_word (name ++ ws1 ++ [equals_sign] ++ ws2 ++ c :: rest)
               = (name, ws1 ++ [equals_sign] ++ ws2 ++ c :: rest)).
  { apply span_run; [done|]. intros a Ha. destruct ws1 as [|b ws1].
    - injection Ha as <-. reflexivity.
    - injection Ha as <-. apply is_space_not_word. by inversion H1. }
  assert (Hs1 : span is_space (ws1 ++ [equals_sign] ++ ws2 ++ c :: rest)
                = (ws1, [equals_sign] ++ ws2 ++ c :: rest)).
  { apply span_run; [done|]. intros a Ha. injection Ha as <-. reflexivity. }
  assert (Hs2 : span is_space (ws2 ++ c :: rest) = (ws2, c :: rest)).
  { apply span_run; [done|]. intros a Ha. by injection Ha as <-. }
  rewrite Hw. destruct name as [|n0 name]; [done|].
  rewrite Hs1. cbn [app]. change (ascii_eqb equals_sign equals_sign) with true.
  cbv beta match. by rewrite Hs2.
Qed.

Lemma match_assign_not_word (c : ascii) (s : str) :
  is_word c = false -> match_assign (c :: s) = None.
Proof. intros H. unfold match_assign. cbn [span]. by rewrite H. Qed.

Lemma search_assign_sep (sep s : str) (name : str) (n : nat) :
  Forall (fun c => is_word c = false) sep ->
  match_assign s = Some (name, n) ->
  search_assign (sep ++ s) = Some (name, length sep + n).
Proof.
  intros Hsep Hs. induction Hsep as [|c sep Hc _ IH].
  - destruct s; cbn [app search_assign]; by rewrite Hs.
  - cbn [app search_assign]. rewrite (match_assign_not_word c _ Hc), IH. reflexivity.
Qed.

Lemma search_assign_none (s : str) :
  Forall (fun c => is_word c = false) s -> search_assign s = None.
Proof.
  induction 1 as [|c s Hc _ IH]; [reflexivity|].
  cbn [search_assign]. by rewrite (match_assign_not_word c s Hc), IH.
Qed.

Lemma delimited_length (d : delimiter) (value : str) :
  length (delimited d value) = length value + 2.
Proof. unfold delimited. rewrite !length_app. cbn [length]. lia. Qed.

Lemma field_text_length (f : field_src) :
  length (field_text f)
  = length (fs_sep f) + length (fs_name f) + length (fs_before_eq f) + 1
    + length (fs_after_eq f) + length (fs_value f) + 2.
Proof. unfold field_text. rewrite !length_app, delimited_length. cbn [length]. lia. Qed.

Lemma scan_step_field_ok (before : str) (f : field_src) (after : str) :
  field_ok f ->
  scan_step (before ++ field_text f ++ after) (length before)
  = Store (fst (field_stored f)) (snd (field_stored f))
      (length before + length (field_text f)).
Proof.
  intros (Hsep & Hne & Hname & H1 & H2 & Hv).
  unfold scan_step. rewrite drop_app_length.
  assert (Hsearch : search_assign (field_text f ++ after)
                    = Some (fs_name f,
                            length (fs_sep f)
                            + (length (fs_name f) + length (fs_before_eq f) + 1
                               + length (fs_after_eq f)))).
  { unfold field_text, delimited. rewrite <- !app_assoc.
    apply search_assign_sep; [done|].
    cbn [app]. apply match_assign_name; try done. by destruct (fs_delimiter f). }
  rewrite Hsearch.
  set (prefix := before ++ fs_sep f ++ fs_name f ++ fs_before_eq f ++ [equals_sign]
                 ++ fs_after_eq f).
  assert (Hfields : before ++ field_text f ++ after
                    = prefix ++ delimited (fs_delimiter f) (fs_value f) ++ after).
  { unfold prefix, field_text. by rewrite <- !app_assoc. }
  assert (Hstart : length before
                   + (length (fs_sep f)
                      + (length (fs_name f) + length (fs_before_eq f) + 1
                         + length (fs_after_eq f)))
                   = length prefix).
  { unfold prefix. rewrite !length_app. cbn [length]. lia. }
  rewrite Hstart, Hfields, find_value_end_delimited by done.
  destruct (Nat.ltb_spec (length prefix) (length prefix + length (fs_value f) + 2));
    [|lia].
  f_equal.
  - unfold slice.
    replace (length prefix + length (fs_value f) + 2)
      with (length (prefix ++ delimited (fs_delimiter f) (fs_value f)))
      by (rewrite length_app, delimited_length; lia).
    rewrite app_assoc, take_app_length, drop_app_length.
    pose proof (parse_field_value_delimited (fs_delimiter f) [] [] (fs_value f)
                  ltac:(constructor) ltac:(constructor)) as Hp.
    cbn [app] in Hp. rewrite app_nil_r in Hp. by rewrite Hp.
  - rewrite field_text_length. lia.
Qed.

(** The conditions of [field_ok] on a field that is written out. *)
Ltac enclosed_check :=
  cbn [enclosed fs_delimiter fs_value];
  first [ reflexivity
        | rewrite list_elem_of_In; vm_compute; intuition discriminate ].

Ltac field_ok_check :=
  unfold field_ok;
  cbn [fs_sep fs_name fs_before_eq fs_after_eq];
  repeat split; first [ discriminate | enclosed_check | repeat constructor ].

(** X7: on a well-formed field (no word character before the name, a name
    of word characters, an equals sign with white space around it, a
    value between braces that match or between double quotes), one
    iteration of the field loop stores the name in lower case with the
    cleaned value and moves the scan position to the character after the
    closing delimiter. *)
Theorem scan_step_stores_field (before : str) (f : field_src) (after : str) :
  field_ok f ->
  scan_step (before ++ field_text f ++ after) (length before)
  = Store (lower (fs_name f)) (clean_latex (strip (fs_value f)))
      (length before + length (field_text f)).
Proof. apply scan_step_field_ok. Qed.

Lemma scan_step_stores_field_witness :
  scan_step
    (lit " title = {A}"
     ++ field_text {| fs_sep := lit "," ++ [nl] ++ lit "  "; fs_name := lit "Journal";
                      fs_before_eq := lit " "; fs_after_eq := lit " ";
                      fs_delimiter := Quotes; fs_value := lit "J.  of {X}" |}
     ++ [nl])
    (length (lit " title = {A}"))
  = Store (lit "journal") (lit "J. of X") 38.
Proof.
  apply (scan_step_stores_field (lit " title = {A}")
           {| fs_sep := lit "," ++ [nl] ++ lit "  "; fs_name := lit "Journal";
              fs_before_eq := lit " "; fs_after_eq := lit " ";
              fs_delimiter := Quotes; fs_value := lit "J.  of {X}" |} [nl]).
  field_ok_check.
Defined.

(** *** The fields of a record body *)

Lemma field_text_nonempty (f : field_src) : 0 < length (field_text f).
Proof. rewrite field_text_length. lia. Qed.

Lemma fields_text_length (fs : list field_src) :
  length fs <= length (fields_text fs).
Proof.
  induction fs as [|f fs IH]; [cbn; lia|].
  unfold fields_text in *. cbn [map concat length]. rewrite length_app.
  pose proof (field_text_nonempty f). lia.
Qed.

Lemma scan_trace_fields (fs : list field_src) (before tail : str) (fuel : nat) :
  Forall field_ok fs -> Forall (fun c => is_word c = false) tail ->
  length fs <= fuel ->
  scan_trace fuel (before ++ fields_text fs ++ tail) (length before)
  = map field_stored fs.
Proof.
  intros Hfs Htail. revert before fuel.
  induction Hfs as [|f fs Hf _ IH]; intros before fuel Hfuel.
  - destruct fuel as [|fuel]; [reflexivity|]. cbn [scan_trace map].
    destruct (_ <? _); [|reflexivity].
    unfold scan_step, fields_text. cbn [map concat app].
    by rewrite drop_app_length, search_assign_none.
  - destruct fuel as [|fuel]; [cbn in Hfuel; lia|].
    cbn [scan_trace map]. unfold fields_text. cbn [map concat].
    fold (fields_text fs). rewrite <- app_assoc.
    destruct (Nat.ltb_spec (length before)
                (length (before ++ field_text f ++ fields_text fs ++ tail))) as [_|Hge].
    2:{ rewrite !length_app in Hge. pose proof (field_text_nonempty f). lia. }
    rewrite (scan_step_field_ok before f (fields_text fs ++ tail) Hf).
    destruct (field_stored f) as [n v] eqn:Hst. cbn [fst snd]. f_equal.
    rewrite <- length_app.
    rewrite (app_assoc before (field_text f)).
    apply IH. cbn [length] in Hfuel. lia.
Qed.

Lemma field_assignments_fields (fs : list field_src) (tail : str) :
  Forall field_ok fs -> Forall (fun c => is_word c = false) tail ->
  field_assignments (fields_text fs ++ tail) = map field_stored fs.
Proof.
  intros Hfs Htail. unfold field_assignments.
  apply (scan_trace_fields fs [] tail _ Hfs Htail).
  rewrite length_app. pose proof (fields_text_length fs). lia.
Qed.

(** X8: a record body made of well-formed fields is read field by field:
    the loop performs one assignment for each field, in the order of the
    text, of the cleaned value to the name in lower case, and the record
    is the dictionary with the entry type and the key after these
    assignments, so that of two fields with the same name, in any case of
    letters, the later one is kept. *)
Theorem parse_entry_reads_fields (entry_type key : str) (fs : list field_src)
    (tail : str) :
  Forall field_ok fs -> Forall (fun c => is_word c = false) tail ->
  field_assignments (fields_text fs ++ tail) = map field_stored fs
  /\ parse_entry (entry_type, key, fields_text fs ++ tail)
     = assign_all (<[lit "key" := key]> (<[lit "type" := entry_type]> ∅))
         (map field_stored fs)
  /\ forall name : str,
       parse_entry (entry_type, key, fields_text fs ++ tail) !! name
       = match last_assigned name (map field_stored fs) with
         | Some v => Some v
         | None =>
             (<[lit "key" := key]> (<[lit "type" := entry_type]> ∅) : gmap str str)
               !! name
         end.
Proof.
  intros Hfs Htail.
  pose proof (field_assignments_fields fs tail Hfs Htail) as Hfa.
  assert (Hp : parse_entry (entry_type, key, fields_text fs ++ tail)
               = assign_all (<[lit "key" := key]> (<[lit "type" := entry_type]> ∅))
                   (map field_stored fs)).
  { unfold parse_entry. rewrite scan_loop_trace.
    fold (field_assignments (fields_text fs ++ tail)). by rewrite Hfa. }
  split; [exact Hfa|]. split; [exact Hp|].
  intros name. rewrite Hp. apply foldl_insert_lookup.
Qed.

Lemma parse_entry_reads_fields_witness :
  let title := {| fs_sep := [nl] ++ lit "  "; fs_name := lit "Title";
                  fs_before_eq := lit " "; fs_after_eq := lit " ";
                  fs_delimiter := Braces; fs_value := lit "A  {B}" |} in
  let year := {| fs_sep := lit "," ++ [nl] ++ lit "  "; fs_name := lit "year";
                 fs_before_eq := []; fs_after_eq := [];
                 fs_delimiter := Quotes; fs_value := lit "2020" |} in
  let title2 := {| fs_sep := lit ", "; fs_name := lit "TITLE";
                   fs_before_eq := []; fs_after_eq := lit " ";
                   fs_delimiter := Braces; fs_value := lit "C" |} in
  parse_entry (lit "article", lit "k", fields_text [title; year; title2] ++ lit ",")
    !! lit "title" = Some (lit "C").
Proof.
  cbv zeta.
  destruct (parse_entry_reads_fields (lit "article") (lit "k")
    [ {| fs_sep := [nl] ++ lit "  "; fs_name := lit "Title";
         fs_before_eq := lit " "; fs_after_eq := lit " ";
         fs_delimiter := Braces; fs_value := lit "A  {B}" |};
      {| fs_sep := lit "," ++ [nl] ++ lit "  "; fs_name := lit "year";
         fs_before_eq := []; fs_after_eq := [];
         fs_delimiter := Quotes; fs_value := lit "2020" |};
      {| fs_sep := lit ", "; fs_name := lit "TITLE";
         fs_before_eq := []; fs_after_eq := lit " ";
         fs_delimiter := Braces; fs_value := lit "C" |} ] (lit ","))
    as (_ & _ & Hlookup).
  - repeat (constructor; [field_ok_check|]). constructor.
  - repeat constructor.
  - rewrite Hlookup. vm_compute. reflexivity.
Defined.

(** *** What the field loop stores *)

Lemma match_assign_word (s name : str) (e : nat) :
  match_assign s = Some (name, e) ->
  name <> [] /\ Forall (fun c => is_word c = true) name.
Proof.
  unfold match_assign. destruct (span is_word s) as [run r1] eqn:Hw.
  apply span_Forall in Hw. destruct run as [|c run]; [discriminate|].
  destruct (span is_space r1) as [ws1 r2]. destruct r2 as [|b r3]; [discriminate|].
  destruct (ascii_eqb b equals_sign); [|discriminate].
  destruct (span is_space r3) as [ws2 r4]. by intros [= <- _].
Qed.

Lemma search_assign_word (s name : str) (e : nat) :
  search_assign s = Some (name, e) ->
  name <> [] /\ Forall (fun c => is_word c = true) name.
Proof.
  revert e. induction s as [|c s IH]; intros e; cbn [search_assign].
  - destruct (match_assign []) as [[n k]|] eqn:Hm; [|discriminate].
    intros [= -> _]. by eapply match_assign_word.
  - destruct (match_assign (c :: s)) as [[n k]|] eqn:Hm.
    + intros [= -> _]. by eapply match_assign_word.
    + destruct (search_assign s) as [[n k]|]; [|discriminate].
      cbn. intros [= <- _]. by eapply IH.
Qed.

Lemma scan_step_stored (fields : str) (current_pos : nat) (n v : str) (value_end : nat) :
  scan_step fields current_pos = Store n v value_end ->
  stored_name n /\ single_spaced v.
Proof.
  unfold scan_step.
  destruct (search_assign _) as [[name e]|] eqn:Hs; [|discriminate].
  destruct (_ <? _); [|discriminate].
  intros [= <- <- _]. apply search_assign_word in Hs as [Hne Hw].
  split; [by exists name | apply clean_latex_single_spaced].
Qed.

Lemma scan_trace_stored (fuel : nat) (fields : str) (current_pos : nat) :
  Forall (fun nv => stored_name nv.1 /\ single_spaced nv.2)
    (scan_trace fuel fields current_pos).
Proof.
  revert current_pos. induction fuel as [|fuel IH]; intros pos; cbn [scan_trace];
    [constructor|].
  destruct (pos <? length fields); [|constructor].
  destruct (scan_step fields pos) as [|n v e|] eqn:Hs; [constructor| |apply IH].
  constructor; [by eapply scan_step_stored | apply IH].
Qed.

(** X9: whatever the body of a record is, every slot of the parsed record
    is the entry type under [type], the citation key under [key], or a
    field of the body: a name that is the lower-case form of one or more
    word characters, with a value in which white space is single spaces
    between other characters. *)
Theorem parse_entry_slots (entry_type key fields name v : str) :
  parse_entry (entry_type, key, fields) !! name = Some v ->
  (name = lit "type" /\ v = entry_type)
  \/ (name = lit "key" /\ v = key)
  \/ (stored_name name /\ single_spaced v).
Proof.
  unfold parse_entry. rewrite scan_loop_trace.
  pose proof (scan_trace_stored (length fields) fields 0) as Hl.
  revert Hl. generalize (scan_trace (length fields) fields 0). intros l Hl.
  assert (Hinit : forall w : str,
            (<[lit "key" := key]> (<[lit "type" := entry_type]> ∅) : gmap str str)
              !! name = Some w ->
            (name = lit "type" /\ w = entry_type) \/ (name = lit "key" /\ w = key)
            \/ (stored_name name /\ single_spaced w)).
  { intros w Hw. destruct (decide (lit "key" = name)) as [<-|Hk].
    - rewrite lookup_insert_eq in Hw. injection Hw as <-. right. by left.
    - rewrite lookup_insert_ne in Hw by done.
      destruct (decide (lit "type" = name)) as [<-|Ht].
      + rewrite lookup_insert_eq in Hw. injection Hw as <-. by left.
      + rewrite lookup_insert_ne in Hw by done. by rewrite lookup_empty in Hw. }
  revert Hinit.
  generalize (<[lit "key" := key]> (<[lit "type" := entry_type]> ∅) : gmap str str).
  intros entry Hinit. revert entry Hinit v.
  induction Hl as [|[n w] l [Hn Hw] _ IH]; intros entry Hinit v; cbn [foldl].
  - apply Hinit.
  - apply IH. intros u Hu. cbn [fst snd] in *.
    destruct (decide (n = name)) as [->|Hne].
    + rewrite lookup_insert_eq in Hu. injection Hu as <-. right. by right.
    + rewrite lookup_insert_ne in Hu by done. by apply Hinit.
Qed.

Lemma parse_entry_slots_witness :
  (lit "journal" = lit "type" /\ lit "J. of X" = lit "article")
  \/ (lit "journal" = lit "key" /\ lit "J. of X" = lit "k")
  \/ (stored_name (lit "journal") /\ single_spaced (lit "J. of X")).
Proof.
  apply (parse_entry_slots (lit "article") (lit "k")
           (lit " Journal = {J.  of {X}}, year = {2020}")).
  vm_compute. reflexivity.
Defined.

(** ** The records of a bibliography *)

Lemma lbrace_not_word : is_word lbrace = false.
Proof. reflexivity. Qed.

Lemma comma_is_comma : not_comma comma = false.
Proof. reflexivity. Qed.

Lemma entry_text_length (entry_type key body : str) :
  length (entry_text (entry_type, key, body))
  = 1 + length entry_type + 1 + length key + 1 + length body + 2.
Proof. unfold entry_text. rewrite !length_app. cbn [length]. lia. Qed.

Lemma match_entry_text (e : str * str * str) (rest : str) :
  entry_ok e ->
  match_entry (entry_text e ++ rest) = Some (e, length (entry_text e)).
Proof.
  destruct e as [[entry_type key] body].
  intros (Hty & Htyw & Hkey & Hkeyc & Hend).
  rewrite entry_text_length. unfold entry_text, match_entry.
  rewrite <- !app_assoc. cbn [app].
  change (ascii_eqb at_sign at_sign) with true. cbv beta match.
  assert (Hw : span is_word (entry_type ++ lbrace :: key ++ comma :: body
                             ++ nl :: rbrace :: rest)
               = (entry_type, lbrace :: key ++ comma :: body ++ nl :: rbrace :: rest)).
  { apply span_run; [done|]. intros a [= <-]. apply lbrace_not_word. }
  rewrite Hw. destruct entry_type as [|t0 entry_type]; [done|].
  change (ascii_eqb lbrace lbrace) with true. cbv beta match.
  assert (Hk : span not_comma (key ++ comma :: body ++ nl :: rbrace :: rest)
               = (key, comma :: body ++ nl :: rbrace :: rest)).
  { apply span_run; [done|]. intros a [= <-]. apply comma_is_comma. }
  rewrite Hk. destruct key as [|k0 key]; [done|].
  assert (Hf : str_find_from [nl; rbrace] (body ++ nl :: rbrace :: rest) 1
               = Some (length body)).
  { unfold str_find_from in *. destruct body as [|b body].
    - cbn in Hend. destruct (ascii_eqb _ _); cbn in Hend; discriminate.
    - cbn [app drop] in *. change (drop 0 ?l) with l in *.
      destruct (str_find [nl; rbrace] (body ++ [nl; rbrace])) as [i|] eqn:Hi;
        [|discriminate].
      cbn in Hend. injection Hend as Hend.
      pose proof (str_find_same_prefix [nl; rbrace] (body ++ [nl; rbrace]) rest i Hi)
        as Hp.
      assert (i = length body) as -> by lia.
      rewrite take_app_length in Hp. cbn [app] in Hp. by rewrite Hp. }
  rewrite Hf. by rewrite take_app_length.
Qed.

Lemma match_entry_at_sign (c : ascii) (s : str) :
  c <> at_sign -> match_entry (c :: s) = None.
Proof.
  intros Hc. cbn [match_entry]. unfold ascii_eqb.
  by destruct (Ascii.eqb_spec c at_sign).
Qed.

Lemma findall_entries_skip (x rest : str) :
  findall_entries (x ++ rest) (length x) = findall_entries rest 0.
Proof. induction x as [|c x IH]; [reflexivity|]. cbn [app length findall_entries]. apply IH. Qed.

Lemma findall_entries_gap (gap rest : str) :
  at_sign ∉ gap -> findall_entries (gap ++ rest) 0 = findall_entries rest 0.
Proof.
  induction gap as [|c gap IH]; intros Hg; [reflexivity|].
  apply not_elem_of_cons in Hg as [Hc Hg].
  cbn [app findall_entries].
  rewrite match_entry_at_sign by done. by apply IH.
Qed.

Lemma findall_entries_nil (tail : str) :
  at_sign ∉ tail -> findall_entries tail 0 = [].
Proof.
  intros Ht. pose proof (findall_entries_gap tail [] Ht) as H.
  by rewrite app_nil_r in H.
Qed.

Lemma findall_entries_entry (e : str * str * str) (rest : str) :
  entry_ok e ->
  findall_entries (entry_text e ++ rest) 0 = e :: findall_entries rest 0.
Proof.
  intros He. pose proof (match_entry_text e rest He) as Hm.
  pose proof (findall_entries_skip (drop 1 (entry_text e)) rest) as Hs.
  destruct e as [[entry_type key] body].
  unfold entry_text in *. cbn [app] in *.
  cbn [findall_entries]. rewrite Hm. f_equal.
  cbn [drop] in Hs. change (drop 0 ?l) with l in Hs.
  cbn [length]. rewrite Nat.sub_succ, Nat.sub_0_r. exact Hs.
Qed.

Lemma findall_entries_bib (items : list (str * (str * str * str))) (tail : str) :
  bib_ok items tail ->
  findall_entries (bib_text items tail) 0 = map snd items.
Proof.
  intros [Hitems Htail]. unfold bib_text.
  induction Hitems as [|[gap e] items [Hgap He] _ IH].
  - by apply findall_entries_nil.
  - cbn [map concat fst snd] in *. rewrite <- !app_assoc.
    rewrite findall_entries_gap by done.
    rewrite findall_entries_entry by done. by rewrite IH.
Qed.

(** X10: a bibliography made of well-formed records, each written as an
    at sign, the entry type, an opening brace, the key, a comma, the body
    and a closing brace at the start of a line, with text without an at
    sign between them, is cut into exactly these records, in the order of
    the file: every record is found, nothing else is, and the body of
    each is the text between the comma and the newline before the
    closing brace. *)
Theorem parsed_entries_of_records (items : list (str * (str * str * str)))
    (tail : str) :
  bib_ok items tail ->
  findall_entries (bib_text items tail) 0 = map snd items
  /\ parsed_entries (bib_text items tail) = map parse_entry (map snd items).
Proof.
  intros Hok. pose proof (findall_entries_bib items tail Hok) as H.
  split; [exact H|]. unfold parsed_entries. by rewrite H.
Qed.

Lemma parsed_entries_of_records_witness :
  findall_entries
    (bib_text
       [ (lit "% my papers" ++ [nl],
          (lit "article", lit "a1", [nl] ++ lit "  title = {A}}"));
         ([nl; nl],
          (lit "book", lit "b{2}",
           lit " title = {B}," ++ [nl] ++ lit "  note = {see @article{x}}")) ]
       [nl]) 0
  = [ (lit "article", lit "a1", [nl] ++ lit "  title = {A}}");
      (lit "book", lit "b{2}",
       lit " title = {B}," ++ [nl] ++ lit "  note = {see @article{x}}") ].
Proof.
  apply (parsed_entries_of_records
       [ (lit "% my papers" ++ [nl],
          (lit "article", lit "a1", [nl] ++ lit "  title = {A}}"));
         ([nl; nl],
          (lit "book", lit "b{2}",
           lit " title = {B}," ++ [nl] ++ lit "  note = {see @article{x}}")) ]
       [nl]).
  split.
  - repeat (constructor;
            [split;
             [rewrite list_elem_of_In; vm_compute; intuition discriminate
             |unfold entry_ok; cbn [snd];
              repeat split; first [discriminate | reflexivity | repeat constructor]]|]).
    constructor.
  - rewrite list_elem_of_In. vm_compute. intuition discriminate.
Defined.

(** ** The slug *)

Lemma slug_char_word (c : ascii) :
  slug_char c = true -> is_space c = false -> slug_alnum c = true.
Proof.
  unfold slug_char, slug_alnum. cbv zeta. intros H Hs. rewrite Hs in H.
  by rewrite orb_false_r in H.
Qed.

Lemma split_ws_go_words (s cur : str) :
  Forall (fun c => slug_char c = true) s ->
  Forall (fun c => slug_alnum c = true) cur ->
  Forall (fun w => w <> [] /\ Forall (fun c => slug_alnum c = true) w)
    (split_ws_go s cur).
Proof.
  intros Hs. revert cur. induction Hs as [|c s Hc _ IH]; intros cur Hcur.
  - cbn [split_ws_go]. destruct cur as [|a cur]; [constructor|].
    constructor; [|constructor]. split.
    + intros Hr. apply (f_equal (@length ascii)) in Hr.
      rewrite length_rev in Hr. discriminate.
    + by apply Forall_rev.
  - cbn [split_ws_go]. destruct (is_space c) eqn:Hsp.
    + destruct cur as [|a cur]; [by apply IH|].
      constructor; [|by apply IH]. split.
      * intros Hr. apply (f_equal (@length ascii)) in Hr.
        rewrite length_rev in Hr. discriminate.
      * by apply Forall_rev.
    + apply IH. constructor; [by apply slug_char_word | exact Hcur].
Qed.

Lemma is_space_not_slug_alnum (c : ascii) : is_space c = true -> slug_alnum c = false.
Proof. destruct c as [[] [] [] [] [] [] [] []]; vm_compute; congruence. Qed.

Lemma slug_char_not_space (c : ascii) :
  slug_char c && negb (is_space c) = slug_alnum c.
Proof.
  unfold slug_char. cbv zeta. fold (slug_alnum c).
  destruct (is_space c) eqn:Hs.
  - rewrite (is_space_not_slug_alnum c Hs). reflexivity.
  - by rewrite orb_false_r, andb_true_r.
Qed.

Lemma list_filter_filter {A : Type} (f g : A -> bool) (l : list A) :
  List.filter f (List.filter g l) = List.filter (fun x => g x && f x) l.
Proof.
  induction l as [|a l IH]; [reflexivity|]. cbn [List.filter].
  destruct (g a); cbn [List.filter andb]; [|exact IH].
  destruct (f a); by rewrite IH.
Qed.

Lemma list_filter_all {A : Type} (f : A -> bool) (l : list A) :
  Forall (fun x => f x = true) l -> List.filter f l = l.
Proof.
  induction 1 as [|a l Ha _ IH]; [reflexivity|].
  cbn [List.filter]. by rewrite Ha, IH.
Qed.

Lemma split_ws_go_concat (s cur : str) :
  concat (split_ws_go s cur)
  = rev cur ++ List.filter (fun c => negb (is_space c)) s.
Proof.
  revert cur. induction s as [|c s IH]; intros cur; cbn [split_ws_go List.filter].
  - destruct cur as [|a cur]; [reflexivity|]. cbn [concat]. by rewrite app_nil_r.
  - destruct (is_space c); cbn [negb].
    + destruct cur as [|a cur]; [by rewrite IH|].
      cbn [concat]. by rewrite IH.
    + rewrite IH. cbn [rev]. by rewrite <- app_assoc.
Qed.

Lemma slug_letters (title : str) :
  concat (split_ws (List.filter slug_char title)) = List.filter slug_alnum title.
Proof.
  unfold split_ws. rewrite split_ws_go_concat. cbn [rev app].
  rewrite list_filter_filter. apply filter_ext. intros c. apply slug_char_not_space.
Qed.

Lemma str_join_letters (words : list str) :
  Forall (fun w => w <> [] /\ Forall (fun c => slug_alnum c = true) w) words ->
  List.filter slug_alnum (str_join (lit "-") words) = concat words.
Proof.
  induction 1 as [|w words [_ Hw] Hwords IH]; [reflexivity|].
  cbn [concat]. destruct words as [|w' words].
  - cbn [str_join concat]. rewrite app_nil_r. by apply list_filter_all.
  - change (str_join (lit "-") (w :: w' :: words))
      with (w ++ lit "-" ++ str_join (lit "-") (w' :: words)).
    rewrite !List.filter_app, IH. by rewrite (list_filter_all _ w Hw).
Qed.

Lemma str_join_nonempty (sep w : str) (words : list str) :
  w <> [] -> str_join sep (w :: words) <> [].
Proof.
  intros Hw. destruct words as [|w' words]; cbn [str_join]; [exact Hw|].
  intros H. by apply app_eq_nil in H as [H _].
Qed.

(** X11: the slug of a record is made of at most five words joined by
    hyphens, each word one or more characters among the lower-case
    letters a to z and the digits.  The letters and digits of the words
    are the first letters and digits of the title in lower case, in
    their order: all of them when the slug has fewer than five words; and
    the slug is empty exactly when the title in lower case has no such
    letter or digit. *)
Theorem generate_publication_slug_words (pub : gmap str str) :
  let title := lower (get pub "title" (lit "untitled")) in
  exists words : list str,
    generate_publication_slug pub = str_join (lit "-") words
    /\ length words <= 5
    /\ Forall (fun w => w <> [] /\ Forall (fun c => slug_alnum c = true) w) words
    /\ List.filter slug_alnum (generate_publication_slug pub) = concat words
    /\ (exists rest, List.filter slug_alnum title = concat words ++ rest)
    /\ (length words < 5 -> List.filter slug_alnum title = concat words)
    /\ (generate_publication_slug pub = [] <-> List.filter slug_alnum title = []).
Proof.
  intros title. unfold generate_publication_slug. fold title.
  set (all_words := split_ws (List.filter slug_char title)).
  assert (Hall : Forall (fun w => w <> [] /\ Forall (fun c => slug_alnum c = true) w)
                   all_words).
  { unfold all_words, split_ws. apply split_ws_go_words; [|constructor].
    apply List.Forall_forall. intros c Hc. by apply List.filter_In in Hc as [_ Hc]. }
  assert (Hletters : List.filter slug_alnum title
                     = concat (take 5 all_words) ++ concat (drop 5 all_words)).
  { rewrite <- concat_app, take_drop. symmetry. apply slug_letters. }
  assert (Hwords : Forall (fun w => w <> [] /\ Forall (fun c => slug_alnum c = true) w)
                     (take 5 all_words)) by (by apply Forall_take).
  exists (take 5 all_words).
  split; [reflexivity|]. split; [rewrite length_take; lia|].
  split; [exact Hwords|]. split; [by apply str_join_letters|].
  split; [by exists (concat (drop 5 all_words))|]. split.
  - intros Hlen. rewrite Hletters.
    rewrite (drop_ge all_words 5) by (rewrite length_take in Hlen; lia).
    cbn [concat]. by rewrite app_nil_r.
  - split.
    + intros Hslug. destruct all_words as [|w ws] eqn:Hw.
      * by rewrite Hletters.
      * exfalso. cbn [take] in Hslug. inversion Hall as [|? ? [Hne _] _]; subst.
        by apply (str_join_nonempty (lit "-") w (take 4 ws) Hne).
    + intros Hnone. rewrite Hletters in Hnone.
      destruct all_words as [|w ws]; [reflexivity|]. exfalso.
      inversion Hall as [|? ? [Hne _] _]; subst.
      cbn [take concat] in Hnone. rewrite <- app_assoc in Hnone.
      by apply app_eq_nil in Hnone as [Hnone _].
Qed.

(** ** The index and [main] *)

Lemma sort_by_key_desc_keys {A : Type} (key : A -> result Z) (items sorted : list A) :
  sort_by_key_desc key items = Ok sorted ->
  Forall (fun a => exists k, key a = Ok k) items.
Proof.
  intros Hs. apply List.Forall_forall. intros a Ha.
  destruct (key a) as [k|e] eqn:Hk; [by exists k|].
  destruct (sort_by_key_desc_raise key items a e Ha Hk) as [e' He'].
  rewrite He' in Hs. discriminate.
Qed.

Lemma StronglySorted_list_filter {A : Type} (R : A -> A -> Prop) (f : A -> bool)
    (l : list A) :
  StronglySorted R l -> StronglySorted R (List.filter f l).
Proof.
  induction 1 as [|a l Hl IH Ha]; cbn [List.filter]; [constructor|].
  destruct (f a); [|exact IH]. constructor; [exact IH|].
  apply List.Forall_forall. intros b Hb. apply List.filter_In in Hb as [Hb _].
  by apply (proj1 (List.Forall_forall _ _) Ha).
Qed.

(** X12: when [generate_publications_index] returns, the index is the
    header, the content built from the links sorted by decreasing year,
    and the footer; the sort keeps links of the same year in the order
    they were given, and each list of the grouping is in decreasing order
    of year.  (The heading Other Publications shows the list [misc]
    followed by the list [others].) *)
Theorem index_groups_by_year (original : str) (pub_links : list link)
    (new_html : str) :
  generate_publications_index original pub_links = Ok new_html ->
  exists sorted : list link,
    new_html = index_header original ++ index_content sorted ++ index_footer original
    /\ Permutation sorted pub_links
    /\ by_year_desc sorted
    /\ (forall y, List.filter (fun p => (link_year_of p =? y)%Z) sorted
                  = List.filter (fun p => (link_year_of p =? y)%Z) pub_links)
    /\ by_year_desc (articles (group_by_type sorted))
    /\ by_year_desc (incollections (group_by_type sorted))
    /\ by_year_desc (inproceedings (group_by_type sorted))
    /\ by_year_desc (thesis (group_by_type sorted))
    /\ by_year_desc (misc (group_by_type sorted))
    /\ by_year_desc (others (group_by_type sorted)).
Proof.
  unfold generate_publications_index. intros Hg.
  destruct (sort_by_key_desc (fun x => py_int (link_year x)) pub_links)
    as [sorted|e] eqn:Hs; [|discriminate].
  cbn [bind] in Hg. injection Hg as <-.
  pose proof (sort_by_key_desc_keys _ _ _ Hs) as Hkeys.
  destruct (sort_by_key_desc_ok (fun x => py_int (link_year x)) pub_links Hkeys)
    as (sorted' & Hs' & Hsorted & Hperm & Hstable).
  rewrite Hs in Hs'. injection Hs' as <-.
  exists sorted. split; [reflexivity|]. split; [exact Hperm|].
  split; [exact Hsorted|]. split; [exact Hstable|].
  unfold group_by_type. cbn [articles incollections inproceedings thesis misc others].
  repeat split; by apply StronglySorted_list_filter.
Qed.

Lemma index_groups_by_year_witness :
  exists sorted : list link,
    index_header index_template
    ++ index_content
         [ nth 4 mixed_links book_link; article_link; nth 3 mixed_links book_link;
           nth 5 mixed_links book_link; book_link; nth 2 mixed_links book_link ]
    ++ index_footer index_template
    = index_header index_template ++ index_content sorted
      ++ index_footer index_template
    /\ Permutation sorted mixed_links
    /\ by_year_desc sorted
    /\ (forall y, List.filter (fun p => (link_year_of p =? y)%Z) sorted
                  = List.filter (fun p => (link_year_of p =? y)%Z) mixed_links)
    /\ by_year_desc (articles (group_by_type sorted))
    /\ by_year_desc (incollections (group_by_type sorted))
    /\ by_year_desc (inproceedings (group_by_type sorted))
    /\ by_year_desc (thesis (group_by_type sorted))
    /\ by_year_desc (misc (group_by_type sorted))
    /\ by_year_desc (others (group_by_type sorted)).
Proof.
  apply (index_groups_by_year index_template mixed_links).
  vm_compute. reflexivity.
Defined.

(** The order that the sort gives to the links of several years: the
    three links of 2003 keep the order in which they were given. *)
Example index_order_of_mixed_links :
  sort_by_key_desc (fun x => py_int (link_year x)) mixed_links
  = Ok [ nth 4 mixed_links book_link; article_link; nth 3 mixed_links book_link;
         nth 5 mixed_links book_link; book_link; nth 2 mixed_links book_link ]
  /\ map link_title (articles (group_by_type
       [ nth 4 mixed_links book_link; article_link; nth 3 mixed_links book_link;
         nth 5 mixed_links book_link; book_link; nth 2 mixed_links book_link ]))
     = [lit "A Paper"; lit "B Paper"; lit "Early"].
Proof. split; vm_compute; reflexivity. Qed.

Lemma link_year_make_link (pub : gmap str str) :
  link_year (make_link pub) = get pub "year" (lit "n.d.").
Proof. unfold make_link. by destruct (generate_html pub) as [[html date_str] slug]. Qed.

Lemma year_placeholder_raises : py_int (lit "n.d.") = Raise ValueError.
Proof. vm_compute. reflexivity. Qed.

Lemma year_converts_link (e : gmap str str) (k : Z) :
  py_int (link_year (make_link e)) = Ok k ->
  exists y n, e !! lit "year" = Some y /\ py_int y = Ok n.
Proof.
  rewrite link_year_make_link. unfold get.
  destruct (e !! lit "year") as [y|] eqn:Hy.
  - intros Hk. by exists y, k.
  - by rewrite year_placeholder_raises.
Qed.

(** X13: the two sorts by year that [main] runs, the one of
    [parse_bibtex] and the one of [generate_publications_index] on the
    links that [main] builds, both return exactly when every record of
    the bibliography has a year field that [int()] converts; when a
    record has no year field, or one that is not a number, [main] does
    not complete. *)
Theorem main_needs_years_that_convert (bib index : str) :
  (years_convert (parsed_entries bib)
   <-> exists publications new_index,
         parse_bibtex bib = Ok publications
         /\ length publications = length (parsed_entries bib)
         /\ generate_publications_index index (map make_link publications)
            = Ok new_index)
  /\ (~ years_convert (parsed_entries bib) -> forall r, main bib index <> Ok r).
Proof.
  assert (Hsorts : (exists publications new_index,
                       parse_bibtex bib = Ok publications
                       /\ length publications = length (parsed_entries bib)
                       /\ generate_publications_index index (map make_link publications)
                          = Ok new_index)
                   -> years_convert (parsed_entries bib)).
  { intros (publications & new_index & Hp & _ & Hg). unfold years_convert.
    unfold generate_publications_index in Hg.
    destruct (sort_by_key_desc (fun x => py_int (link_year x))
                (map make_link publications)) as [sorted|] eqn:Hs; [|discriminate].
    pose proof (sort_by_key_desc_keys _ _ _ Hs) as Hkeys.
    pose proof (sort_by_key_desc_perm _ _ _ Hp) as Hperm.
    apply List.Forall_forall. intros e He.
    apply (Permutation_in _ (Permutation_sym Hperm)) in He.
    apply (in_map make_link) in He.
    destruct (proj1 (List.Forall_forall _ _) Hkeys _ He) as [k Hk].
    by eapply year_converts_link. }
  split; [split; [|exact Hsorts]|].
  - intros Hyears. unfold years_convert in Hyears.
    assert (Hkeys : Forall (fun e => exists k, year_key e = Ok k) (parsed_entries bib)).
    { eapply Forall_impl; [exact Hyears|]. intros e (y & n & Hy & Hn).
      exists n. unfold year_key, get. by rewrite Hy. }
    destruct (sort_by_key_desc_ok year_key _ Hkeys)
      as (publications & Hp & _ & Hperm & _).
    assert (Hlinks : Forall (fun p => exists k, py_int (link_year p) = Ok k)
                       (map make_link publications)).
    { apply List.Forall_forall. intros p Hin.
      apply in_map_iff in Hin as (e & <- & He).
      apply (Permutation_in _ Hperm) in He.
      destruct (proj1 (List.Forall_forall _ _) Hyears _ He) as (y & n & Hy & Hn).
      exists n. rewrite link_year_make_link. unfold get. by rewrite Hy. }
    destruct (sort_by_key_desc_ok (fun x => py_int (link_year x)) _ Hlinks)
      as (sorted & Hs & _).
    exists publications.
    exists (index_header index ++ index_content sorted ++ index_footer index).
    split; [|split].
    + unfold parse_bibtex. fold (parsed_entries bib). exact Hp.
    + by apply Permutation_length.
    + unfold generate_publications_index. by rewrite Hs.
  - intros Hno [files new_index] Hmain. apply Hno, Hsorts. unfold main in Hmain.
    destruct (parse_bibtex bib) as [publications|] eqn:Hp; [|discriminate].
    cbn [bind] in Hmain.
    destruct (generate_publications_index index (map make_link publications))
      as [idx|] eqn:Hg; [|discriminate].
    exists publications, idx. split; [reflexivity|]. split; [|exact Hg].
    apply Permutation_length. by eapply sort_by_key_desc_perm.
Qed.

(** [parse_bibtex] returns exactly when the sort key of every record can
    be computed. *)
Lemma parse_bibtex_returns (content : str) :
  (exists publications, parse_bibtex content = Ok publications)
  <-> Forall (fun e => exists k, year_key e = Ok k) (parsed_entries content).
Proof.
  unfold parse_bibtex. fold (parsed_entries content). split.
  - intros [publications Hp]. by eapply sort_by_key_desc_keys.
  - intros Hkeys. destruct (sort_by_key_desc_ok year_key _ Hkeys) as (pubs & Hp & _).
    by exists pubs.
Qed.

(** X14: [parse_bibtex] returns exactly when every record that has a
    year field has one that [int()] converts; a record without the field
    does not prevent it, and a year that is not a number makes it raise
    for the whole file, whatever the other records are. *)
Theorem parse_bibtex_returns_iff_years (content : str) :
  (exists publications, parse_bibtex content = Ok publications)
  <-> Forall (fun e => forall y, e !! lit "year" = Some y -> exists k, py_int y = Ok k)
        (parsed_entries content).
Proof.
  rewrite parse_bibtex_returns. split; intros H; (eapply Forall_impl; [exact H|]);
    intros e He; cbv beta in *.
  - intros y Hy. unfold year_key, get in He. by rewrite Hy in He.
  - unfold year_key, get. destruct (e !! lit "year") as [y|] eqn:Hy.
    + by apply He.
    + by exists 0%Z.
Qed.

(** X15: in the index a link is under the heading of its type, and under
    no other: an entry of type [book] is under no heading at all, and an
    entry of any other type is under exactly one. *)
Theorem index_heading_by_type (pub_links : list link) (p : link) :
  In p pub_links ->
  heading_of pub_links p
  = if str_eqb (link_type p) (lit "book") then []
    else [expected_heading (link_type p)].
Proof.
  intros Hin. unfold str_eqb. case_bool_decide as Hty.
  - by apply book_not_rendered.
  - by apply other_types_rendered_once.
Qed.

Lemma index_heading_by_type_witness :
  heading_of [book_link; article_link] article_link
  = if str_eqb (link_type article_link) (lit "book") then []
    else [expected_heading (link_type article_link)].
Proof.
  apply (index_heading_by_type [book_link; article_link] article_link).
  right. by left.
Defined.

(** ** The detail page *)

Lemma nonempty_false (s : str) : nonempty s = false <-> s = [].
Proof. by destruct s. Qed.

(** X16: the optional parts of the detail page are there exactly when
    their field is there and not empty: the volume item, the pages item,
    the DOI item, and the line of links under the citation, which is
    there when the record has a [url] or a [doi]. *)
Theorem generate_html_optional_parts (pub : gmap str str) :
  let html := (generate_html pub).1.1 in
  (page_volume_html html = [] <-> get pub "volume" [] = [])
  /\ (page_pages_html html = [] <-> get pub "pages" [] = [])
  /\ (page_doi_html html = [] <-> get pub "doi" [] = [])
  /\ (page_links_footer html = []
      <-> get pub "url" [] = [] /\ get pub "doi" [] = []).
Proof.
  unfold generate_html.
  cbn [fst page_volume_html page_pages_html page_doi_html page_links_footer].
  generalize (get pub "volume" []), (get pub "pages" []), (get pub "doi" []),
    (get pub "url" []).
  intros volume pages doi url.
  repeat split; try (destruct volume; done); try (destruct pages; done);
    try (destruct doi; done); try (destruct url, doi; done).
  - by intros [-> ->].
Qed.

Lemma generate_html_names (pub : gmap str str) :
  (generate_html pub).1.2 = get_date_for_filename pub
  /\ (generate_html pub).2 = generate_publication_slug pub.
Proof. split; reflexivity. Qed.

Lemma detail_file_name (pub : gmap str str) :
  (detail_file pub).1
  = get_date_for_filename pub ++ lit "-" ++ generate_publication_slug pub ++ lit ".html".
Proof.
  unfold detail_file. destruct (generate_html_names pub) as [Hd Hs].
  destruct (generate_html pub) as [[html date_str] slug]. cbn [fst snd] in *.
  by rewrite Hd, Hs.
Qed.

Lemma make_link_filename (pub : gmap str str) :
  link_filename (make_link pub) = (detail_file pub).1.
Proof.
  unfold detail_file, make_link.
  by destruct (generate_html pub) as [[html date_str] slug].
Qed.

Lemma make_link_title (pub : gmap str str) :
  link_title (make_link pub) = get_publication_title pub.
Proof. unfold make_link. by destruct (generate_html pub) as [[html date_str] slug]. Qed.

Lemma build_pub_entry_permalink (p : link) (name : str) :
  link_filename p = name ++ lit ".html" ->
  build_pub_entry p
  = lines_text
      (([] :: take 3 (entry_lines p))
       ++ [permalink_line (lit "/albertocarraro/publication/" ++ name) (link_title p)]
       ++ drop 4 (entry_lines p)).
Proof.
  intros Hf. rewrite build_pub_entry_lines. f_equal.
  unfold entry_lines, permalink_line. cbn [take drop app]. rewrite Hf.
  rewrite length_app. change (length (lit ".html")) with 5.
  by rewrite Nat.add_sub, take_app_length.
Qed.

(** X17: the entry of a record in the index links to its detail page:
    the detail file is named by the date, a hyphen, the slug and
    [.html]; the link of the record has that file name, and the fifth
    line of its entry in the index holds the address of the publication
    directory followed by the name without [.html], with the title of
    the record as the text of the link. *)
Theorem index_entry_links_detail_file (pub : gmap str str) :
  let name := get_date_for_filename pub ++ lit "-" ++ generate_publication_slug pub in
  (detail_file pub).1 = name ++ lit ".html"
  /\ link_filename (make_link pub) = name ++ lit ".html"
  /\ exists before after : list str,
       length before = 4
       /\ build_pub_entry (make_link pub)
          = lines_text
              (before
               ++ [permalink_line (lit "/albertocarraro/publication/" ++ name)
                     (get_publication_title pub)]
               ++ after).
Proof.
  cbv zeta.
  assert (Hname : (detail_file pub).1
                  = (get_date_for_filename pub ++ lit "-"
                     ++ generate_publication_slug pub) ++ lit ".html").
  { rewrite detail_file_name. by rewrite <- !app_assoc. }
  assert (Hlink : link_filename (make_link pub)
                  = (get_date_for_filename pub ++ lit "-"
                     ++ generate_publication_slug pub) ++ lit ".html").
  { by rewrite make_link_filename. }
  split; [exact Hname|]. split; [exact Hlink|].
  exists ([] :: take 3 (entry_lines (make_link pub))),
    (drop 4 (entry_lines (make_link pub))).
  split; [reflexivity|].
  rewrite <- make_link_title. by apply build_pub_entry_permalink.
Qed.

(** ** Running [main] again *)

Lemma main_rerun_idempotent_witness :
  exists files new_index,
    main carraro_record index_template = Ok (files, new_index)
    /\ main carraro_record new_index = Ok (files, new_index).
Proof.
  destruct (main carraro_record index_template) as [[files new_index]|e] eqn:Hmain;
    [|vm_compute in Hmain; discriminate].
  exists files, new_index. split; [reflexivity|].
  apply (main_rerun_idempotent carraro_record index_template files new_index Hmain).
  vm_compute. lia.
Defined.

(** ** What is not read *)

Lemma match_assign_name_rest (name ws1 ws2 rest : str) :
  name <> [] -> Forall (fun c => is_word c = true) name ->
  Forall (fun c => is_space c = true) ws1 ->
  Forall (fun c => is_space c = true) ws2 ->
  (forall c, head rest = Some c -> is_space c = false) ->
  match_assign (name ++ ws1 ++ [equals_sign] ++ ws2 ++ rest)
  = Some (name, length name + length ws1 + 1 + length ws2).
Proof.
  intros Hne Hname H1 H2 Hrest. destruct rest as [|c rest].
  - unfold match_assign.
    assert (Hw : span is_word (name ++ ws1 ++ [equals_sign] ++ ws2 ++ [])
                 = (name, ws1 ++ [equals_sign] ++ ws2 ++ [])).
    { apply span_run; [done|]. intros a Ha. destruct ws1 as [|b ws1].
      - injection Ha as <-. reflexivity.
      - injection Ha as <-. apply is_space_not_word. by inversion H1. }
    assert (Hs1 : span is_space (ws1 ++ [equals_sign] ++ ws2 ++ [])
                  = (ws1, [equals_sign] ++ ws2 ++ [])).
    { apply span_run; [done|]. intros a Ha. injection Ha as <-. reflexivity. }
    assert (Hs2 : span is_space (ws2 ++ []) = (ws2, [])).
    { apply span_run; [done|]. intros a Ha. discriminate. }
    rewrite Hw. destruct name as [|n0 name]; [done|].
    rewrite Hs1. cbn [app]. change (ascii_eqb equals_sign equals_sign) with true.
    cbv beta match. by rewrite Hs2.
  - apply match_assign_name; try done. by apply Hrest.
Qed.

Lemma brace_loop_no_closing (s : str) (i : nat) (brace_count : Z) :
  rbrace ∉ s -> brace_loop s i brace_count = None.
Proof.
  revert i brace_count. induction s as [|c s IH]; intros i k Hs; [reflexivity|].
  apply not_elem_of_cons in Hs as [Hc Hs]. cbn [brace_loop].
  destruct (ascii_eqb c lbrace); [by apply IH|].
  unfold ascii_eqb. destruct (Ascii.eqb_spec c rbrace) as [->|_]; [done|].
  by apply IH.
Qed.

Lemma str_find_char_None (c : ascii) (s : str) : c ∉ s -> str_find [c] s = None.
Proof.
  induction s as [|a s IH]; intros Hs; [reflexivity|].
  apply not_elem_of_cons in Hs as [Hc Hs].
  cbn [str_find startswith]. unfold ascii_eqb.
  destruct (Ascii.eqb_spec c a) as [->|_]; [done|].
  cbn [andb]. by rewrite (IH Hs).
Qed.

Lemma unreadable_head (value : str) (c : ascii) :
  unreadable value -> head value = Some c -> is_space c = false.
Proof.
  destruct value as [|a rest]; [discriminate|]. cbn [unreadable head].
  intros Hu [= <-]. unfold ascii_eqb in Hu.
  destruct (Ascii.eqb_spec a lbrace) as [->|_]; [reflexivity|].
  destruct (Ascii.eqb_spec a dq) as [->|_]; [reflexivity|]. exact Hu.
Qed.

Lemma find_value_end_unreadable (before value : str) :
  unreadable value ->
  find_value_end (before ++ value) (length before) <= length before.
Proof.
  intros Hu. unfold find_value_end.
  rewrite lookup_app_r, Nat.sub_diag by lia.
  destruct value as [|c rest]; [done|].
  change ((c :: rest) !! 0) with (Some c). cbv beta match.
  cbn [unreadable] in Hu. rewrite drop_app_length.
  destruct (ascii_eqb c lbrace) eqn:Hl.
  - cbn [brace_loop]. rewrite Hl. by rewrite brace_loop_no_closing.
  - destruct (ascii_eqb c dq) eqn:Hq; [|done].
    unfold str_find_from. rewrite drop_app_ge by lia.
    replace (length before + 1 - length before) with 1 by lia. cbn [drop].
    change (drop 0 rest) with rest. rewrite str_find_char_None by done.
    cbn. lia.
Qed.

(** X18: a field whose value cannot be extracted is not stored: when the
    text after the equals sign is at its end, starts with neither a brace
    nor a double quote (a bare number for instance), is a double quote
    that is not closed or a brace with no closing brace after it, the
    iteration of the field loop stores nothing and moves the scan
    position by one character. *)
Theorem scan_step_skips_unreadable (before sep name ws1 ws2 value : str) :
  Forall (fun c => is_word c = false) sep ->
  name <> [] -> Forall (fun c => is_word c = true) name ->
  Forall (fun c => is_space c = true) ws1 ->
  Forall (fun c => is_space c = true) ws2 ->
  unreadable value ->
  scan_step (before ++ sep ++ name ++ ws1 ++ [equals_sign] ++ ws2 ++ value)
    (length before) = Skip
  /\ next_pos (before ++ sep ++ name ++ ws1 ++ [equals_sign] ++ ws2 ++ value)
       (length before) = Some (length before + 1).
Proof.
  intros Hsep Hne Hname H1 H2 Hu.
  assert (Hstep : scan_step
                    (before ++ sep ++ name ++ ws1 ++ [equals_sign] ++ ws2 ++ value)
                    (length before) = Skip).
  { unfold scan_step. rewrite drop_app_length.
    rewrite (search_assign_sep sep _ name
               (length name + length ws1 + 1 + length ws2) Hsep)
      by (apply match_assign_name_rest; try done; intros c; by apply unreadable_head).
    set (prefix := before ++ sep ++ name ++ ws1 ++ [equals_sign] ++ ws2).
    assert (Hfields : before ++ sep ++ name ++ ws1 ++ [equals_sign] ++ ws2 ++ value
                      = prefix ++ value).
    { unfold prefix. by rewrite <- !app_assoc. }
    assert (Hstart : length before
                     + (length sep + (length name + length ws1 + 1 + length ws2))
                     = length prefix).
    { unfold prefix. rewrite !length_app. cbn [length]. lia. }
    rewrite Hstart, Hfields.
    pose proof (find_value_end_unreadable prefix value Hu) as Hend.
    by destruct (Nat.ltb_spec (length prefix) (find_value_end (prefix ++ value)
                                                 (length prefix))); [lia|]. }
  split; [exact Hstep|]. unfold next_pos. by rewrite Hstep.
Qed.

Lemma scan_step_skips_unreadable_witness :
  scan_step (lit "title = {T}" ++ lit ", " ++ lit "year" ++ lit " " ++ [equals_sign]
             ++ lit " " ++ lit "2020,") (length (lit "title = {T}")) = Skip
  /\ next_pos (lit "title = {T}" ++ lit ", " ++ lit "year" ++ lit " " ++ [equals_sign]
               ++ lit " " ++ lit "2020,") (length (lit "title = {T}"))
     = Some (length (lit "title = {T}") + 1).
Proof.
  apply (scan_step_skips_unreadable (lit "title = {T}") (lit ", ") (lit "year")
           (lit " ") (lit " ") (lit "2020,")); try (repeat constructor); try discriminate.
Defined.

Lemma match_entry_needs_closing_line (s : str) :
  (forall j, startswith [nl; rbrace] (drop j s) = false) -> match_entry s = None.
Proof.
  intros Hs. unfold match_entry. destruct s as [|c s1]; [reflexivity|].
  destruct (ascii_eqb c at_sign); [|reflexivity].
  destruct (span is_word s1) as [entry_type r1] eqn:Hw.
  destruct entry_type as [|t0 entry_type]; [reflexivity|].
  destruct r1 as [|b s3]; [reflexivity|].
  destruct (ascii_eqb b lbrace); [|reflexivity].
  destruct (span not_comma s3) as [key r3] eqn:Hk.
  destruct key as [|k0 key]; [reflexivity|].
  destruct r3 as [|b5 s5]; [reflexivity|].
  destruct (str_find_from [nl; rbrace] s5 1) as [i|] eqn:Hf; [|reflexivity].
  exfalso. unfold str_find_from in Hf.
  destruct (str_find [nl; rbrace] (drop 1 s5)) as [i'|] eqn:Hi; [|discriminate].
  apply str_find_Some in Hi as (Hst & _ & _).
  apply span_app in Hw. apply span_app in Hk. subst s1 s3.
  rewrite drop_drop in Hst.
  set (prefix := c :: (t0 :: entry_type) ++ b :: (k0 :: key) ++ [b5]).
  assert (Heq : c :: (t0 :: entry_type) ++ b :: (k0 :: key) ++ b5 :: s5 = prefix ++ s5).
  { unfold prefix. cbn [app]. rewrite <- !app_assoc. cbn [app].
    by rewrite <- app_assoc. }
  specialize (Hs (length prefix + (1 + i'))).
  rewrite Heq, drop_app_ge in Hs by lia.
  replace (length prefix + (1 + i') - length prefix) with (1 + i') in Hs by lia.
  congruence.
Qed.

Lemma findall_entries_needs_closing_line (content : str) (skip : nat) :
  (forall j, startswith [nl; rbrace] (drop j content) = false) ->
  findall_entries content skip = [].
Proof.
  revert skip. induction content as [|c rest IH]; intros skip Hs; [reflexivity|].
  assert (Hrest : forall j, startswith [nl; rbrace] (drop j rest) = false)
    by (intros j; apply (Hs (S j))).
  cbn [findall_entries]. destruct skip as [|k]; [|by apply IH].
  rewrite match_entry_needs_closing_line by done. by apply IH.
Qed.

(** X19: a bibliography in which no line starts with a closing brace has
    no record for the tool: the entry pattern ends with a newline and a
    closing brace, so records written each on one line are not found,
    [parse_bibtex] returns the empty list, and [main] writes no detail
    file and an index without any entry. *)
Theorem no_record_without_closing_line (bib index : str) :
  str_find [nl; rbrace] bib = None ->
  parse_bibtex bib = Ok []
  /\ main bib index
     = Ok ([], index_header index ++ index_content [] ++ index_footer index).
Proof.
  intros Hf. pose proof (proj1 (str_find_None _ _) Hf) as Hn.
  assert (Hp : parse_bibtex bib = Ok []).
  { unfold parse_bibtex. by rewrite findall_entries_needs_closing_line. }
  split; [exact Hp|]. unfold main. by rewrite Hp.
Qed.

Lemma no_record_without_closing_line_witness :
  parse_bibtex carraro_one_line = Ok []
  /\ main carraro_one_line index_template
     = Ok ([], index_header index_template ++ index_content []
               ++ index_footer index_template).
Proof.
  apply (no_record_without_closing_line carraro_one_line index_template).
  vm_compute. reflexivity.
Defined.

(** ** C10: fields named [type] and [key] in the body *)

Lemma scan_step_unreadable (before sep name ws1 ws2 value : str) :
  Forall (fun c => is_word c = false) sep ->
  name <> [] -> Forall (fun c => is_word c = true) name ->
  Forall (fun c => is_space c = true) ws1 ->
  Forall (fun c => is_space c = true) ws2 ->
  unreadable value ->
  scan_step (before ++ sep ++ name ++ ws1 ++ [equals_sign] ++ ws2 ++ value)
    (length before) = Skip.
Proof.
  intros Hsep Hne Hname H1 H2 Hu.
  unfold scan_step. rewrite drop_app_length.
  rewrite (search_assign_sep sep _ name
             (length name + length ws1 + 1 + length ws2) Hsep)
    by (apply match_assign_name_rest; try done; intros c; by apply unreadable_head).
  set (prefix := before ++ sep ++ name ++ ws1 ++ [equals_sign] ++ ws2).
  assert (Hfields : before ++ sep ++ name ++ ws1 ++ [equals_sign] ++ ws2 ++ value
                    = prefix ++ value).
  { unfold prefix. by rewrite <- !app_assoc. }
  assert (Hstart : length before
                   + (length sep + (length name + length ws1 + 1 + length ws2))
                   = length prefix).
  { unfold prefix. rewrite !length_app. cbn [length]. lia. }
  rewrite Hstart, Hfields.
  pose proof (find_value_end_unreadable prefix value Hu) as Hend.
  by destruct (Nat.ltb_spec (length prefix) (find_value_end (prefix ++ value)
                                               (length prefix))); [lia|].
Qed.

(** *** Text that the search passes over *)

Lemma search_assign_passes (j rest : str) :
  passes j rest ->
  search_assign (j ++ rest)
  = (fun '(name, e) => (name, length j + e)) <$> search_assign rest.
Proof.
  induction j as [|c j IH]; intros Hp.
  - cbn [app length]. by destruct (search_assign rest) as [[n e]|].
  - pose proof (Hp 0 ltac:(cbn; lia)) as H0.
    change (drop 0 (c :: j)) with (c :: j) in H0. cbn [app] in H0.
    cbn [app search_assign]. rewrite H0.
    rewrite IH by (intros k Hk; apply (Hp (S k)); cbn [length]; lia).
    by destruct (search_assign rest) as [[n e]|].
Qed.

Lemma passes_not_word (j rest : str) :
  Forall (fun c => is_word c = false) j -> passes j rest.
Proof.
  intros Hj k Hk. destruct (drop k j) as [|c r] eqn:Hd.
  - apply (f_equal (@length ascii)) in Hd. rewrite length_drop in Hd. cbn in Hd. lia.
  - cbn [app]. apply match_assign_not_word.
    pose proof (Forall_drop _ k j Hj) as Hdrop. rewrite Hd in Hdrop.
    by inversion Hdrop.
Qed.

Lemma passes_app (j1 j2 rest : str) :
  passes j1 (j2 ++ rest) -> passes j2 rest -> passes (j1 ++ j2) rest.
Proof.
  intros H1 H2 k Hk. destruct (Nat.lt_ge_cases k (length j1)) as [Hlt|Hge].
  - rewrite drop_app_le by lia. rewrite <- app_assoc. by apply H1.
  - rewrite drop_app_ge by lia. apply H2. rewrite length_app in Hk. lia.
Qed.

Lemma ends_bare_value_word (rest : str) (c : ascii) :
  ends_bare_value rest -> head rest = Some c -> is_word c = false.
Proof. destruct rest as [|a rest]; [discriminate|]. by intros (H & _ & _) [= <-]. Qed.

Lemma ends_bare_value_space (rest : str) (c : ascii) :
  ends_bare_value rest -> head rest = Some c -> is_space c = false.
Proof. destruct rest as [|a rest]; [discriminate|]. by intros (_ & H & _) [= <-]. Qed.

Lemma match_assign_word_run (v rest : str) :
  v <> [] -> Forall (fun c => is_word c = true) v -> ends_bare_value rest ->
  match_assign (v ++ rest) = None.
Proof.
  intros Hne Hv Hrest. unfold match_assign.
  rewrite (span_run is_word v rest Hv) by (intros c; by apply ends_bare_value_word).
  destruct v as [|v0 v]; [done|].
  pose proof (span_run is_space [] rest ltac:(constructor)
                ltac:(intros c; by apply ends_bare_value_space)) as Hs.
  cbn [app] in Hs. rewrite Hs.
  destruct rest as [|c rest]; [reflexivity|].
  destruct Hrest as (_ & _ & Hc). unfold ascii_eqb.
  by destruct (Ascii.eqb_spec c equals_sign).
Qed.

Lemma passes_word_run (v rest : str) :
  Forall (fun c => is_word c = true) v -> ends_bare_value rest -> passes v rest.
Proof.
  intros Hv Hrest k Hk. apply match_assign_word_run; [| |exact Hrest].
  - intros Hd. apply (f_equal (@length ascii)) in Hd. rewrite length_drop in Hd.
    cbn in Hd. lia.
  - by apply Forall_drop.
Qed.

Lemma passes_bare_rest (b : bare_src) (rest : str) :
  bare_ok b -> ends_bare_value rest -> passes (bare_rest b) rest.
Proof.
  intros (_ & _ & _ & H1 & H2 & _ & Hv) Hrest. unfold bare_rest.
  rewrite !app_assoc. apply passes_app; [|by apply passes_word_run].
  apply passes_not_word. rewrite !Forall_app. repeat split.
  - eapply Forall_impl; [exact H1|]. apply is_space_not_word.
  - repeat constructor.
  - eapply Forall_impl; [exact H2|]. apply is_space_not_word.
Qed.

Lemma scan_step_passes (before j rest : str) :
  passes j rest ->
  scan_step (before ++ j ++ rest) (length before)
  = scan_step (before ++ j ++ rest) (length before + length j).
Proof.
  intros Hp. unfold scan_step.
  rewrite drop_app_length, (search_assign_passes j rest Hp).
  rewrite app_assoc, <- length_app, drop_app_length, length_app.
  destruct (search_assign rest) as [[n e]|]; [|reflexivity].
  cbn [fmap option_fmap option_map]. by rewrite Nat.add_assoc.
Qed.

(** *** The loop on a body of fields *)

Lemma word_not_delimiter (c : ascii) (rest : str) :
  is_word c = true -> unreadable (c :: rest).
Proof.
  intros Hc. cbn [unreadable]. unfold ascii_eqb.
  destruct (Ascii.eqb_spec c lbrace) as [->|_]; [discriminate|].
  destruct (Ascii.eqb_spec c dq) as [->|_]; [discriminate|].
  destruct (is_space c) eqn:Hs; [|reflexivity].
  by rewrite (is_space_not_word c Hs) in Hc.
Qed.

Lemma scan_step_bare (before j : str) (b : bare_src) (rest : str) :
  passes j (bare_text b ++ rest) -> bare_ok b ->
  scan_step (before ++ j ++ bare_text b ++ rest) (length before) = Skip.
Proof.
  intros Hp (Hsep & Hne & Hname & H1 & H2 & Hv & Hvw).
  rewrite (scan_step_passes before j _ Hp).
  assert (Hu : unreadable (bs_value b ++ rest)).
  { destruct (bs_value b) as [|c v]; [done|]. cbn [app].
    apply word_not_delimiter. by inversion Hvw. }
  pose proof (scan_step_unreadable (before ++ j) (bs_sep b) (bs_name b)
                (bs_before_eq b) (bs_after_eq b) (bs_value b ++ rest)
                Hsep Hne Hname H1 H2 Hu) as H.
  rewrite length_app, <- !app_assoc in H.
  unfold bare_text, bare_rest. by rewrite <- !app_assoc.
Qed.

Lemma scan_step_delimited (before j : str) (f : field_src) (rest : str) :
  passes j (field_text f ++ rest) -> field_ok f ->
  scan_step (before ++ j ++ field_text f ++ rest) (length before)
  = Store (field_stored f).1 (field_stored f).2
      (length before + length j + length (field_text f)).
Proof.
  intros Hp Hf. rewrite (scan_step_passes before j _ Hp).
  pose proof (scan_step_field_ok (before ++ j) f rest Hf) as H.
  by rewrite length_app, <- !app_assoc in H.
Qed.

Lemma scan_step_tail (before j tail : str) :
  passes j tail -> Forall (fun c => is_word c = false) tail ->
  scan_step (before ++ j ++ tail) (length before) = Stop.
Proof.
  intros Hp Ht. rewrite (scan_step_passes before j _ Hp).
  unfold scan_step. rewrite app_assoc, <- length_app.
  by rewrite drop_app_length, search_assign_none.
Qed.

Lemma passes_drop (j rest : str) (i : nat) :
  passes j rest -> passes (drop i j) rest.
Proof.
  intros Hp k Hk. rewrite length_drop in Hk. rewrite drop_drop.
  apply Hp. lia.
Qed.

Lemma passes_nil (rest : str) : passes [] rest.
Proof. intros k Hk. cbn in Hk. lia. Qed.

(** Iterations that all move the scan position by one character. *)
Lemma scan_trace_skips (k fuel : nat) (fields : str) (current_pos : nat) :
  (forall i, i < k -> scan_step fields (current_pos + i) = Skip) ->
  current_pos + k <= length fields ->
  scan_trace (k + fuel) fields current_pos = scan_trace fuel fields (current_pos + k).
Proof.
  revert current_pos. induction k as [|k IH]; intros pos Hskip Hlen.
  - by rewrite Nat.add_0_r.
  - cbn [Nat.add scan_trace].
    destruct (Nat.ltb_spec pos (length fields)) as [_|Hge]; [|lia].
    pose proof (Hskip 0 ltac:(lia)) as H0. rewrite Nat.add_0_r in H0. rewrite H0.
    rewrite IH; [f_equal; lia| |lia].
    intros i Hi. replace (pos + 1 + i) with (pos + S i) by lia. apply Hskip. lia.
Qed.

(** On a field whose value is bare, the loop stores nothing from the
    scan position to the end of the name. *)
Lemma scan_step_in_bare (before j : str) (b : bare_src) (rest : str) (i : nat) :
  passes j (bare_text b ++ rest) -> bare_ok b ->
  i < length j + length (bs_sep b) + length (bs_name b) ->
  scan_step (before ++ j ++ bare_text b ++ rest) (length before + i) = Skip.
Proof.
  intros Hp Hb Hi.
  destruct Hb as (Hsep & Hne & Hname & H1 & H2 & Hv & Hvw).
  destruct b as [sep name ws1 ws2 value].
  cbn [bs_sep bs_name bs_before_eq bs_after_eq bs_value] in *.
  destruct (Nat.lt_ge_cases i (length j)) as [Hj|Hj].
  - (* in the text before the field *)
    pose proof (scan_step_bare (before ++ take i j) (drop i j)
                  {| bs_sep := sep; bs_name := name; bs_before_eq := ws1;
                     bs_after_eq := ws2; bs_value := value |} rest
                  (passes_drop _ _ i Hp) ltac:(by repeat split)) as H.
    rewrite length_app, length_take, Nat.min_l in H by lia.
    rewrite <- app_assoc, (app_assoc (take i j)), take_drop in H. exact H.
  - destruct (Nat.lt_ge_cases (i - length j) (length sep)) as [Hs|Hs].
    + (* before the name *)
      pose proof (scan_step_bare (before ++ j ++ take (i - length j) sep) []
                    {| bs_sep := drop (i - length j) sep; bs_name := name;
                       bs_before_eq := ws1; bs_after_eq := ws2; bs_value := value |}
                    rest (passes_nil _)
                    ltac:(repeat split; try done; by apply Forall_drop)) as H.
      rewrite !length_app, length_take, Nat.min_l in H by lia.
      replace (length before + (length j + (i - length j)))
        with (length before + i) in H by lia.
      unfold bare_text, bare_rest in H |- *.
      cbn [bs_sep bs_name bs_before_eq bs_after_eq bs_value app] in H |- *.
      rewrite <- ?app_assoc in H. rewrite <- ?app_assoc.
      rewrite (app_assoc (take (i - length j) sep)), take_drop in H. exact H.
    + (* in the name *)
      pose proof (scan_step_bare
                    (before ++ j ++ sep ++ take (i - length j - length sep) name) []
                    {| bs_sep := []; bs_name := drop (i - length j - length sep) name;
                       bs_before_eq := ws1; bs_after_eq := ws2; bs_value := value |}
                    rest (passes_nil _)) as H.
      rewrite !length_app, length_take, Nat.min_l in H by lia.
      replace (length before
               + (length j + (length sep + (i - length j - length sep))))
        with (length before + i) in H by lia.
      unfold bare_text, bare_rest in H |- *.
      cbn [bs_sep bs_name bs_before_eq bs_after_eq bs_value app] in H |- *.
      rewrite <- ?app_assoc in H. rewrite <- ?app_assoc.
      rewrite (app_assoc (take (i - length j - length sep) name)), take_drop in H.
      apply H. unfold bare_ok.
      cbn [bs_sep bs_name bs_before_eq bs_after_eq bs_value].
      split; [constructor|]. split.
      { intros Hd. apply (f_equal (@length ascii)) in Hd. rewrite length_drop in Hd.
        cbn in Hd. lia. }
      split; [by apply Forall_drop|]. by repeat split.
Qed.

Lemma scan_trace_items (items : list item) (tail : str) :
  items_ok items tail ->
  forall (fuel : nat) (before j : str),
    passes j (items_text items ++ tail) ->
    length j + length (items_text items ++ tail) <= fuel ->
    scan_trace fuel (before ++ j ++ items_text items ++ tail) (length before)
    = flat_map item_stored items.
Proof.
  induction items as [|[f|b] items IH]; intros Hok fuel before j Hp Hfuel.
  - cbn [items_text map concat app flat_map] in *.
    destruct fuel as [|fuel]; [reflexivity|]. cbn [scan_trace].
    destruct (_ <? _); [|reflexivity].
    by rewrite (scan_step_tail before j tail Hp Hok).
  - destruct Hok as [Hf Hok].
    change (items_text (Delimited f :: items))
      with (field_text f ++ items_text items) in *.
    rewrite <- app_assoc in *. cbn [flat_map item_stored app].
    pose proof (field_text_nonempty f) as Hpos.
    destruct fuel as [|fuel]; [rewrite !length_app in Hfuel; lia|].
    cbn [scan_trace].
    destruct (Nat.ltb_spec (length before)
                (length (before ++ j ++ field_text f ++ items_text items ++ tail)))
      as [_|Hge]; [|rewrite !length_app in Hge; lia].
    rewrite (scan_step_delimited before j f _ Hp Hf).
    destruct (field_stored f) as [n v]. cbn [fst snd]. f_equal.
    pose proof (IH Hok fuel (before ++ j ++ field_text f) [] (passes_nil _)) as H.
    rewrite !length_app, <- !app_assoc in H. cbn [app length] in H.
    replace (length before + length j + length (field_text f))
      with (length before + (length j + length (field_text f))) by lia.
    apply H. rewrite !length_app in Hfuel. lia.
  - destruct Hok as (Hb & Hend & Hok).
    change (items_text (Bare b :: items))
      with (bare_text b ++ items_text items) in *.
    rewrite <- app_assoc in *. cbn [flat_map item_stored app].
    set (k := length j + length (bs_sep b) + length (bs_name b)).
    assert (Hlen : length (bare_text b)
                   = length (bs_sep b) + length (bs_name b) + length (bare_rest b))
      by (unfold bare_text; rewrite !length_app; lia).
    assert (Hk : k + (length (bare_rest b) + length (items_text items ++ tail))
                 <= fuel)
      by (rewrite length_app, Hlen in Hfuel; unfold k; lia).
    replace fuel with (k + (fuel - k)) by lia.
    rewrite scan_trace_skips.
    + pose proof (IH Hok (fuel - k) (before ++ j ++ bs_sep b ++ bs_name b)
                    (bare_rest b) (passes_bare_rest b _ Hb Hend)) as H.
      rewrite !length_app, <- !app_assoc in H.
      unfold bare_text. rewrite <- !app_assoc.
      replace (length before + k)
        with (length before + (length j + (length (bs_sep b) + length (bs_name b))))
        by (unfold k; lia).
      apply H. rewrite length_app in Hk. lia.
    + intros i Hi. by apply scan_step_in_bare.
    + rewrite !length_app, Hlen. unfold k. lia.
Qed.

Lemma field_assignments_items (items : list item) (tail : str) :
  items_ok items tail ->
  field_assignments (items_text items ++ tail) = flat_map item_stored items.
Proof.
  intros Hok. unfold field_assignments.
  apply (scan_trace_items items tail Hok _ [] [] (passes_nil _)).
  cbn [length]. lia.
Qed.

(** *** The slots [type] and [key] *)

Lemma last_assigned_app (name : str) (l1 l2 : list (str * str)) :
  last_assigned name (l1 ++ l2)
  = match last_assigned name l2 with
    | Some v => Some v
    | None => last_assigned name l1
    end.
Proof.
  induction l1 as [|[n v] l1 IH]; cbn [app last_assigned].
  - by destruct (last_assigned name l2).
  - rewrite IH. by destruct (last_assigned name l2).
Qed.

Lemma last_assigned_none (name : str) (items : list item) :
  Forall (fun it => ~ stored_under name it) items ->
  last_assigned name (flat_map item_stored items) = None.
Proof.
  induction 1 as [|[f|b] items Hit _ IH]; [reflexivity| |exact IH].
  cbn [flat_map item_stored app]. unfold field_stored at 1. cbn [last_assigned].
  rewrite IH. unfold str_eqb. by rewrite bool_decide_eq_false_2.
Qed.

Lemma last_assigned_field (name : str) (l1 l2 : list item) (f : field_src) :
  lower (fs_name f) = name ->
  Forall (fun it => ~ stored_under name it) l2 ->
  last_assigned name (flat_map item_stored (l1 ++ Delimited f :: l2))
  = Some (clean_latex (strip (fs_value f))).
Proof.
  intros Hf Hl2. rewrite flat_map_app, last_assigned_app.
  cbn [flat_map item_stored app]. unfold field_stored at 1. cbn [last_assigned].
  rewrite (last_assigned_none name l2 Hl2).
  unfold str_eqb. by rewrite bool_decide_eq_true_2.
Qed.

Lemma parse_entry_items_lookup (entry_type key : str) (items : list item)
    (tail name : str) :
  items_ok items tail ->
  parse_entry (entry_type, key, items_text items ++ tail) !! name
  = match last_assigned name (flat_map item_stored items) with
    | Some v => Some v
    | None =>
        (<[lit "key" := key]> (<[lit "type" := entry_type]> ∅) : gmap str str) !! name
    end.
Proof.
  intros Hok. unfold parse_entry. rewrite scan_loop_trace.
  fold (field_assignments (items_text items ++ tail)).
  rewrite (field_assignments_items items tail Hok). apply foldl_insert_lookup.
Qed.

Lemma link_type_make_link (pub : gmap str str) :
  link_type (make_link pub) = get pub "type" (lit "article").
Proof. unfold make_link. by destruct (generate_html pub) as [[html date_str] slug]. Qed.

(** The conditions of [items_ok] on fields that are written out. *)
Ltac bare_ok_check :=
  unfold bare_ok;
  cbn [bs_sep bs_name bs_before_eq bs_after_eq bs_value];
  repeat split; first [ discriminate | repeat constructor ].

Ltac items_ok_check :=
  cbn [items_ok];
  repeat match goal with
         | |- _ /\ _ => split
         | |- field_ok _ => field_ok_check
         | |- bare_ok _ => bare_ok_check
         | |- ends_bare_value _ => vm_compute; repeat split; discriminate
         | |- Forall _ _ => repeat constructor
         end.

(** C10 (amended): in a record whose body is made of well-formed fields,
    with a value between delimiters or a bare value, the value of the
    last field named [type], in any case of letters, that has its value
    between delimiters is stored in the slot that held the entry type,
    and it is the type under which [main] has the index group the
    record, whose heading is the one of that value; likewise the value
    of the last such field named [key] replaces the citation key.  A
    field with a bare value is not stored, and the entry type and the
    key stay when the body has no field with a value between delimiters
    under that name. *)
Theorem type_and_key_fields_overwrite (entry_type key : str) (items : list item)
    (tail : str) :
  items_ok items tail ->
  let entry := parse_entry (entry_type, key, items_text items ++ tail) in
  (forall l1 f l2,
      items = l1 ++ Delimited f :: l2 -> lower (fs_name f) = lit "type" ->
      Forall (fun it => ~ stored_under (lit "type") it) l2 ->
      let value := clean_latex (strip (fs_value f)) in
      entry !! lit "type" = Some value
      /\ link_type (make_link entry) = value
      /\ forall pub_links,
           In (make_link entry) pub_links ->
           heading_of pub_links (make_link entry)
           = if str_eqb value (lit "book") then [] else [expected_heading value])
  /\ (forall l1 f l2,
        items = l1 ++ Delimited f :: l2 -> lower (fs_name f) = lit "key" ->
        Forall (fun it => ~ stored_under (lit "key") it) l2 ->
        entry !! lit "key" = Some (clean_latex (strip (fs_value f))))
  /\ (Forall (fun it => ~ stored_under (lit "type") it) items ->
      entry !! lit "type" = Some entry_type
      /\ link_type (make_link entry) = entry_type)
  /\ (Forall (fun it => ~ stored_under (lit "key") it) items ->
      entry !! lit "key" = Some key).
Proof.
  intros Hok entry.
  assert (Hlook : forall name,
             entry !! name
             = match last_assigned name (flat_map item_stored items) with
               | Some v => Some v
               | None =>
                   (<[lit "key" := key]> (<[lit "type" := entry_type]> ∅)
                     : gmap str str) !! name
               end)
    by (intros name; by apply parse_entry_items_lookup).
  assert (Hlink : forall v, entry !! lit "type" = Some v ->
                            link_type (make_link entry) = v).
  { intros v Hv. rewrite link_type_make_link. unfold get. by rewrite Hv. }
  split; [|split; [|split]].
  - intros l1 f l2 -> Hname Hlast value.
    assert (Hty : entry !! lit "type" = Some value)
      by (by rewrite Hlook, (last_assigned_field _ l1 l2 f Hname Hlast)).
    pose proof (Hlink value Hty) as Hl.
    split; [exact Hty|]. split; [exact Hl|].
    intros pub_links Hin. rewrite <- Hl. unfold str_eqb. case_bool_decide as Hbook.
    + by apply book_not_rendered.
    + by apply other_types_rendered_once.
  - intros l1 f l2 -> Hname Hlast.
    by rewrite Hlook, (last_assigned_field _ l1 l2 f Hname Hlast).
  - intros Hnone.
    assert (Hty : entry !! lit "type" = Some entry_type).
    { rewrite Hlook, (last_assigned_none _ items Hnone).
      rewrite lookup_insert_ne by discriminate. apply lookup_insert_eq. }
    split; [exact Hty | by apply Hlink].
  - intros Hnone. rewrite Hlook, (last_assigned_none _ items Hnone).
    apply lookup_insert_eq.
Qed.

Lemma type_and_key_fields_overwrite_witness :
  let title := {| fs_sep := lit " "; fs_name := lit "title";
                  fs_before_eq := lit " "; fs_after_eq := lit " ";
                  fs_delimiter := Braces; fs_value := lit "T" |} in
  let type := {| fs_sep := lit ", "; fs_name := lit "Type";
                 fs_before_eq := lit " "; fs_after_eq := lit " ";
                 fs_delimiter := Braces; fs_value := lit "phdthesis" |} in
  let bare_type := {| bs_sep := lit ", "; bs_name := lit "type";
                      bs_before_eq := lit " "; bs_after_eq := lit " ";
                      bs_value := lit "misc" |} in
  let year := {| fs_sep := lit ", "; fs_name := lit "year";
                 fs_before_eq := lit " "; fs_after_eq := lit " ";
                 fs_delimiter := Braces; fs_value := lit "2020" |} in
  let fields :=
    items_text [Delimited title; Delimited type; Bare bare_type; Delimited year] ++ [] in
  let entry := parse_entry (lit "article", lit "k", fields) in
  fields = lit " title = {T}, Type = {phdthesis}, type = misc, year = {2020}"
  /\ entry !! lit "type" = Some (lit "phdthesis")
  /\ link_type (make_link entry) = lit "phdthesis"
  /\ heading_of [make_link entry] (make_link entry) = ["Theses"%string]
  /\ entry !! lit "key" = Some (lit "k").
Proof.
  cbv zeta. split; [vm_compute; reflexivity|].
  destruct (type_and_key_fields_overwrite (lit "article") (lit "k")
    [ Delimited {| fs_sep := lit " "; fs_name := lit "title";
                   fs_before_eq := lit " "; fs_after_eq := lit " ";
                   fs_delimiter := Braces; fs_value := lit "T" |};
      Delimited {| fs_sep := lit ", "; fs_name := lit "Type";
                   fs_before_eq := lit " "; fs_after_eq := lit " ";
                   fs_delimiter := Braces; fs_value := lit "phdthesis" |};
      Bare {| bs_sep := lit ", "; bs_name := lit "type";
              bs_before_eq := lit " "; bs_after_eq := lit " ";
              bs_value := lit "misc" |};
      Delimited {| fs_sep := lit ", "; fs_name := lit "year";
                   fs_before_eq := lit " "; fs_after_eq := lit " ";
                   fs_delimiter := Braces; fs_value := lit "2020" |} ] [])
    as (Htype & _ & _ & Hkey).
  - items_ok_check.
  - destruct (Htype
      [ Delimited {| fs_sep := lit " "; fs_name := lit "title";
                     fs_before_eq := lit " "; fs_after_eq := lit " ";
                     fs_delimiter := Braces; fs_value := lit "T" |} ]
      {| fs_sep := lit ", "; fs_name := lit "Type";
         fs_before_eq := lit " "; fs_after_eq := lit " ";
         fs_delimiter := Braces; fs_value := lit "phdthesis" |}
      [ Bare {| bs_sep := lit ", "; bs_name := lit "type";
                bs_before_eq := lit " "; bs_after_eq := lit " ";
                bs_value := lit "misc" |};
        Delimited {| fs_sep := lit ", "; fs_name := lit "year";
                     fs_before_eq := lit " "; fs_after_eq := lit " ";
                     fs_delimiter := Braces; fs_value := lit "2020" |} ]
      eq_refl eq_refl) as (H1 & H2 & H3).
    + repeat constructor; [intros []|discriminate].
    + split; [exact H1|]. split; [exact H2|].
      split; [rewrite H3 by (by left); vm_compute; reflexivity|].
      apply Hkey. repeat constructor; try discriminate. intros [].
Defined.

(** C10, as stated, fails: a field named [type] whose value is not
    between braces or double quotes is not stored, the record keeps its
    entry type and the index shows it under the heading of that type. *)
Lemma bare_type_field_not_stored :
  field_assignments (lit " title = {T}, type = phdthesis, year = {2020}")
  = [(lit "title", lit "T"); (lit "year", lit "2020")]
  /\ map (fun e => get e "type" []) (parsed_entries bib_bare_type) = [lit "article"]
  /\ (let pub_links := map make_link (parsed_entries bib_bare_type) in
      map (heading_of pub_links) pub_links = [["Journal Articles"%string]]).
Proof. repeat split; vm_compute; reflexivity. Qed.
